(** * Allura: mail utilities, ticket search facets and the application base

    A shallow embedding of the parts of

    - [Allura/allura/lib/mail_util.py]  (modules [SMTP], [MailUtil] and
      [Autoreply]),
    - [ForgeTracker/forgetracker/search.py]  (module [Search]),
    - [Allura/allura/app.py]  (modules [Admin], [Permissions] and [Sitemap])

    that the specification talks about, followed by the properties proved
    about them.  Python exceptions are values of [exn]; a computation that
    may raise returns a [result]. *)

From Stdlib Require Import ZArith NArith Ascii String List Bool Lia.
From stdpp Require Import gmap strings list pretty.

Set Warnings "-register-all".

(** ** Python exceptions and results *)

(** The subclasses of [smtplib.SMTPResponseException]; [RPlain] is the class
    itself. *)
Inductive response_kind :=
| RPlain | RSenderRefused | RDataError | RConnectError | RHeloError
| RAuthenticationError.

Inductive exn :=
| SMTPServerDisconnected
| SMTPResponseException (kind : response_kind) (smtp_code : Z)
| SMTPRecipientsRefused
| AddressException (msg : string)
| TypeError (msg : string)
| ValueError (msg : string)
| IndexError
| AttributeError
| UnicodeEncodeError
| UnicodeDecodeError
| KeyError
| InvalidId (oid : string)
| HTTPFound (location : string)
| OtherError (msg : string).

Inductive result (A : Type) :=
| Return (a : A)
| Raise (e : exn).
Arguments Return {A} a.
Arguments Raise {A} e.

Definition rbind {A B} (r : result A) (k : A → result B) : result B :=
  match r with
  | Return a => k a
  | Raise e => Raise e
  end.

Declare Scope py_scope.
Delimit Scope py_scope with py.
Notation "x <- r ;; k" := (rbind r (fun x => k))
  (at level 100, r at next level, right associativity) : py_scope.

Definition returns {A} (r : result A) : bool :=
  match r with Return _ => true | Raise _ => false end.

(** ** Python string operations used by the sources *)

Module PyStr.

(** [s.startswith(p)] *)
Fixpoint startswith (p s : string) : bool :=
  match p, s with
  | EmptyString, _ => true
  | String a p', String b s' => if Ascii.eqb a b then startswith p' s' else false
  | String _ _, EmptyString => false
  end.

(** [s[n:]] and [s[:n]] for [0 <= n] *)
Fixpoint drop (n : nat) (s : string) : string :=
  match n, s with
  | O, _ => s
  | S n', String _ s' => drop n' s'
  | S _, EmptyString => EmptyString
  end.

Fixpoint take (n : nat) (s : string) : string :=
  match n, s with
  | O, _ => EmptyString
  | S n', String a s' => String a (take n' s')
  | S _, EmptyString => EmptyString
  end.

(** [s.endswith(p)] *)
Definition endswith (p s : string) : bool :=
  (String.length p <=? String.length s)%nat
  && String.eqb (drop (String.length s - String.length p) s) p.

(** [s[:-n]] for [0 <= n]: Python reads [-0] as [0], so [s[:-0]] is the
    empty string. *)
Definition take_to_neg (n : nat) (s : string) : string :=
  match n with
  | O => EmptyString
  | _ => take (String.length s - n) s
  end.

(** [c in s] for a one-character [c] *)
Fixpoint contains_char (c : ascii) (s : string) : bool :=
  match s with
  | EmptyString => false
  | String a s' => Ascii.eqb a c || contains_char c s'
  end.

(** [s.split(c)] for a one-character separator: never the empty list. *)
Fixpoint split (c : ascii) (s : string) : list string :=
  match s with
  | EmptyString => [EmptyString]
  | String a s' =>
      if Ascii.eqb a c then EmptyString :: split c s'
      else match split c s' with
           | w :: ws => String a w :: ws
           | [] => [String a EmptyString]
           end
  end.

(** [sep.join(l)] *)
Fixpoint join (sep : string) (l : list string) : string :=
  match l with
  | [] => EmptyString
  | [w] => w
  | w :: ws => w +:+ sep +:+ join sep ws
  end.

(** Index of the last occurrence of [sep] in [s], as [s.rfind(sep)]. *)
Fixpoint rfind (sep s : string) : option nat :=
  match s with
  | EmptyString => if startswith sep EmptyString then Some O else None
  | String _ s' =>
      match rfind sep s' with
      | Some i => Some (S i)
      | None => if startswith sep s then Some O else None
      end
  end.

(** [s.rsplit(sep, 1)] for a non-empty [sep]: one or two pieces. *)
Definition rsplit1 (sep s : string) : list string :=
  match rfind sep s with
  | Some i => [take i s; drop (i + String.length sep) s]
  | None => [s]
  end.

(** [s.strip(c)] for a one-character set *)
Fixpoint lstrip (c : ascii) (s : string) : string :=
  match s with
  | String a s' => if Ascii.eqb a c then lstrip c s' else s
  | EmptyString => EmptyString
  end.

Fixpoint rstrip (c : ascii) (s : string) : string :=
  match s with
  | EmptyString => EmptyString
  | String a s' =>
      match rstrip c s' with
      | EmptyString => if Ascii.eqb a c then EmptyString else String a EmptyString
      | r => String a r
      end
  end.

Definition strip (c : ascii) (s : string) : string := rstrip c (lstrip c s).

(** truth value of a string *)
Definition truthy (s : string) : bool :=
  match s with EmptyString => false | _ => true end.

End PyStr.

(** ** [mail_util.py]: the outbound SMTP client *)

Module SMTP.

(** What goes over the wire: opening a connection ([smtplib.SMTP(...)]
    with the optional login and STARTTLS of [_connect]) and one
    [smtplib.SMTP.sendmail] call with its three arguments. *)
Inductive event :=
| Connect
| Sendmail (addr_from : string) (smtp_addrs : list string) (content : string).

(** The mail server and the network are outside the program: they answer
    each request, knowing everything that went over the wire so far (the
    request being answered is the last element), with success ([None]) or
    with the exception that smtplib raises. *)
Definition server := list event → option exn.

(** A [SMTPClient] object: its [_client] attribute ([None], or the
    connection, named by the number of wire events when it was opened),
    together with the wire history of the process. *)
Record SMTPClient := {
  _client : option nat;
  wire : list event;
}.

(** Methods run in a state and exception monad over the object. *)
Definition method (A : Type) := SMTPClient → result A * SMTPClient.

Definition ret {A} (a : A) : method A := fun self => (Return a, self).
Definition raise {A} (e : exn) : method A := fun self => (Raise e, self).
Definition bind {A B} (m : method A) (k : A → method B) : method B :=
  fun self =>
    match m self with
    | (Return a, self') => k a self'
    | (Raise e, self') => (Raise e, self')
    end.
(** [try: m  except Exception as e: h e] *)
Definition try_except {A} (m : method A) (h : exn → method A) : method A :=
  fun self =>
    match m self with
    | (Return a, self') => (Return a, self')
    | (Raise e, self') => h e self'
    end.

Declare Scope smtp_scope.
Delimit Scope smtp_scope with smtp.
Notation "x <- m ;; k" := (bind m (fun x => k))
  (at level 100, m at next level, right associativity) : smtp_scope.
Notation "m ;;; k" := (bind m (fun _ => k))
  (at level 100, right associativity) : smtp_scope.
Open Scope smtp_scope.

(** One request to the outside world. *)
Definition request (srv : server) (ev : event) : method unit :=
  fun self =>
    let w := wire self ++ [ev] in
    match srv w with
    | None => (Return tt, {| _client := _client self; wire := w |})
    | Some e => (Raise e, {| _client := _client self; wire := w |})
    end.

(** [SMTPClient._connect]: [self._client] is assigned only when the
    connection, the login and STARTTLS all went through. *)
Definition _connect (srv : server) : method unit :=
  request srv Connect ;;;
  fun self => (Return tt, {| _client := Some (length (wire self)); wire := wire self |}).

(** [self._client.sendmail(addr_from, smtp_addrs, content)] *)
Definition client_sendmail (srv : server)
    (addr_from : string) (smtp_addrs : list string) (content : string) : method unit :=
  fun self =>
    match _client self with
    | None => (Raise AttributeError, self)
    | Some _ => request srv (Sendmail addr_from smtp_addrs content) self
    end.

(** [isinstance(e, (smtplib.SMTPServerDisconnected, smtplib.SMTPConnectError))] *)
Definition is_disconnect_or_connect_error (e : exn) : bool :=
  match e with
  | SMTPServerDisconnected => true
  | SMTPResponseException RConnectError _ => true
  | _ => false
  end.

(** [if not self._client: self._connect()] *)
Definition ensure_client (srv : server) : method unit :=
  fun self =>
    match _client self with
    | None => _connect srv self
    | Some _ => ret tt self
    end.

(** [SMTPClient.send_raw] *)
Definition send_raw (srv : server)
    (addr_from : string) (smtp_addrs : list string) (content : string) : method unit :=
  ensure_client srv ;;;
  need_retry <-
    try_except
      (client_sendmail srv addr_from smtp_addrs content ;;; ret false)
      (fun e =>
         if is_disconnect_or_connect_error e then ret true
         else match e with
              | SMTPResponseException _ smtp_code =>
                  if (400 <=? smtp_code)%Z && (smtp_code <? 500)%Z
                  then ret true   (* 4__ is "Transient Negative" *)
                  else raise e
              | _ => raise e
              end) ;;
  if need_retry : bool then
    _connect srv ;;;
    client_sendmail srv addr_from smtp_addrs content
  else ret tt.

(** The failures after which [send_raw] tries again, in the words of the
    specification: a disconnect, a connect error, or a response exception
    with a code in 400..499. *)
Definition transient (e : exn) : Prop :=
  e = SMTPServerDisconnected
  ∨ (∃ code, e = SMTPResponseException RConnectError code)
  ∨ (∃ kind code, e = SMTPResponseException kind code ∧ (400 ≤ code ≤ 499)%Z).

(** How many [sendmail] calls, and how many connections, a piece of wire
    history holds. *)
Definition is_sendmail (ev : event) : bool :=
  match ev with Sendmail _ _ _ => true | Connect => false end.
Definition deliveries (w : list event) : nat :=
  length (List.filter is_sendmail w).
Definition connects (w : list event) : nat :=
  length (List.filter (fun ev => negb (is_sendmail ev)) w).

Close Scope smtp_scope.
End SMTP.

(** ** Text and bytes *)

(** A Python [str] that may hold any text (mail bodies, raw messages) is
    the list of its code points; [bytes] is a list of octets.  Header names,
    header values and addresses, which the sources only cut and compare, are
    plain [string]s. *)
Abbreviation unicode := (list N).
Abbreviation bytes := (list ascii).

Module Codec.

Definition octet (n : N) : ascii := ascii_of_N n.

(** [s.encode('ascii')]: every code point must be below 128. *)
Fixpoint encode_ascii (s : unicode) : result bytes :=
  match s with
  | [] => Return []
  | c :: s' =>
      if (c <? 128)%N
      then (b <- encode_ascii s' ;; Return (octet c :: b))%py
      else Raise UnicodeEncodeError
  end.

(** UTF-8 for one code point; surrogates (and numbers that are no code
    points) are refused, as the strict error handler does. *)
Definition utf8_char (c : N) : result bytes :=
  if (c <? 0x80)%N then Return [octet c]
  else if (c <? 0x800)%N then
    Return [octet (N.lor 0xC0 (N.shiftr c 6));
            octet (N.lor 0x80 (N.land c 0x3F))]
  else if (c <? 0x10000)%N then
    if (0xD800 <=? c)%N && (c <=? 0xDFFF)%N then Raise UnicodeEncodeError
    else
      Return [octet (N.lor 0xE0 (N.shiftr c 12));
              octet (N.lor 0x80 (N.land (N.shiftr c 6) 0x3F));
              octet (N.lor 0x80 (N.land c 0x3F))]
  else if (c <? 0x110000)%N then
    Return [octet (N.lor 0xF0 (N.shiftr c 18));
            octet (N.lor 0x80 (N.land (N.shiftr c 12) 0x3F));
            octet (N.lor 0x80 (N.land (N.shiftr c 6) 0x3F));
            octet (N.lor 0x80 (N.land c 0x3F))]
  else Raise UnicodeEncodeError.

(** [s.encode('utf-8')] *)
Fixpoint encode_utf8 (s : unicode) : result bytes :=
  match s with
  | [] => Return []
  | c :: s' =>
      (b <- utf8_char c ;; b' <- encode_utf8 s' ;; Return (b ++ b'))%py
  end.

(** A continuation octet [10xxxxxx] gives its six payload bits. *)
Definition continuation (a : ascii) : option N :=
  let n := N_of_ascii a in
  if (0x80 <=? n)%N && (n <=? 0xBF)%N then Some (N.land n 0x3F) else None.

(** A decoded code point is accepted when it needed that many octets, is
    no surrogate and is at most U+10FFFF. *)
Definition scalar_in (lo : N) (c : N) : bool :=
  (lo <=? c)%N && (c <=? 0x10FFFF)%N
  && negb ((0xD800 <=? c)%N && (c <=? 0xDFFF)%N).

(** [b.decode('utf-8')] with the strict error handler. *)
Fixpoint decode_utf8 (b : bytes) : result unicode :=
  match b with
  | [] => Return []
  | a0 :: b1 =>
      let n0 := N_of_ascii a0 in
      if (n0 <? 0x80)%N then
        (s <- decode_utf8 b1 ;; Return (n0 :: s))%py
      else if (0xC0 <=? n0)%N && (n0 <? 0xE0)%N then
        match b1 with
        | a1 :: b2 =>
            match continuation a1 with
            | Some x1 =>
                let c := N.lor (N.shiftl (N.land n0 0x1F) 6) x1 in
                if scalar_in 0x80 c
                then (s <- decode_utf8 b2 ;; Return (c :: s))%py
                else Raise UnicodeDecodeError
            | None => Raise UnicodeDecodeError
            end
        | [] => Raise UnicodeDecodeError
        end
      else if (0xE0 <=? n0)%N && (n0 <? 0xF0)%N then
        match b1 with
        | a1 :: a2 :: b3 =>
            match continuation a1, continuation a2 with
            | Some x1, Some x2 =>
                let c := N.lor (N.shiftl (N.land n0 0x0F) 12)
                           (N.lor (N.shiftl x1 6) x2) in
                if scalar_in 0x800 c
                then (s <- decode_utf8 b3 ;; Return (c :: s))%py
                else Raise UnicodeDecodeError
            | _, _ => Raise UnicodeDecodeError
            end
        | _ => Raise UnicodeDecodeError
        end
      else if (0xF0 <=? n0)%N && (n0 <? 0xF8)%N then
        match b1 with
        | a1 :: a2 :: a3 :: b4 =>
            match continuation a1, continuation a2, continuation a3 with
            | Some x1, Some x2, Some x3 =>
                let c := N.lor (N.shiftl (N.land n0 0x07) 18)
                           (N.lor (N.shiftl x1 12) (N.lor (N.shiftl x2 6) x3)) in
                if scalar_in 0x10000 c
                then (s <- decode_utf8 b4 ;; Return (c :: s))%py
                else Raise UnicodeDecodeError
            | _, _, _ => Raise UnicodeDecodeError
            end
        | _ => Raise UnicodeDecodeError
        end
      else Raise UnicodeDecodeError
  end.

(** [b.splitlines()] on bytes: lines end at LF, CR or CR LF, the line
    ends are dropped, and a final line end opens no further line.  [cur]
    is the line being read. *)
Fixpoint splitlines_from (cur : bytes) (b : bytes) : list bytes :=
  match b with
  | [] => match cur with [] => [] | _ => [cur] end
  | a :: b' =>
      if Ascii.eqb a "010" then cur :: splitlines_from [] b'
      else if Ascii.eqb a "013" then
        match b' with
        | a' :: b'' =>
            if Ascii.eqb a' "010" then cur :: splitlines_from [] b''
            else cur :: splitlines_from [] b'
        | [] => cur :: splitlines_from [] b'
        end
      else splitlines_from (cur ++ [a]) b'
  end.

Definition splitlines (b : bytes) : list bytes := splitlines_from [] b.

(** The text of an ASCII [string], for writing examples. *)
Definition text (s : string) : unicode :=
  map N_of_ascii (list_ascii_of_string s).

End Codec.

(** ** [mail_util.py]: building and reading messages *)

Module MailUtil.
Import PyStr.

(** http://www.jebriggs.com/blog/2010/07/smtp-maximum-line-lengths/ *)
Definition MAX_MAIL_LINE_OCTETS : nat := 990.

(** *** [encode_email_part] *)

(** What [MIMEText(_text, _subtype, _charset, policy=email_policy)] is
    built from. *)
Record MIMEText := {
  _text : bytes;
  _subtype : string;
  _charset : string;
}.

(** The [for line in encoded_content.splitlines()] loop with its [break]. *)
Fixpoint line_encoding (lines : list bytes) : string :=
  match lines with
  | [] => "ascii"
  | line :: rest =>
      if (MAX_MAIL_LINE_OCTETS <? length line)%nat
      then "utf-8"   (* force base64 content-encoding to make lines shorter *)
      else line_encoding rest
  end.

(** [str.splitlines] ends a line at LF, VT, FF, CR, FS, GS, RS and NEL
    (and at the two separators U+2028 and U+2029, which a [string] cannot
    hold). *)
Definition is_linebreak (a : ascii) : bool :=
  existsb (Ascii.eqb a) ["010"; "011"; "012"; "013"; "028"; "029"; "030"; "133"]%char.

Fixpoint has_linebreak (s : string) : bool :=
  match s with
  | EmptyString => false
  | String a s' => is_linebreak a || has_linebreak s'
  end.

(** [MIMEText(_text, _subtype, _charset, policy=email_policy)]: the
    constructor writes the header [Content-Type: text/<_subtype>;
    charset="..."], and the policy refuses a header value that falls into
    several lines.  With the charset parameter behind it, the value does so
    as soon as [_subtype] holds a line end. *)
Definition new_MIMEText (text : bytes) (subtype charset : string) : result MIMEText :=
  if has_linebreak subtype
  then Raise (ValueError
                "Header values may not contain linefeed or carriage return characters")
  else Return {| _text := text; _subtype := subtype; _charset := charset |}.

Definition encode_email_part (content : unicode) (content_type : string)
  : result MIMEText :=
  match Codec.encode_ascii content with
  | Return encoded_content =>
      (* simplest email - plain ascii *)
      let encoding := line_encoding (Codec.splitlines encoded_content) in
      new_MIMEText encoded_content content_type encoding
  | Raise _ =>
      (* utf8 will get base64 encoded so we only do it if ascii fails *)
      (encoded_content <- Codec.encode_utf8 content ;;
       new_MIMEText encoded_content content_type "utf-8")%py
  end.


(** *** [_parse_message_id] *)

(** [RE_MESSAGE_ID]: a ['<'], then optionally (greedy, not captured) any
    run of characters other than ['>'] followed by a ['/'], then group 1,
    a greedy run of characters other than ['>'], then a ['>'].  A match
    starts at a ['<'] and ends at the first ['>'] after it (the runs also
    take ['<']); the optional part swallows everything up to the last
    ['/'] between the two, so group 1 is what follows that ['/'], or
    everything between the brackets when there is none. *)
Definition group1 (inner : string) : string :=
  List.last (split "/" inner) EmptyString.

(** [[mo.group(1) for mo in RE_MESSAGE_ID.finditer(s)]]: one pass over
    [s]; [inside] is [None] before a ['<'] and otherwise holds what was
    read since the ['<'] that opened the match under way.  A ['<'] with
    no ['>'] after it matches nothing. *)
Fixpoint finditer_group1 (inside : option string) (s : string) : list string :=
  match s with
  | EmptyString => []
  | String a s' =>
      match inside with
      | None =>
          if Ascii.eqb a "<" then finditer_group1 (Some EmptyString) s'
          else finditer_group1 None s'
      | Some inner =>
          if Ascii.eqb a ">" then group1 inner :: finditer_group1 None s'
          else finditer_group1 (Some (inner +:+ String a EmptyString)) s'
      end
  end.

Definition _parse_message_id (msgid : option string) : list string :=
  match msgid with
  | None => []
  | Some msgid => finditer_group1 None msgid
  end.

(** *** [Header] and [AddrHeader] *)

(** [Header(text, *more_text)] on [str] arguments. *)
Definition Header (text : string) (more_text : list string) : string :=
  fold_left (fun hdr_text m => hdr_text +:+ " " +:+ m) more_text text.

Definition AddrHeader (fromaddr : string) : string :=
  match rsplit1 " <" fromaddr with
  | [name; addr] =>
      let addr := "<" +:+ addr in   (* restore the char we just split off *)
      let addrheader := Header name [addr] in
      if startswith "=?" addrheader then   (* encoding escape chars *)
        (* then quoting the name is no longer necessary *)
        Header (strip "034"%char name) [addr]   (* the double quote *)
      else addrheader
  | _ => Header fromaddr []
  end.

(** *** [parse_address] *)

Section parse_address.
(** Projects and tool instances live in the database; the configured
    mail domains, [h.find_project] and [project.app_instance] are taken
    as they are. *)
Context {Project App : Type}.
Context (common_suffix : string) (common_suffix_alt : list string).
Context (find_project : string → option Project * list string).
Context (app_instance : Project → string → option App).

(** The [for suffix in ...] loop: the domain without the first suffix
    it ends with, [None] when the loop runs into its [else]. *)
Fixpoint remove_common_suffix (suffixes : list string) (domain : string)
  : option string :=
  match suffixes with
  | [] => None
  | suffix :: rest =>
      if endswith suffix domain
      then Some (take_to_neg (String.length suffix) domain)
      else remove_common_suffix rest domain
  end.

Definition parse_address (addr : string) : result (string * Project * App) :=
  match split "@" addr with
  | [userpart; domain] =>
      (* remove common domain suffix *)
      match remove_common_suffix (common_suffix :: common_suffix_alt) domain with
      | None => Raise (AddressException ("Unknown domain: " +:+ domain))
      | Some domain =>
          let path := join "/" (rev (split "." domain)) in
          let '(project, mount_point) := find_project ("/" +:+ path) in
          match project with
          | None => Raise (AddressException ("Unknown project: " +:+ domain))
          | Some project =>
              match mount_point with
              | [mount_point_0] =>
                  match app_instance project mount_point_0 with
                  | None => Raise (AddressException ("Unknown tool: " +:+ domain))
                  | Some app => Return (userpart, project, app)
                  end
              | _ => Raise (AddressException ("Unknown tool: " +:+ domain))
              end
          end
      end
  | _ => Raise (ValueError "unpack")
  end.
End parse_address.

(** *** [parse_message] *)

(** Python values that end up in the dictionary [parse_message] returns. *)
Inductive value :=
| VNone
| VBool (b : bool)
| VStr (s : string)
| VText (t : unicode)
| VBytes (b : bytes)
| VList (l : list value)
| VDict (d : gmap string value).

(** A parsed [email.message.Message]: its header list, what
    [get_content_type()] and [get_filename(None)] give, and either the
    body with its transfer encoding undone ([get_payload(decode=True)] of
    a message that is not multipart) or the list of sub-messages. *)
Inductive Message :=
| Msg (_headers : list (string * string)) (content_type : string)
      (filename : option string) (_payload : bytes + list Message).

Definition _headers (m : Message) : list (string * string) :=
  match m with Msg h _ _ _ => h end.
Definition get_content_type (m : Message) : string :=
  match m with Msg _ t _ _ => t end.
Definition get_filename (m : Message) : option string :=
  match m with Msg _ _ f _ => f end.
Definition is_multipart (m : Message) : bool :=
  match m with Msg _ _ _ (inr _) => true | _ => false end.
(** [get_payload(decode=True)] *)
Definition get_payload_decoded (m : Message) : value :=
  match m with
  | Msg _ _ _ (inl b) => VBytes b
  | Msg _ _ _ (inr _) => VNone
  end.
Definition get_content_maintype (m : Message) : string :=
  match split "/" (get_content_type m) with
  | maintype :: _ => maintype
  | [] => EmptyString
  end.

(** [msg.walk()]: the message itself, then its sub-messages, depth first. *)
Fixpoint walk (m : Message) : list Message :=
  m :: match m with
       | Msg _ _ _ (inr subparts) =>
           (fix walk_all (l : list Message) : list Message :=
              match l with
              | [] => []
              | sub :: l' => walk sub ++ walk_all l'
              end) subparts
       | Msg _ _ _ (inl _) => []
       end.

Definition lower_char (a : ascii) : ascii :=
  let n := nat_of_ascii a in
  if (65 <=? n)%nat && (n <=? 90)%nat then ascii_of_nat (n + 32) else a.
Fixpoint lower (s : string) : string :=
  match s with
  | EmptyString => EmptyString
  | String a s' => String (lower_char a) (lower s')
  end.

(** [msg.get(name)]: the first header of that name, whatever its case. *)
Fixpoint get_header (hs : list (string * string)) (name : string) : option string :=
  match hs with
  | [] => None
  | (k, v) :: hs' =>
      if String.eqb (lower k) (lower name) then Some v else get_header hs' name
  end.

(** [dict(msg)]: [msg[k]] under every key [k] of [msg.keys()].  A value
    with octets beyond ASCII is an [email.header.Header] object in Python;
    it stands here as the [VStr] of its octets, which like the object is
    equal to no ASCII text. *)
Definition dict_of_message (m : Message) : gmap string value :=
  fold_left
    (fun d k =>
       match get_header (_headers m) k with
       | Some v => <[k := VStr v]> d
       | None => <[k := VNone]> d
       end)
    (map fst (_headers m)) ∅.

(** [six.ensure_text(s)]: [bytes] are decoded as UTF-8 (strict), text is
    returned as it is, anything else is a [TypeError]. *)
Definition ensure_text (s : value) : result value :=
  match s with
  | VBytes b => (t <- Codec.decode_utf8 b ;; Return (VText t))%py
  | VText t => Return (VText t)
  | VStr t => Return (VStr t)
  | _ => Raise (TypeError "not expecting type")
  end.

(** A header value is kept as the octets of its line: an octet above 127
    is what [surrogateescape] leaves of a non-ASCII octet of the mail. *)
Fixpoint is_ascii (s : string) : bool :=
  match s with
  | EmptyString => true
  | String a s' => (nat_of_ascii a <? 128)%nat && is_ascii s'
  end.

(** What [msg.get(name)] gives for a message read by [BytesParser()]
    (policy [compat32]): [None], the value as a [str], or, for a value
    with non-ASCII octets, an [email.header.Header] object. *)
Inductive fetched :=
| FNone
| FStr (s : string)
| FHeader (raw : string).

Definition msg_get (hs : list (string * string)) (name : string) : fetched :=
  match get_header hs name with
  | None => FNone
  | Some v => if is_ascii v then FStr v else FHeader v
  end.

(** [_parse_message_id(msg.get(name))]: [RE_MESSAGE_ID.finditer] takes [None]
    (handled before it) and [str] only. *)
Definition _parse_message_id_of (msgid : fetched) : result (list string) :=
  match msgid with
  | FNone => Return (_parse_message_id None)
  | FStr s => Return (_parse_message_id (Some s))
  | FHeader _ => Raise (TypeError "expected string or bytes-like object, got 'Header'")
  end.

Definition ids (l : list string) : value := VList (map VStr l).
Definition opt_str (o : option string) : value :=
  match o with Some s => VStr s | None => VNone end.

Section parse_message.
(** [email.parser.BytesParser().parsebytes], which never raises, and
    [h.gen_message_id()]. *)
Context (parsebytes : bytes → Message).
Context (gen_message_id : string).

(** The dictionary built for one part of a multipart message. *)
Definition dpart_of (message_id : string) (in_reply_to references : list string)
    (part : Message) : result value :=
  let dpart : gmap string value :=
    <["payload" := get_payload_decoded part]>
    (<["filename" := opt_str (get_filename part)]>
    (<["content_type" := VStr (get_content_type part)]>
    (<["references" := ids references]>
    (<["in_reply_to" := ids in_reply_to]>
    (<["message_id" := VStr message_id]>
    (<["headers" := VDict (dict_of_message part)]> ∅)))))) in
  (* payload is sometimes already unicode (due to being saved in mongo?) *)
  if String.eqb (get_content_maintype part) "text" then
    (payload <- ensure_text (get_payload_decoded part) ;;
     Return (VDict (<["payload" := payload]> dpart)))%py
  else Return (VDict dpart).

(** The [for part in msg.walk()] loop, appending to [result['parts']]. *)
Fixpoint parts_of (message_id : string) (in_reply_to references : list string)
    (parts : list Message) : result (list value) :=
  match parts with
  | [] => Return []
  | part :: rest =>
      (dpart <- dpart_of message_id in_reply_to references part ;;
       dparts <- parts_of message_id in_reply_to references rest ;;
       Return (dpart :: dparts))%py
  end.

Definition parse_message (data : unicode) : result (gmap string value) :=
  (raw <- Codec.encode_utf8 data ;;
   let msg := parsebytes raw in
   (* Extract relevant data *)
   let multipart := is_multipart msg in
   message_ids <- _parse_message_id_of (msg_get (_headers msg) "Message-ID") ;;
   in_reply_to <- _parse_message_id_of (msg_get (_headers msg) "In-Reply-To") ;;
   references <- _parse_message_id_of (msg_get (_headers msg) "References") ;;
   let message_id :=
     match message_ids with
     | [] => gen_message_id
     | first :: _ => first
     end in
   let result : gmap string value :=
     <["message_id" := VStr message_id]>
     (<["references" := ids references]>
     (<["in_reply_to" := ids in_reply_to]>
     (<["headers" := VDict (dict_of_message msg)]>
     (<["multipart" := VBool multipart]> ∅)))) in
   if multipart then
     parts <- parts_of message_id in_reply_to references (walk msg) ;;
     Return (<["parts" := VList parts]> result)
   else
     let payload := get_payload_decoded msg in
     (* payload is sometimes already unicode (due to being saved in mongo?) *)
     if String.eqb (get_content_maintype msg) "text" then
       payload <- ensure_text payload ;;
       Return (<["payload" := payload]> result)
     else Return (<["payload" := payload]> result))%py.
End parse_message.

(** *** [SMTPClient.sendmail] *)

(** An [EmailMessage] as [sendmail] sees it: the header list that
    [message[name] = value] appends to, and the rest of the message. *)
Record EmailMessage := {
  msg_headers : list (string * string);
  msg_body : string;
}.

Definition opt_truthy (o : option string) : bool :=
  match o with Some s => truthy s | None => false end.

Section sendmail.
Import SMTP.
(** From the configuration and the libraries: [g.noreply],
    [config.return_path], the formencode e-mail validator behind
    [isvalid], [h.really_unicode], [email.utils.formatdate()] and
    [message.as_string(maxheaderlen=n)]. *)
Context (noreply return_path : string).
Context (isvalid : string → bool).
Context (really_unicode : string → string).
Context (formatdate : string).
Context (as_string : Z → EmailMessage → string).
(** From the policy of the message ([email_policy], which is
    [email.policy.SMTP + email.policy.strict]) and its header registry:
    [policy.header_max_count(name)], and [policy.header_store_parse(name,
    value)], which raises or gives the text of the header as it is stored. *)
Context (header_max_count : string → option nat).
Context (header_store_parse : string → string → result string).

(** [message[name] = value], which is
    [email.message.Message.__setitem__]: a header that may occur
    [max_count] times and does so already is refused, and what is appended
    is what the policy makes of the value. *)
Definition set_header (name value : string) (message : EmailMessage)
  : result EmailMessage :=
  let found :=
    length (List.filter (fun h => String.eqb (lower h.1) (lower name))
              (msg_headers message)) in
  let append :=
    (stored <- header_store_parse name value ;;
     Return {| msg_headers := msg_headers message ++ [(name, stored)];
               msg_body := msg_body message |})%py in
  match header_max_count name with
  | Some ((S _) as max_count) =>
      if (max_count <=? found)%nat
      then Raise (ValueError ("There may be at most " +:+ pretty max_count +:+ " " +:+ name
                                +:+ " headers in a message"))
      else append
  | _ => append
  end.

Definition _parse_smtp_addr (addr : string) : string :=
  match _parse_message_id (Some addr) with
  | addrs_0 :: _ =>
      if truthy addrs_0 then addrs_0
      else if contains_char "@" addr then addr else noreply
  | [] => if contains_char "@" addr then addr else noreply
  end.

(** [max(len(h[0]) for h in message._headers)] *)
Definition longest_header_len (message : EmailMessage) : Z :=
  fold_right Z.max 0%Z
    (map (fun h => Z.of_nat (String.length h.1)) (msg_headers message)).

(** The headers [sendmail] writes, up to the point where it serialises
    the message.  [in_reply_to] is a string or, wrongly, a list;
    [references] is given as a list.  The result is the message and the
    recipient list, both of which the caller shares with [sendmail]. *)
Definition add_headers (addrs : list string) (fromaddr reply_to subject message_id : string)
    (in_reply_to : option (string + list string)) (message : EmailMessage)
    (sender : option string) (references : list string) (cc to : option string)
  : result (EmailMessage * list string) :=
  (message <-
     match to with
     | Some t => if truthy t then set_header "To" (AddrHeader (really_unicode t)) message
                 else set_header "To" (AddrHeader reply_to) message
     | None => set_header "To" (AddrHeader reply_to) message
     end ;;
   message <- set_header "From" (AddrHeader fromaddr) message ;;
   message <- set_header "Reply-To" (AddrHeader reply_to) message ;;
   message <- set_header "Subject" (Header subject []) message ;;
   message <- set_header "Message-ID" (Header ("<" +:+ message_id +:+ ">") []) message ;;
   message <- set_header "Date" formatdate message ;;
   message <-
     match sender with
     | Some s => if truthy s then set_header "Sender" (AddrHeader s) message
                 else Return message
     | None => Return message
     end ;;
   message_addrs <-
     match cc with
     | Some c => if truthy c
                 then (message <- set_header "CC" (AddrHeader c) message ;;
                       Return (message, addrs ++ [c]))
                 else Return (message, addrs)
     | None => Return (message, addrs)
     end ;;
   let '(message, addrs) := message_addrs in
   message <-
     match in_reply_to with
     | None => Return message
     | Some (inr []) => Return message
     | Some (inr (_ :: _)) => Raise (TypeError "Only strings are supported now, not lists")
     | Some (inl irt) =>
         if truthy irt then
           message <- set_header "In-Reply-To" (Header ("<" +:+ irt +:+ ">") []) message ;;
           match references with
           | [] =>
               match get_header (msg_headers message) "In-Reply-To" with
               | Some v => set_header "References" v message
               | None => Return message
               end
           | _ :: _ => Return message
           end
         else Return message
     end ;;
   message <-
     match map (fun r => "<" +:+ r +:+ ">") references with
     | [] => Return message
     | r :: rs => set_header "References" (Header r rs) message
     end ;;
   Return (message, addrs))%py.

Definition sendmail (srv : server) (addrs : list string)
    (fromaddr reply_to subject message_id : string)
    (in_reply_to : option (string + list string)) (message : EmailMessage)
    (sender : option string) (references : list string) (cc to : option string)
  : method (EmailMessage * list string) :=
  match addrs with
  | [] => ret (message, addrs)
  | _ :: _ =>
      match add_headers addrs fromaddr reply_to subject message_id in_reply_to
              message sender references cc to with
      | Raise e => raise e
      | Return (message, addrs) =>
          (* the longest 'Header-Name: ' prefix is taken off the line length *)
          let max_header_len :=
            (Z.of_nat MAX_MAIL_LINE_OCTETS - (2 + longest_header_len message))%Z in
          let content := as_string max_header_len message in
          let smtp_addrs := List.filter isvalid (map _parse_smtp_addr addrs) in
          match smtp_addrs with
          | [] => ret (message, addrs)   (* No valid addrs, so not sending mail *)
          | _ :: _ =>
              (send_raw srv return_path smtp_addrs content ;;;
               ret (message, addrs))%smtp
          end
      end
  end.
End sendmail.

End MailUtil.

(** ** [forgetracker/search.py]: [get_facets] *)

Module Search.
Import PyStr.

(** What the index stores in a field and returns in a facet list: text
    or a number. *)
Inductive solr_value :=
| SStr (s : string)
| SInt (n : Z).

#[global] Instance solr_value_eq_dec : EqDecision solr_value.
Proof. solve_decision. Defined.

(** [[(values[i], values[i+1]) for i in xrange(0, len(values), 2)]]:
    an odd list runs out of range at its last element. *)
Fixpoint pair_up (values : list solr_value) : result (list (solr_value * solr_value)) :=
  match values with
  | [] => Return []
  | [_] => Raise IndexError
  | v :: n :: rest => (ps <- pair_up rest ;; Return ((v, n) :: ps))%py
  end.

(** [facet_name.rsplit('_s', 1)[0]] *)
Definition field_name_of (facet_name : string) : string :=
  match rsplit1 "_s" facet_name with
  | head :: _ => head
  | [] => EmptyString
  end.

Section get_facets.
(** A ticket is known by [ticket.index()], the dictionary of its
    indexed fields. *)
Context {Ticket : Type}.
Context (index : Ticket → gmap string solr_value).

(** The [for ticket in final_result] loop. *)
Fixpoint available_values (facet_name : string) (final_result : list Ticket)
  : list solr_value :=
  match final_result with
  | [] => []
  | ticket :: rest =>
      let solr_data := index ticket in
      match solr_data !! facet_name with
      | Some v => v :: available_values facet_name rest
      | None => available_values facet_name rest
      end
  end.

(** The body of the loop over [facet_fields], whose items are given in
    the order in which the dictionary is iterated.  [final_result] is
    [None], or the list of tickets; [res] is the dictionary [result]
    under construction. *)
Fixpoint facets_loop (items : list (string * list solr_value))
    (final_result : option (list Ticket))
    (res : gmap string (list (solr_value * solr_value)))
  : result (gmap string (list (solr_value * solr_value))) :=
  match items with
  | [] => Return res
  | (facet_name, values) :: rest =>
      let field_name := field_name_of facet_name in
      (values <- pair_up values ;;
       let values :=
         match final_result with
         | Some ((_ :: _) as tickets) =>
             let available := available_values facet_name tickets in
             List.filter (fun v => bool_decide (v.1 ∈ available)) values
         | _ => values
         end in
       facets_loop rest final_result (<[field_name := values]> res))%py
  end.

(** [solr_hit] is [None] or the items of [solr_hit.facets['facet_fields']]. *)
Definition get_facets (solr_hit : option (list (string * list solr_value)))
    (final_result : option (list Ticket))
  : result (gmap string (list (solr_value * solr_value))) :=
  match solr_hit with
  | None => Return ∅
  | Some facet_fields => facets_loop facet_fields final_result ∅
  end.
End get_facets.

End Search.

(** ** [app.py]: the permission form of [DefaultAdminController] *)

Module Admin.
Import PyStr.

Section update.
(** Role ids are [bson.ObjectId]s: [ObjectId(s)] parses a string
    ([None] here when it raises [InvalidId]), [str(oid)] prints one.  The
    role documents are in the database; [role_name] gives the [name]
    of the role [model.ProjectRole.query.get(_id=oid)], if there is
    one. *)
Context {oid : Type}.
Context (ObjectId : string → option oid).
Context (str : oid → string).
Context (role_name : oid → option string).

(** An access-control entry, [model.ACE]. *)
Inductive access_kind := ALLOW | DENY.
Record ACE := {
  access : access_kind;
  role_id : oid;
  permission : string;
}.
Definition ACE_allow (role_id : oid) (permission : string) : ACE :=
  {| access := ALLOW; role_id := role_id; permission := permission |}.

(** One permission card of the posted form, as [h.vardec] decodes it:
    a dictionary with [id] and, optionally, [new] and [value], each of
    which is one string or a list of strings. *)
Record card_args := {
  id : option string;
  new : option (string + list string);
  value : option (string + list string);
}.

(** [args.get(key, [])] followed by the [isinstance(..., basestring)]
    wrapping. *)
Definition id_list (field : option (string + list string)) : list string :=
  match field with
  | None => []
  | Some (inl one) => [one]
  | Some (inr several) => several
  end.

(** What [update] writes: [self.app.config.acl] and the audit log. *)
Record state := {
  acl : list ACE;
  audit_log : list string;
}.

Fixpoint map_result {A B} (f : A → result B) (l : list A) : result (list B) :=
  match l with
  | [] => Return []
  | x :: l' => (y <- f x ;; ys <- map_result f l' ;; Return (y :: ys))%py
  end.

Definition parse_oid (id : string) : result oid :=
  match ObjectId id with
  | Some r => Return r
  | None => Raise (InvalidId id)
  end.

(** [model.ProjectRole.query.get(_id=ObjectId(id)).name] *)
Definition name_of (id : string) : result string :=
  (r <- parse_oid id ;;
   match role_name r with
   | Some name => Return name
   | None => Raise AttributeError
   end)%py.

(** The [for acl in old_acl] loop. *)
Definition del_group_ids_of (old_acl : list ACE) (perm : string)
    (group_ids : list string) : list string :=
  map (fun ace => str (role_id ace))
    (List.filter
       (fun ace => String.eqb (permission ace) perm
                   && negb (bool_decide (str (role_id ace) ∈ group_ids)))
       old_acl).

Definition audit_message (perm : string) (before now : list string)
    (mount_point : string) : string :=
  "updated " +:+ String "034" perm +:+ String "034" " permission: "
    +:+ String "034" (join ", " before) +:+ String "034" " => "
    +:+ String "034" (join ", " now) +:+ String "034" " for " +:+ mount_point.

(** The body of [for args in card]; an exception leaves the state as it
    was when it was raised. *)
Definition update_card (old_acl : list ACE) (mount_point : string)
    (args : card_args) (st : state) : result unit * state :=
  match id args with
  | None => (Raise KeyError, st)
  | Some perm =>
      let new_group_ids := id_list (new args) in
      let group_ids := id_list (value args) in
      let del_group_ids := del_group_ids_of old_acl perm group_ids in
      let logged :=
        match new_group_ids, del_group_ids with
        | [], [] => Return (audit_log st)
        | _, _ =>
            (before <- map_result name_of (group_ids ++ del_group_ids) ;;
             now <- map_result name_of (group_ids ++ new_group_ids) ;;
             Return (audit_log st ++ [audit_message perm before now mount_point]))%py
        end in
      match logged with
      | Raise e => (Raise e, st)
      | Return log =>
          let st := {| acl := acl st; audit_log := log |} in
          match map_result parse_oid (group_ids ++ new_group_ids) with
          | Raise e => (Raise e, st)
          | Return role_ids =>
              (Return tt,
               {| acl := acl st ++ map (fun r => ACE_allow r perm) role_ids;
                  audit_log := audit_log st |})
          end
      end
  end.

Fixpoint update_cards (old_acl : list ACE) (mount_point : string)
    (cards : list card_args) (st : state) : result unit * state :=
  match cards with
  | [] => (Return tt, st)
  | args :: rest =>
      match update_card old_acl mount_point args st with
      | (Return _, st') => update_cards old_acl mount_point rest st'
      | (Raise e, st') => (Raise e, st')
      end
  end.

(** [DefaultAdminController.update]; [card] is [None] when the form
    held no card.  The method ends in [redirect(request.referer)], which
    leaves by raising [HTTPFound]. *)
Definition update (mount_point referer : string) (card : option (list card_args))
    (st : state) : result unit * state :=
  let old_acl := acl st in
  let st := {| acl := []; audit_log := audit_log st |} in
  match card with
  | None => (Raise (TypeError "'NoneType' object is not iterable"), st)
  | Some cards =>
      match update_cards old_acl mount_point cards st with
      | (Return _, st') => (Raise (HTTPFound referer), st')
      | (Raise e, st') => (Raise e, st')
      end
  end.
End update.

End Admin.

(** ** [app.py]: [SitemapEntry.extend] *)

Module Sitemap.

(** [SitemapEntry] objects are mutable and shared: [extend] appends the
    very objects of its argument to [self.children] and later calls mutate
    them in place.  So the objects live in a store, a child is the address
    of an object, and [extend] transforms the store. *)
Abbreviation loc := nat.

(** The attributes [extend] reads ([url] is [None] or a byte string). *)
Record SitemapEntry := {
  label : string;
  url : option string;
  children : list loc;
}.

(** [dict((ch.label, ch) for ch in children)]: a later child replaces an
    earlier one with the same label. *)
Definition child_index_of (h : gmap loc SitemapEntry) (children : list loc)
  : gmap string loc :=
  fold_left
    (fun index ch =>
       match h !! ch with
       | Some c => <[label c := ch]> index
       | None => index
       end)
    children ∅.

(** The list object that [for e in sitemap_entries] iterates over: a list of
    the caller's, or the [children] list of an entry (as in the recursive
    call [match.extend(e.children)]), which is read anew at every step, as
    Python's list iterator does. *)
Inductive source :=
| Given (entries : list loc)
| ChildrenOf (e : loc).

Definition read (h : gmap loc SitemapEntry) (src : source) : list loc :=
  match src with
  | Given entries => entries
  | ChildrenOf e =>
      match h !! e with
      | Some entry => children entry
      | None => []
      end
  end.

Inductive outcome :=
| Done (h : gmap loc SitemapEntry)
| OutOfFuel
| Dangling.

(** The loop of [extend], at position [i] of the list it iterates over,
    with the dictionary [child_index] as it stands.  Every step and every
    call costs one unit of [fuel]. *)
Fixpoint extend_loop (fuel : nat) (h : gmap loc SitemapEntry) (self : loc)
    (sitemap_entries : source) (child_index : gmap string loc) (i : nat) : outcome :=
  match fuel with
  | O => OutOfFuel
  | S fuel' =>
      match read h sitemap_entries !! i with
      | None => Done h
      | Some e =>
          match h !! e, h !! self with
          | Some entry, Some me =>
              (* self.children.append(e); child_index[lbl] = e *)
              let appended :=
                extend_loop fuel'
                  (<[self := {| label := label me; url := url me;
                                children := children me ++ [e] |}]> h)
                  self sitemap_entries (<[label entry := e]> child_index) (S i) in
              match child_index !! label entry with
              | Some m =>
                  match h !! m with
                  | Some found =>
                      if decide (url found = url entry) then
                        (* match.extend(e.children) *)
                        match extend_loop fuel' h m (ChildrenOf e)
                                (child_index_of h (children found)) 0 with
                        | Done h' => extend_loop fuel' h' self sitemap_entries child_index (S i)
                        | failed => failed
                        end
                      else appended
                  | None => Dangling
                  end
              | None => appended
              end
          | _, _ => Dangling
          end
      end
  end.

(** [self.extend(sitemap_entries)] *)
Definition extend (fuel : nat) (h : gmap loc SitemapEntry) (self : loc)
    (sitemap_entries : source) : outcome :=
  match h !! self with
  | Some me => extend_loop fuel h self sitemap_entries (child_index_of h (children me)) 0
  | None => Dangling
  end.

End Sitemap.

(** ** [mail_util.py]: [is_autoreply] *)

Module Autoreply.
Import PyStr MailUtil.

(** [v == s] for the value [v] of [h.get(name)] and a string [s]: only a
    string equals a string. *)
Definition eq_str (v : option value) (s : string) : bool :=
  match v with
  | Some (VStr t) => String.eqb t s
  | Some (VText t) => bool_decide (t = Codec.text s)
  | _ => false
  end.

(** [v is not None] *)
Definition is_not_None (v : option value) : bool :=
  match v with
  | None | Some VNone => false
  | Some _ => true
  end.

(** [is_autoreply(msg)] for a dictionary [msg]: [msg['headers']] raises
    [KeyError] when the key is missing, and [.get] is an attribute of
    dictionaries only. *)
Definition is_autoreply (msg : gmap string value) : result bool :=
  match msg !! "headers" with
  | None => Raise KeyError
  | Some (VDict h) =>
      Return
        (eq_str (h !! "Auto-Submitted") "auto-replied"
         || eq_str (h !! "X-POST-MessageClass") "9; Autoresponder"
         || eq_str (h !! "Delivered-To") "Autoresponder"
         || eq_str (h !! "X-FC-MachineGenerated") "true"
         || is_not_None (h !! "X-AutoReply-From")
         || existsb (eq_str (h !! "X-Autogenerated"))
              ["Forward"; "Group"; "Letter"; "Mirror"; "Redirect"; "Reply"]
         || eq_str (h !! "X-Precedence") "auto_reply"
         || eq_str (h !! "Return-Path") "<>")
  | Some _ => Raise AttributeError
  end.

End Autoreply.

(** ** [app.py]: the permissions page and the permission descriptions *)

Module Permissions.
Import Admin.

(** The [permissions] entry of what [DefaultAdminController.permissions]
    hands to its template: a list of role ids for each permission of the
    application, filled from the ALLOW entries of the ACL.  An entry for a
    permission that the application does not name runs into the [KeyError]
    and is passed over. *)
Definition permissions {oid : Type} (app_permissions : list string)
    (acl : list (@ACE oid)) : gmap string (list oid) :=
  let permissions : gmap string (list oid) :=
    fold_left (fun d p => <[p := []]> d) app_permissions ∅ in
  fold_left
    (fun permissions ace =>
       match access ace with
       | ALLOW =>
           match permissions !! permission ace with
           | Some roles => <[permission ace := roles ++ [role_id ace]]> permissions
           | None => permissions   (* old, unknown permission *)
           end
       | DENY => permissions
       end)
    acl permissions.

Section describe_permission.
(** A class is known by its [__mro__] (the class itself first, [object]
    last) and by the [permissions_desc] it defines itself, if it defines
    one. *)
Context {class : Type}.
Context (__mro__ : class → list class).
Context (own_permissions_desc : class → option (gmap string string)).

(** [getattr(t, 'permissions_desc', {})]: the attribute is looked up
    along the MRO of [t]. *)
Fixpoint lookup_permissions_desc (mro : list class) : gmap string string :=
  match mro with
  | [] => ∅
  | t :: mro' =>
      match own_permissions_desc t with
      | Some desc => desc
      | None => lookup_permissions_desc mro'
      end
  end.

Definition getattr_permissions_desc (t : class) : gmap string string :=
  lookup_permissions_desc (__mro__ t).

(** [Application.describe_permission]; [dict(d, **new)] is [d] updated
    with [new]. *)
Definition describe_permission (cls : class) (permission : string) : string :=
  let d :=
    fold_left (fun d t => getattr_permissions_desc t ∪ d) (rev (__mro__ cls)) ∅ in
  default EmptyString (d !! permission).
End describe_permission.

End Permissions.

(* ===================================================================== *)
(** * Properties *)
(* ===================================================================== *)

Module SMTPFacts.
Import SMTP.

(** The decision the two [except] clauses of [send_raw] take. *)
Definition retries (e : exn) : bool :=
  is_disconnect_or_connect_error e
  || match e with
     | SMTPResponseException _ c => (400 <=? c)%Z && (c <? 500)%Z
     | _ => false
     end.

Lemma retries_transient e : retries e = true ↔ transient e.
Proof.
  unfold retries, transient. split.
  - destruct e as [|k c| | | | | | | | | | | |]; simpl; try discriminate; auto.
    destruct k; simpl; intros H; try (right; left; eauto; fail);
      apply andb_prop in H as [H1 H2]; right; right;
      eexists _, c; (split; [reflexivity | lia]).
  - intros [-> | [[c ->] | (k & c & -> & Hc)]]; simpl; auto.
    destruct k; simpl; auto; apply andb_true_intro; split; lia.
Qed.

Lemma ensure_client_connected srv self s1 :
  ensure_client srv self = (Return tt, s1) → ∃ c, _client s1 = Some c.
Proof.
  unfold ensure_client, _connect, bind, request, ret.
  destruct (_client self) as [c|] eqn:Hc.
  - intros [= <-]. eauto.
  - destruct (srv _); intros [= <-]; simpl; eauto.
Qed.

(** Where [ensure_client] left the object, [send_raw] is one request,
    the decision of the [except] clauses and, on a retry, one more
    connection and one more request. *)
Lemma send_raw_from srv f a c self s1 :
  ensure_client srv self = (Return tt, s1) →
  let ev := Sendmail f a c in
  let sent := {| _client := _client s1; wire := wire s1 ++ [ev] |} in
  send_raw srv f a c self =
    match srv (wire s1 ++ [ev]) with
    | None => (Return tt, sent)
    | Some e =>
        if retries e then (_connect srv ;;; client_sendmail srv f a c)%smtp sent
        else (Raise e, sent)
    end.
Proof.
  intros H1 ev sent. destruct (ensure_client_connected _ _ _ H1) as [k Hk].
  unfold send_raw, bind, try_except. rewrite H1.
  destruct s1 as [cl w]; simpl in Hk; subst cl; subst sent.
  unfold client_sendmail at 1, request at 1. cbn [_client wire]. fold ev.
  destruct (srv (w ++ [ev])) as [e|]; [|reflexivity].
  unfold retries, ret, raise.
  destruct (is_disconnect_or_connect_error e) eqn:Hd; simpl; [reflexivity|].
  destruct e; simpl; try reflexivity.
  destruct (_ && _); reflexivity.
Qed.

Lemma reconnect_resend srv f a c s :
  let ev := Sendmail f a c in
  (_connect srv ;;; client_sendmail srv f a c)%smtp s =
    match srv (wire s ++ [Connect]) with
    | Some e' => (Raise e', {| _client := _client s; wire := wire s ++ [Connect] |})
    | None =>
        let w := (wire s ++ [Connect]) ++ [ev] in
        (match srv w with None => Return tt | Some e' => Raise e' end,
         {| _client := Some (length (wire s ++ [Connect])); wire := w |})
    end.
Proof.
  intros ev. unfold bind, _connect, bind, request, client_sendmail, request. simpl.
  destruct (srv (wire s ++ [Connect])); simpl; [reflexivity|].
  fold ev. destruct (srv _); reflexivity.
Qed.

Lemma deliveries_app w1 w2 : deliveries (w1 ++ w2) = deliveries w1 + deliveries w2.
Proof. unfold deliveries. by rewrite List.filter_app, length_app. Qed.

Lemma connects_app w1 w2 : connects (w1 ++ w2) = connects w1 + connects w2.
Proof. unfold connects. by rewrite List.filter_app, length_app. Qed.


(** The object at the first delivery attempt, and after it. *)
Definition after (s1 : SMTPClient) (evs : list event) : SMTPClient :=
  {| _client := _client s1; wire := wire s1 ++ evs |}.

(** C1, as the specification words it: after a transient failure of the
    first attempt the same message always goes out a second time. *)
Definition always_resends : Prop :=
  ∀ srv f a c self s1 e,
    ensure_client srv self = (Return tt, s1) →
    srv (wire s1 ++ [Sendmail f a c]) = Some e →
    transient e →
    wire (send_raw srv f a c self).2
    = wire s1 ++ [Sendmail f a c; Connect; Sendmail f a c].

(** A server that takes the first connection and is gone afterwards:
    every delivery finds the connection closed, every later connection is
    refused. *)
Definition server_gone : server :=
  fun w =>
    match w with
    | [Connect] => None
    | _ =>
        match last w with
        | Some (Sendmail _ _ _) => Some SMTPServerDisconnected
        | _ => Some (SMTPResponseException RConnectError 421)
        end
    end.

(** C1 (counterexample): the first attempt fails with
    [SMTPServerDisconnected], the reconnection is refused, and [send_raw]
    raises the connect error with one delivery on the wire, not two. *)
Lemma send_raw_resend_needs_reconnect :
  let self := {| _client := None; wire := [] |} in
  let msg := Sendmail "noreply@forge" ["dev@example.com"] "hello" in
  send_raw server_gone "noreply@forge" ["dev@example.com"] "hello" self
  = (Raise (SMTPResponseException RConnectError 421),
     {| _client := Some 1; wire := [Connect; msg; Connect] |})
  ∧ ¬ always_resends.
Proof.
  split; [reflexivity|].
  intros H.
  specialize (H server_gone "noreply@forge" ["dev@example.com"] "hello"
                {| _client := None; wire := [] |}
                {| _client := Some 1; wire := [Connect] |}
                SMTPServerDisconnected eq_refl eq_refl (or_introl eq_refl)).
  discriminate H.
Qed.

(** C1 (amended): when the first delivery attempt fails with a transient
    error, [send_raw] asks for a new connection; if that is granted it
    sends the same sender, recipients and content exactly once more and
    ends with the answer to that second delivery; if the reconnection
    raises, that exception reaches the caller and nothing is resent.  When
    the first attempt succeeds there is one delivery and no reconnection. *)
Theorem send_raw_retries_once srv f a c self s1 :
  ensure_client srv self = (Return tt, s1) →
  let msg := Sendmail f a c in
  let out := send_raw srv f a c self in
  (srv (wire s1 ++ [msg]) = None → out = (Return tt, after s1 [msg]))
  ∧ (∀ e, srv (wire s1 ++ [msg]) = Some e → transient e →
       (srv (wire s1 ++ [msg; Connect]) = None →
          wire out.2 = wire s1 ++ [msg; Connect; msg]
          ∧ out.1 = match srv (wire s1 ++ [msg; Connect; msg]) with
                    | None => Return tt
                    | Some e2 => Raise e2
                    end)
       ∧ (∀ e1, srv (wire s1 ++ [msg; Connect]) = Some e1 →
            out = (Raise e1, after s1 [msg; Connect]))).
Proof.
  intros H1 msg out. subst out. rewrite (send_raw_from _ _ _ _ _ _ H1). fold msg.
  split.
  - intros ->. reflexivity.
  - intros e -> Ht. apply retries_transient in Ht. rewrite Ht.
    rewrite reconnect_resend. cbn [wire _client]. fold msg.
    rewrite <- !app_assoc. cbn [app].
    split.
    + intros ->. cbn. split; reflexivity.
    + intros e1 ->. reflexivity.
Qed.

(** A server whose first delivery times out (451) and that is fine after
    the reconnection. *)
Definition server_hiccup : server :=
  fun w =>
    match w with
    | [Connect; Sendmail _ _ _] => Some (SMTPResponseException RDataError 451)
    | _ => None
    end.

Lemma send_raw_retries_once_witness :
  let self := {| _client := None; wire := [] |} in
  let msg := Sendmail "noreply@forge" ["dev@example.com"] "hello" in
  let out := send_raw server_hiccup "noreply@forge" ["dev@example.com"] "hello" self in
  wire out.2 = [Connect; msg; Connect; msg] ∧ out.1 = Return tt.
Proof.
  intros self msg out.
  destruct (send_raw_retries_once server_hiccup "noreply@forge" ["dev@example.com"]
              "hello" self {| _client := Some 1; wire := [Connect] |} eq_refl)
    as [_ H].
  destruct (H (SMTPResponseException RDataError 451) eq_refl) as [H2 _].
  - right; right. exists RDataError, 451%Z. split; [reflexivity | lia].
  - exact (H2 eq_refl).
Defined.

(** C2: when the first delivery attempt raises anything that is not
    transient (a response exception with a code outside 400..499, or any
    other exception), that exception reaches the caller and the wire ends
    with the failed delivery: no reconnection, no second attempt.  In every
    run [send_raw] makes at most two deliveries, and it makes two only
    after a transient failure of the first. *)
Theorem send_raw_no_retry srv f a c self :
  let msg := Sendmail f a c in
  let out := send_raw srv f a c self in
  (∀ s1 e, ensure_client srv self = (Return tt, s1) →
     srv (wire s1 ++ [msg]) = Some e → ¬ transient e →
     out = (Raise e, after s1 [msg]))
  ∧ deliveries (wire out.2) ≤ deliveries (wire self) + 2
  ∧ (deliveries (wire out.2) = deliveries (wire self) + 2 →
     ∃ s1 e, ensure_client srv self = (Return tt, s1)
             ∧ srv (wire s1 ++ [msg]) = Some e ∧ transient e).
Proof.
  intros msg out.
  assert (Hens : ∀ r s', ensure_client srv self = (r, s') →
                   deliveries (wire s') = deliveries (wire self)).
  { unfold ensure_client, _connect, bind, request, ret.
    destruct (_client self); [by intros ?? [= _ <-]|].
    destruct (srv _); intros ?? [= _ <-]; cbn [wire];
      rewrite deliveries_app; cbn; lia. }
  destruct (ensure_client srv self) as [[[]|e0] s1] eqn:H1.
  - pose proof (send_raw_from srv f a c self s1 H1) as Hout.
    fold msg in Hout. fold out in Hout. cbn zeta in Hout.
    specialize (Hens _ _ eq_refl).
    destruct (srv (wire s1 ++ [msg])) as [e|] eqn:Hs.
    + destruct (retries e) eqn:Hr.
      * rewrite reconnect_resend in Hout. cbn [wire _client] in Hout.
        split; [|split].
        -- intros s e' [= <-] He Hn. rewrite Hs in He. injection He as <-.
           apply retries_transient in Hr. tauto.
        -- rewrite Hout.
           destruct (srv ((wire s1 ++ [msg]) ++ [Connect])); cbn [snd wire];
             rewrite !deliveries_app; cbn; lia.
        -- intros _. exists s1, e. by rewrite retries_transient in Hr.
      * split; [|split].
        -- intros s e' [= <-] He _. rewrite Hs in He. injection He as <-.
           exact Hout.
        -- rewrite Hout. cbn [snd wire]. rewrite deliveries_app. cbn. lia.
        -- rewrite Hout. cbn [snd wire]. rewrite deliveries_app. cbn. lia.
    + split; [|split].
      * intros s e' [= <-]. congruence.
      * rewrite Hout. cbn [snd wire]. rewrite deliveries_app. cbn. lia.
      * rewrite Hout. cbn [snd wire]. rewrite deliveries_app. cbn. lia.
  - assert (out = (Raise e0, s1)) as ->.
    { subst out. unfold send_raw, bind. by rewrite H1. }
    specialize (Hens _ _ eq_refl). cbn [snd].
    split; [|split]; [intros ?? [=] | lia | lia].
Qed.

(** A server that rejects the sender for good (550). *)
Definition server_rejects : server :=
  fun w =>
    match last w with
    | Some (Sendmail _ _ _) => Some (SMTPResponseException RSenderRefused 550)
    | _ => None
    end.

Lemma send_raw_no_retry_witness :
  send_raw server_rejects "noreply@forge" ["dev@example.com"] "hello"
    {| _client := None; wire := [] |}
  = (Raise (SMTPResponseException RSenderRefused 550),
     {| _client := Some 1;
        wire := [Connect; Sendmail "noreply@forge" ["dev@example.com"] "hello"] |}).
Proof.
  destruct (send_raw_no_retry server_rejects "noreply@forge" ["dev@example.com"]
              "hello" {| _client := None; wire := [] |}) as [H _].
  apply (H {| _client := Some 1; wire := [Connect] |}
           (SMTPResponseException RSenderRefused 550) eq_refl eq_refl).
  intros [H1 | [[c H1] | (k & c & H1 & Hc)]]; try discriminate.
  injection H1 as <- <-. lia.
Defined.

End SMTPFacts.

(** ** [mail_util.py]: [SMTPClient.sendmail] *)

Module SendmailFacts.
Import PyStr MailUtil SMTP SMTPFacts.

Lemma ensure_client_wire srv self r s1 :
  ensure_client srv self = (r, s1) →
  wire s1 = wire self ∨ wire s1 = wire self ++ [Connect].
Proof.
  unfold ensure_client, _connect, bind, request, ret.
  destruct (_client self); [intros [= _ <-]; by left|].
  destruct (srv _); intros [= _ <-]; by right.
Qed.

(** Everything [send_raw] puts on the wire is a connection or a delivery
    of the very message it was given. *)
Lemma send_raw_wire srv f a c self :
  ∃ evs, wire (send_raw srv f a c self).2 = wire self ++ evs
         ∧ Forall (fun ev => ev = Connect ∨ ev = Sendmail f a c) evs.
Proof.
  destruct (ensure_client srv self) as [[[]|e0] s1] eqn:H1.
  - rewrite (send_raw_from _ _ _ _ _ _ H1). cbn zeta.
    assert (∃ evs0, wire s1 = wire self ++ evs0
                    ∧ Forall (fun ev => ev = Connect ∨ ev = Sendmail f a c) evs0)
      as (evs0 & Hw & Hevs0).
    { destruct (ensure_client_wire _ _ _ _ H1) as [-> | ->].
      - exists []. by rewrite app_nil_r.
      - exists [Connect]. split; [done|]. repeat constructor. }
    assert (Hc : ∀ ev, ev = Connect ∨ ev = Sendmail f a c →
                   Forall (fun ev => ev = Connect ∨ ev = Sendmail f a c) [ev])
      by (intros; by constructor).
    destruct (srv (wire s1 ++ [Sendmail f a c])) as [e|].
    + destruct (retries e).
      * rewrite reconnect_resend. cbn [wire _client].
        destruct (srv ((wire s1 ++ _) ++ [Connect])); cbn [snd wire]; rewrite Hw.
        -- exists (evs0 ++ [Sendmail f a c] ++ [Connect]).
           rewrite !app_assoc. split; [done|].
           rewrite <- app_assoc. repeat (apply Forall_app; split); auto.
        -- exists (evs0 ++ [Sendmail f a c] ++ [Connect] ++ [Sendmail f a c]).
           rewrite !app_assoc. split; [done|].
           rewrite <- !app_assoc. repeat (apply Forall_app; split); auto.
      * cbn [snd wire]. rewrite Hw. exists (evs0 ++ [Sendmail f a c]).
        rewrite app_assoc. split; [done|]. apply Forall_app; auto.
    + cbn [snd wire]. rewrite Hw. exists (evs0 ++ [Sendmail f a c]).
      rewrite app_assoc. split; [done|]. apply Forall_app; auto.
  - unfold send_raw, bind. rewrite H1. cbn [snd].
    destruct (ensure_client_wire _ _ _ _ H1) as [-> | ->].
    + exists []. by rewrite app_nil_r.
    + exists [Connect]. split; [done|]. repeat constructor.
Qed.

Section sendmail.
Context (noreply return_path : string).
Context (isvalid : string → bool).
Context (really_unicode : string → string).
Context (formatdate : string).
Context (as_string : Z → EmailMessage → string).
Context (header_max_count : string → option nat).
Context (header_store_parse : string → string → result string).
Context (srv : server).

Let send := sendmail noreply return_path isvalid really_unicode formatdate
              as_string header_max_count header_store_parse srv.

(** The recipients once [cc] has been appended. *)
Definition recipients (addrs : list string) (cc : option string) : list string :=
  addrs ++ match cc with
           | Some c => if truthy c then [c] else []
           | None => []
           end.

(** The valid SMTP addresses among them. *)
Definition valid_smtp_addrs (addrs : list string) (cc : option string) : list string :=
  List.filter isvalid (map (_parse_smtp_addr noreply) (recipients addrs cc)).

(** A header assignment that goes through has appended one header of
    that name, with what the policy made of the value. *)
Lemma set_header_returns name value message m' :
  set_header header_max_count header_store_parse name value message = Return m' →
  ∃ stored,
    header_store_parse name value = Return stored
    ∧ m' = {| msg_headers := msg_headers message ++ [(name, stored)];
              msg_body := msg_body message |}.
Proof.
  unfold set_header. cbv zeta. intros H.
  assert (Happend : (stored <- header_store_parse name value ;;
                     Return {| msg_headers := msg_headers message ++ [(name, stored)];
                               msg_body := msg_body message |})%py = Return m').
  { destruct (header_max_count name) as [[|n]|]; try exact H.
    by destruct (S n <=? _)%nat. }
  clear H. destruct (header_store_parse name value) as [stored|]; [|discriminate].
  injection Happend as <-. by exists stored.
Qed.

(** [extends m m']: [m'] has the headers of [m] and further ones behind
    them. *)
Definition extends (m m' : EmailMessage) : Prop :=
  ∃ more, msg_headers m' = msg_headers m ++ more.

Lemma extends_refl m : extends m m.
Proof. exists []. by rewrite app_nil_r. Qed.

Lemma extends_trans m1 m2 m3 : extends m1 m2 → extends m2 m3 → extends m1 m3.
Proof. intros [k1 H1] [k2 H2]. exists (k1 ++ k2). by rewrite H2, H1, app_assoc. Qed.

Lemma set_header_extends name value message m' :
  set_header header_max_count header_store_parse name value message = Return m' →
  extends message m'.
Proof. intros (stored & _ & ->)%set_header_returns. by eexists. Qed.

Ltac bind_step H m E :=
  match type of H with
  | rbind ?r _ = Return _ =>
      destruct r as [m|] eqn:E; cbn [rbind] in H; [|discriminate H]
  end.

(** When the headers have been written, the message has its old headers,
    then a [To] header, then the other new ones; and the recipient list
    has [cc] appended. *)
Lemma add_headers_returns addrs fromaddr reply_to subject message_id in_reply_to
    message sender references cc to m' addrs' :
  add_headers really_unicode formatdate header_max_count header_store_parse addrs
    fromaddr reply_to subject message_id in_reply_to message sender references cc to
  = Return (m', addrs') →
  addrs' = recipients addrs cc
  ∧ ∃ v more, msg_headers m' = msg_headers message ++ ("To", v) :: more.
Proof.
  unfold add_headers. intros H.
  bind_step H m1 E1. bind_step H m2 E2. bind_step H m3 E3. bind_step H m4 E4.
  bind_step H m5 E5. bind_step H m6 E6. bind_step H m7 E7. bind_step H p8 E8.
  destruct p8 as [m8 addrs8]. bind_step H m9 E9. bind_step H m10 E10.
  injection H as <- <-.
  assert (H1 : ∃ v, msg_headers m1 = msg_headers message ++ [("To", v)]).
  { destruct to as [t|]; [destruct (truthy t)|];
      apply set_header_returns in E1 as (v & _ & ->); by exists v. }
  assert (H8 : addrs8 = recipients addrs cc ∧ extends m7 m8).
  { unfold recipients. destruct cc as [c|]; [destruct (truthy c)|].
    - destruct (set_header _ _ "CC" _ _) as [m|] eqn:Ec; cbn [rbind] in E8;
        [|discriminate]. injection E8 as <- <-.
      split; [done | by eapply set_header_extends].
    - injection E8 as <- <-. rewrite app_nil_r. split; [done | apply extends_refl].
    - injection E8 as <- <-. rewrite app_nil_r. split; [done | apply extends_refl]. }
  destruct H8 as [-> H8]. split; [done|].
  assert (H7 : extends m6 m7).
  { destruct sender as [sd|]; [destruct (truthy sd)|];
      first [by eapply set_header_extends | injection E7 as <-; apply extends_refl]. }
  assert (H9 : extends m8 m9).
  { destruct in_reply_to as [[irt|[|? ?]]|]; try discriminate;
      try (injection E9 as <-; apply extends_refl).
    destruct (truthy irt); [|injection E9 as <-; apply extends_refl].
    destruct (set_header _ _ "In-Reply-To" _ _) as [m|] eqn:Ei; cbn [rbind] in E9;
      [|discriminate].
    apply set_header_extends in Ei. eapply extends_trans; [exact Ei|].
    destruct references; [|injection E9 as <-; apply extends_refl].
    destruct (get_header _ _); [by eapply set_header_extends|].
    injection E9 as <-. apply extends_refl. }
  assert (H10 : extends m9 m10).
  { destruct (map _ references); [injection E10 as <-; apply extends_refl|].
    by eapply set_header_extends. }
  apply set_header_extends in E2, E3, E4, E5, E6.
  assert (Hall : extends m1 m10).
  { do 8 (eapply extends_trans; [eassumption|]). exact H10. }
  destruct H1 as [v H1], Hall as [more Hall]. exists v, more.
  by rewrite Hall, H1, <- app_assoc.
Qed.

Lemma add_headers_addrs addrs fromaddr reply_to subject message_id in_reply_to
    message sender references cc to m' addrs' :
  add_headers really_unicode formatdate header_max_count header_store_parse addrs
    fromaddr reply_to subject message_id in_reply_to message sender references cc to
  = Return (m', addrs') →
  addrs' = recipients addrs cc.
Proof. by intros [? _]%add_headers_returns. Qed.

(** A delivery that [sendmail] may put on the wire: from the configured
    return path, to at least one recipient, all of them valid. *)
Definition deliverable (ev : event) : Prop :=
  match ev with
  | Connect => True
  | Sendmail addr_from smtp_addrs _ =>
      addr_from = return_path ∧ smtp_addrs ≠ []
      ∧ Forall (fun a => isvalid a = true) smtp_addrs
  end.

(** C8: with an empty recipient list [sendmail] returns at once: the
    message has no new header and nothing went to the server.  When no
    valid SMTP address is left after extraction and filtering it returns
    without calling [send_raw]: the client and the wire are as before.
    And whatever the arguments, every delivery that [sendmail] hands to
    the server has at least one recipient and only valid ones. *)
Theorem sendmail_needs_recipient addrs fromaddr reply_to subject message_id
    in_reply_to message sender references cc to self :
  let out := send addrs fromaddr reply_to subject message_id in_reply_to
               message sender references cc to self in
  (addrs = [] → out = (Return (message, []), self))
  ∧ (valid_smtp_addrs addrs cc = [] → out.2 = self)
  ∧ ∃ evs, wire out.2 = wire self ++ evs ∧ Forall deliverable evs.
Proof.
  intros out. subst out send. split; [by intros ->|].
  unfold sendmail, valid_smtp_addrs.
  destruct addrs as [|a0 addrs0] eqn:Ha.
  { split; [done|]. exists []. by rewrite app_nil_r. }
  rewrite <- Ha. clear Ha.
  destruct (add_headers _ _ _ _ _ _ _ _ _ _ _ _ _ _ _) as [[m' addrs']|e] eqn:Hh.
  - apply add_headers_addrs in Hh as ->.
    destruct (List.filter isvalid _) as [|v vs] eqn:Hf.
    + split; [done|]. exists []. by rewrite app_nil_r.
    + split; [discriminate|]. unfold SMTP.bind.
      set (content := as_string _ m').
      destruct (send_raw_wire srv return_path (v :: vs) content self)
        as (evs & Hw & Hevs).
      exists evs. split.
      * revert Hw. by destruct (send_raw _ _ _ _ _) as [[[]|?] ?].
      * eapply Forall_impl; [exact Hevs|]. intros ev [-> | ->]; [done|].
        cbn. split; [done|]. split; [done|]. rewrite <- Hf.
        apply Forall_forall. intros x Hx%list_elem_of_In.
        by apply List.filter_In in Hx as [_ Hx].
  - split; [done|]. exists []. by rewrite app_nil_r.
Qed.
End sendmail.

(** A validator that wants an [@] with something on both sides. *)
Definition demo_isvalid (addr : string) : bool :=
  match split "@" addr with
  | [user; host] => truthy user && truthy host
  | _ => false
  end.

(** A policy in the manner of [email_policy]: the headers of the
    registry that may occur once, and values that are stored as they are
    unless they fall into several lines. *)
Definition demo_max_count (name : string) : option nat :=
  if bool_decide (lower name ∈ ["to"; "from"; "reply-to"; "subject"; "message-id";
                                "date"; "sender"; "cc"; "bcc"; "mime-version";
                                "content-type"; "content-transfer-encoding"])
  then Some 1 else None.
Definition demo_store_parse (name value : string) : result string :=
  if has_linebreak value
  then Raise (ValueError
                "Header values may not contain linefeed or carriage return characters")
  else Return value.

Lemma sendmail_needs_recipient_witness :
  let message := {| msg_headers := [("Content-Type", "text/plain")]; msg_body := "hi" |} in
  let self := {| _client := None; wire := [] |} in
  sendmail "noreply@" "bounce@forge" demo_isvalid (fun s => s) "Thu, 01 Jan 2026"
    (fun _ _ => "...") demo_max_count demo_store_parse (fun _ => None) [] "a@forge"
    "r@forge" "subject" "1@forge" None message None [] None None self
  = (Return (message, []), self)
  ∧ (sendmail "noreply@" "bounce@forge" demo_isvalid (fun s => s) "Thu, 01 Jan 2026"
       (fun _ _ => "...") demo_max_count demo_store_parse (fun _ => None) ["nobody"]
       "a@forge" "r@forge" "subject" "1@forge" None message None [] None None self).2
    = self.
Proof.
  intros message self. split.
  - apply (sendmail_needs_recipient "noreply@" "bounce@forge" demo_isvalid
             (fun s => s) "Thu, 01 Jan 2026" (fun _ _ => "...") demo_max_count
             demo_store_parse (fun _ => None)
             [] "a@forge" "r@forge" "subject" "1@forge" None message None [] None
             None self).
    reflexivity.
  - apply (sendmail_needs_recipient "noreply@" "bounce@forge" demo_isvalid
             (fun s => s) "Thu, 01 Jan 2026" (fun _ _ => "...") demo_max_count
             demo_store_parse (fun _ => None)
             ["nobody"] "a@forge" "r@forge" "subject" "1@forge" None message None []
             None None self).
    reflexivity.
Defined.

End SendmailFacts.

(** ** [mail_util.py]: [encode_email_part] *)

Module EncodeFacts.
Import MailUtil Codec.


(** ASCII text has the same octets in UTF-8. *)
Lemma encode_ascii_utf8 s b :
  encode_ascii s = Return b → encode_utf8 s = Return b.
Proof.
  revert b. induction s as [|c s IH]; intros b; cbn [encode_ascii encode_utf8].
  - done.
  - destruct (c <? 128)%N eqn:Hc; [|discriminate].
    destruct (encode_ascii s) as [b'|] eqn:Hs; cbn [rbind]; [|discriminate].
    intros [= <-]. rewrite (IH _ eq_refl).
    unfold utf8_char. change 0x80%N with 128%N. rewrite Hc. reflexivity.
Qed.











End EncodeFacts.

(** ** Facts about the string operations *)

Module PyStrFacts.
Import PyStr.

Lemma split_no_sep c s : contains_char c s = false → split c s = [s].
Proof.
  induction s as [|a s IH]; cbn [contains_char split]; [done|].
  destruct (Ascii.eqb a c); [done|]. cbn [orb]. intros H. by rewrite (IH H).
Qed.

Lemma split_at_sep c u d :
  contains_char c u = false →
  split c (u +:+ String c d) = u :: split c d.
Proof.
  induction u as [|a u IH]; simpl.
  - by rewrite Ascii.eqb_refl.
  - destruct (Ascii.eqb a c); [done|]. simpl. intros H. by rewrite (IH H).
Qed.

Lemma split_two c u d :
  contains_char c u = false → contains_char c d = false →
  split c (u +:+ String c d) = [u; d].
Proof. intros Hu Hd. by rewrite split_at_sep, split_no_sep. Qed.

Lemma append_nil s : EmptyString +:+ s = s.
Proof. reflexivity. Qed.

Lemma append_cons a p s : String a p +:+ s = String a (p +:+ s).
Proof. reflexivity. Qed.

Lemma drop_append p s : drop (String.length p) (p +:+ s) = s.
Proof. induction p; rewrite ?append_nil, ?append_cons; cbn; auto. Qed.

Lemma take_append p s : take (String.length p) (p +:+ s) = p.
Proof.
  induction p; rewrite ?append_nil, ?append_cons; cbn;
    [by destruct s | congruence].
Qed.

Lemma length_append p s :
  String.length (p +:+ s) = String.length p + String.length s.
Proof. induction p; rewrite ?append_nil, ?append_cons; cbn; auto. Qed.

Lemma take_drop n s : take n s +:+ drop n s = s.
Proof.
  revert s. induction n as [|n IH]; intros [|a s]; cbn; try done.
  by rewrite append_cons, IH.
Qed.

(** [endswith] is what its name says. *)
Lemma endswith_spec p s : endswith p s = true ↔ ∃ pre, s = pre +:+ p.
Proof.
  unfold endswith. split.
  - intros [Hl He]%andb_prop. apply String.eqb_eq in He.
    exists (take (String.length s - String.length p) s).
    rewrite <- He at 2. by rewrite take_drop.
  - intros [pre ->]. rewrite length_append. apply andb_true_intro. split.
    + apply Nat.leb_le. lia.
    + replace (String.length pre + String.length p - String.length p)
        with (String.length pre) by lia.
      rewrite drop_append. apply String.eqb_refl.
Qed.

(** Cutting a non-empty suffix off gives back what stood before it. *)
Lemma take_to_neg_append pre p :
  p ≠ EmptyString → take_to_neg (String.length p) (pre +:+ p) = pre.
Proof.
  intros Hp. unfold take_to_neg. destruct p as [|a p]; [done|].
  cbn [String.length]. rewrite length_append. cbn [String.length].
  replace (String.length pre + S (String.length p) - S (String.length p))
    with (String.length pre) by lia.
  apply take_append.
Qed.

End PyStrFacts.

(** ** [mail_util.py]: [parse_address] *)

Module AddressFacts.
Import PyStr PyStrFacts MailUtil.

Section parse_address.
Context {Project App : Type}.
Context (common_suffix : string) (common_suffix_alt : list string).
Context (find_project : string → option Project * list string).
Context (app_instance : Project → string → option App).

Let suffixes := common_suffix :: common_suffix_alt.
Let parse := parse_address common_suffix common_suffix_alt find_project app_instance.

(** [suffix] is the first configured suffix that [domain] ends with. *)
Definition first_suffix (l : list string) (domain suffix : string) : Prop :=
  ∃ l1 l2, l = l1 ++ suffix :: l2
           ∧ Forall (fun s => endswith s domain = false) l1
           ∧ endswith suffix domain = true.

Lemma remove_common_suffix_none l domain :
  Forall (fun s => endswith s domain = false) l →
  remove_common_suffix l domain = None.
Proof.
  induction 1 as [|s l Hs _ IH]; cbn [remove_common_suffix]; [done|].
  by rewrite Hs.
Qed.

Lemma remove_common_suffix_first l domain suffix :
  first_suffix l domain suffix →
  remove_common_suffix l domain
  = Some (take_to_neg (String.length suffix) domain).
Proof.
  intros (l1 & l2 & -> & H1 & H2).
  induction H1 as [|s l1 Hs _ IH]; cbn [remove_common_suffix app].
  - by rewrite H2.
  - by rewrite Hs.
Qed.

(** C3: for an address [userpart@domain],
    - when the domain ends with none of the configured suffixes,
      [AddressException('Unknown domain: ' + domain)];
    - otherwise, with [rest] the domain without the first configured
      suffix it ends with and the path ['/' + '/'.join(reversed(rest.split('.')))]:
      ['Unknown project: ' + rest] when [find_project] finds no
      project there; ['Unknown tool: ' + rest] when the mount point it
      returns is not exactly one segment, or is one segment that names no
      app instance of the project; and the triple of the user part, the
      project and the app otherwise. *)
Theorem parse_address_cases userpart domain :
  contains_char "@" userpart = false →
  contains_char "@" domain = false →
  let addr := userpart +:+ String "@" domain in
  (Forall (fun s => endswith s domain = false) suffixes →
     parse addr = Raise (AddressException ("Unknown domain: " +:+ domain)))
  ∧ (∀ suffix, first_suffix suffixes domain suffix →
       let rest := take_to_neg (String.length suffix) domain in
       let path := "/" +:+ join "/" (rev (split "." rest)) in
       (suffix ≠ EmptyString → domain = rest +:+ suffix)
       ∧ ((find_project path).1 = None →
            parse addr = Raise (AddressException ("Unknown project: " +:+ rest)))
       ∧ (∀ project mount_point,
            find_project path = (Some project, mount_point) →
            (length mount_point ≠ 1 →
               parse addr = Raise (AddressException ("Unknown tool: " +:+ rest)))
            ∧ (∀ mp, mount_point = [mp] →
                 match app_instance project mp with
                 | None =>
                     parse addr = Raise (AddressException ("Unknown tool: " +:+ rest))
                 | Some app => parse addr = Return (userpart, project, app)
                 end))).
Proof.
  intros Hu Hd addr. subst addr parse. unfold parse_address.
  rewrite (split_two _ _ _ Hu Hd). fold suffixes. split.
  - intros H. by rewrite (remove_common_suffix_none _ _ H).
  - intros suffix Hf. rewrite (remove_common_suffix_first _ _ _ Hf).
    set (rest := take_to_neg (String.length suffix) domain).
    set (path := "/" +:+ join "/" (rev (split "." rest))).
    split; [|split].
    + intros Hne. destruct Hf as (_ & _ & _ & _ & He).
      apply endswith_spec in He as [pre ->]. subst rest.
      by rewrite take_to_neg_append.
    + destruct (find_project path) as [[p|] mp]; cbn [fst]; [discriminate|done].
    + intros project mount_point ->. split.
      * intros Hl. destruct mount_point as [|m [|m' mps]]; cbn in Hl; done.
      * intros mp ->. by destruct (app_instance project mp).
Qed.
End parse_address.

(** A forge with one project [test], which has a wiki, receiving mail
    under [.forge.example.org]. *)
Definition demo_find_project (path : string) : option nat * list string :=
  if startswith "/p/test" path then (Some 7, split "/" (drop 8 path))
  else (None, split "/" path).
Definition demo_app_instance (project : nat) (mount_point : string) : option string :=
  if String.eqb mount_point "wiki" then Some "ForgeWiki" else None.

Lemma parse_address_cases_witness :
  parse_address ".forge.example.org" [] demo_find_project demo_app_instance
    "Page@wiki.test.p.forge.example.org"
  = Return ("Page", 7, "ForgeWiki")
  ∧ parse_address ".forge.example.org" [] demo_find_project demo_app_instance
      "Page@wiki.test.p.elsewhere.org"
    = Raise (AddressException "Unknown domain: wiki.test.p.elsewhere.org").
Proof.
  split.
  - destruct (parse_address_cases ".forge.example.org" [] demo_find_project
                demo_app_instance "Page" "wiki.test.p.forge.example.org"
                eq_refl eq_refl) as [_ H].
    destruct (H ".forge.example.org") as (_ & _ & H3).
    + exists [], []. split; [reflexivity | split; [constructor | reflexivity]].
    + destruct (H3 7 ["wiki"] eq_refl) as [_ H4].
      exact (H4 "wiki" eq_refl).
  - destruct (parse_address_cases ".forge.example.org" [] demo_find_project
                demo_app_instance "Page" "wiki.test.p.elsewhere.org"
                eq_refl eq_refl) as [H _].
    apply H. repeat constructor.
Defined.

End AddressFacts.

(** ** [mail_util.py]: [_parse_message_id] and [parse_message] *)

Module MessageFacts.
Import PyStr PyStrFacts MailUtil Codec.

(** *** What the pattern extracts *)

Lemma finditer_skip pre s :
  contains_char "<" pre = false →
  finditer_group1 None (pre +:+ s) = finditer_group1 None s.
Proof.
  induction pre as [|a pre IH]; [done|].
  rewrite append_cons. cbn [contains_char finditer_group1].
  destruct (Ascii.eqb a "<"); [done|]. exact IH.
Qed.

Lemma append_assoc (a b c : string) : (a +:+ b) +:+ c = a +:+ (b +:+ c).
Proof. induction a; rewrite ?append_nil, ?append_cons; congruence. Qed.

Lemma finditer_inside acc inner post :
  contains_char ">" inner = false →
  finditer_group1 (Some acc) (inner +:+ String ">" post)
  = group1 (acc +:+ inner) :: finditer_group1 None post.
Proof.
  revert acc. induction inner as [|a inner IH]; intros acc.
  - intros _. rewrite append_nil. cbn [finditer_group1]. rewrite Ascii.eqb_refl.
    f_equal. f_equal. clear. induction acc; rewrite ?append_nil, ?append_cons; congruence.
  - rewrite append_cons. cbn [contains_char finditer_group1].
    destruct (Ascii.eqb a ">"); [done|]. intros H. rewrite (IH _ H).
    by rewrite append_assoc, append_cons, append_nil.
Qed.

(** The first match: the first ['<'] of the string and the first ['>']
    after it. *)
Lemma finditer_first pre inner post :
  contains_char "<" pre = false →
  contains_char ">" inner = false →
  finditer_group1 None (pre +:+ String "<" (inner +:+ String ">" post))
  = group1 inner :: finditer_group1 None post.
Proof.
  intros Hpre Hin. rewrite (finditer_skip _ _ Hpre). cbn [finditer_group1].
  rewrite Ascii.eqb_refl. by rewrite (finditer_inside _ _ _ Hin), append_nil.
Qed.

Lemma split_last_piece c prefix id :
  contains_char c id = false →
  ∃ w ws, split c (prefix +:+ String c id) = w :: ws ++ [id].
Proof.
  intros Hid. induction prefix as [|a prefix (w & ws & IH)].
  - rewrite append_nil. cbn [split]. rewrite Ascii.eqb_refl.
    rewrite (split_no_sep _ _ Hid). by exists EmptyString, [].
  - rewrite append_cons. cbn [split]. rewrite IH.
    destruct (Ascii.eqb a c).
    + by exists EmptyString, (w :: ws).
    + by exists (String a w), ws.
Qed.

(** Group 1 is what follows the last ['/']. *)
Lemma group1_after_slash prefix id :
  contains_char "/" id = false → group1 (prefix +:+ String "/" id) = id.
Proof.
  intros Hid. unfold group1.
  destruct (split_last_piece "/" prefix id Hid) as (w & ws & ->).
  by rewrite app_comm_cons, last_last.
Qed.

Lemma group1_no_slash id : contains_char "/" id = false → group1 id = id.
Proof. intros H. unfold group1. by rewrite (split_no_sep _ _ H). Qed.

(** *** The dictionary of [parse_message] *)

(** The five entries every result has. *)
Definition common_entries (msg : Message) (message_id : string)
    (in_reply_to references : list string) : gmap string value :=
  <["message_id" := VStr message_id]>
  (<["references" := ids references]>
  (<["in_reply_to" := ids in_reply_to]>
  (<["headers" := VDict (dict_of_message msg)]>
  (<["multipart" := VBool (is_multipart msg)]> ∅)))).

(** The id [parse_message] settles on, given the [Message-ID] header. *)
Definition chosen_id (gen_message_id : string) (header : option string) : string :=
  match _parse_message_id header with
  | [] => gen_message_id
  | first :: _ => first
  end.

(** A header that [_parse_message_id] can read: the first header of
    that name, if there is one, holds ASCII octets only. *)
Definition ascii_header (hs : list (string * string)) (name : string) : Prop :=
  ∀ v, get_header hs name = Some v → is_ascii v = true.

Lemma parse_message_id_of_returns hs name l :
  _parse_message_id_of (msg_get hs name) = Return l
  ↔ ascii_header hs name ∧ l = _parse_message_id (get_header hs name).
Proof.
  unfold msg_get, ascii_header. destruct (get_header hs name) as [v|].
  - destruct (is_ascii v) eqn:Hv; cbn [_parse_message_id_of]; split.
    + intros [= <-]. split; [by intros ? [= <-] | done].
    + by intros [_ ->].
    + discriminate.
    + intros [H _]. specialize (H v eq_refl). congruence.
  - cbn [_parse_message_id_of]. split.
    + intros [= <-]. split; [discriminate | done].
    + by intros [_ ->].
Qed.

(** The three headers that [parse_message] takes ids from can be read. *)
Definition ids_readable (msg : Message) : Prop :=
  ascii_header (_headers msg) "Message-ID"
  ∧ ascii_header (_headers msg) "In-Reply-To"
  ∧ ascii_header (_headers msg) "References".

Lemma parse_message_inv_ids parsebytes gen data d :
  parse_message parsebytes gen data = Return d →
  ∃ raw, encode_utf8 data = Return raw
    ∧ ids_readable (parsebytes raw)
    ∧ let msg := parsebytes raw in
      let base :=
        common_entries msg
          (chosen_id gen (get_header (_headers msg) "Message-ID"))
          (_parse_message_id (get_header (_headers msg) "In-Reply-To"))
          (_parse_message_id (get_header (_headers msg) "References")) in
      (is_multipart msg = true
       ∧ ∃ parts,
           parts_of (chosen_id gen (get_header (_headers msg) "Message-ID"))
             (_parse_message_id (get_header (_headers msg) "In-Reply-To"))
             (_parse_message_id (get_header (_headers msg) "References"))
             (walk msg) = Return parts
           ∧ d = <["parts" := VList parts]> base)
      ∨ (is_multipart msg = false
         ∧ ∃ payload,
             (if String.eqb (get_content_maintype msg) "text"
              then ensure_text (get_payload_decoded msg)
              else Return (get_payload_decoded msg)) = Return payload
             ∧ d = <["payload" := payload]> base).
Proof.
  unfold parse_message.
  destruct (encode_utf8 data) as [raw|] eqn:Hraw; cbn [rbind]; [|discriminate].
  destruct (_parse_message_id_of (msg_get _ "Message-ID")) as [mids|] eqn:H1;
    cbn [rbind]; [|discriminate].
  destruct (_parse_message_id_of (msg_get _ "In-Reply-To")) as [irt|] eqn:H2;
    cbn [rbind]; [|discriminate].
  destruct (_parse_message_id_of (msg_get _ "References")) as [refs|] eqn:H3;
    cbn [rbind]; [|discriminate].
  apply parse_message_id_of_returns in H1 as [A1 ->].
  apply parse_message_id_of_returns in H2 as [A2 ->].
  apply parse_message_id_of_returns in H3 as [A3 ->].
  intros H. exists raw. split; [reflexivity|]. split; [done|]. cbn zeta.
  unfold common_entries, chosen_id.
  destruct (is_multipart (parsebytes raw)) eqn:Hm.
  - left. split; [reflexivity|].
    destruct (parts_of _ _ _ _) as [parts|]; cbn [rbind] in H; [|discriminate].
    injection H as <-. by exists parts.
  - right. split; [reflexivity|].
    destruct (String.eqb _ "text").
    + destruct (ensure_text _) as [payload|]; cbn [rbind] in H; [|discriminate].
      injection H as <-. by exists payload.
    + injection H as <-. by eexists.
Qed.

Lemma parse_message_inv parsebytes gen data d :
  parse_message parsebytes gen data = Return d →
  ∃ raw, encode_utf8 data = Return raw
    ∧ let msg := parsebytes raw in
      let base :=
        common_entries msg
          (chosen_id gen (get_header (_headers msg) "Message-ID"))
          (_parse_message_id (get_header (_headers msg) "In-Reply-To"))
          (_parse_message_id (get_header (_headers msg) "References")) in
      (is_multipart msg = true
       ∧ ∃ parts,
           parts_of (chosen_id gen (get_header (_headers msg) "Message-ID"))
             (_parse_message_id (get_header (_headers msg) "In-Reply-To"))
             (_parse_message_id (get_header (_headers msg) "References"))
             (walk msg) = Return parts
           ∧ d = <["parts" := VList parts]> base)
      ∨ (is_multipart msg = false
         ∧ ∃ payload,
             (if String.eqb (get_content_maintype msg) "text"
              then ensure_text (get_payload_decoded msg)
              else Return (get_payload_decoded msg)) = Return payload
             ∧ d = <["payload" := payload]> base).
Proof.
  intros (raw & Hraw & _ & H)%parse_message_inv_ids. by exists raw.
Qed.

(** C9, as the specification words it: the [message_id] of every result
    is a non-empty string (the generated ids being non-empty). *)
Definition message_id_never_empty : Prop :=
  ∀ parsebytes gen data d,
    gen ≠ EmptyString →
    parse_message parsebytes gen data = Return d →
    ∃ s, d !! "message_id" = Some (VStr s) ∧ s ≠ EmptyString.

(** What [BytesParser] makes of the four lines [Message-ID: <>],
    [Subject: hi], an empty line and [hello]. *)
Definition empty_id_mail : unicode :=
  text "Message-ID: <>" ++ [10%N] ++ text "Subject: hi" ++ [10; 10]%N
    ++ text "hello" ++ [10%N].
Definition empty_id_parsed : Message :=
  Msg [("Message-ID", "<>"); ("Subject", "hi")] "text/plain" None
    (inl ["h"; "e"; "l"; "l"; "o"; "010"]%char).

(** C9 (counterexample): a [Message-ID] header with nothing between the
    brackets gives one match whose group is empty, so no id is generated
    and [message_id] is the empty string. *)
Lemma parse_message_empty_message_id :
  (∃ d, parse_message (fun _ => empty_id_parsed) "generated@forge" empty_id_mail
        = Return d
        ∧ d !! "message_id" = Some (VStr EmptyString))
  ∧ ¬ message_id_never_empty.
Proof.
  assert (H : ∃ d, parse_message (fun _ => empty_id_parsed) "generated@forge"
                     empty_id_mail = Return d
                   ∧ d !! "message_id" = Some (VStr EmptyString)).
  { assert (Hr : returns (parse_message (fun _ => empty_id_parsed) "generated@forge"
                            empty_id_mail) = true) by (vm_compute; reflexivity).
    destruct (parse_message (fun _ => empty_id_parsed) "generated@forge" empty_id_mail)
      as [d|e] eqn:Hd; [|discriminate Hr].
    exists d. split; [reflexivity|].
    destruct (parse_message_inv _ _ _ _ Hd) as (raw & _ & Hshape). cbn zeta in Hshape.
    destruct Hshape as [(_ & parts & _ & ->) | (_ & payload & _ & ->)];
      rewrite lookup_insert_ne by done; unfold common_entries;
      by rewrite lookup_insert_eq. }
  split; [exact H|].
  destruct H as (d & Hd & Hid). intros Hclaim.
  destruct (Hclaim (fun _ => empty_id_parsed) "generated@forge" empty_id_mail d)
    as (s & Hs & Hne); [done | exact Hd |].
  rewrite Hid in Hs. by injection Hs as <-.
Qed.

Lemma common_entries_lookup msg mid irt refs :
  let base := common_entries msg mid irt refs in
  base !! "multipart" = Some (VBool (is_multipart msg))
  ∧ base !! "headers" = Some (VDict (dict_of_message msg))
  ∧ base !! "message_id" = Some (VStr mid)
  ∧ base !! "in_reply_to" = Some (ids irt)
  ∧ base !! "references" = Some (ids refs)
  ∧ base !! "parts" = None ∧ base !! "payload" = None
  ∧ dom base = ({["multipart"; "headers"; "message_id"; "in_reply_to";
                  "references"]} : gset string).
Proof.
  unfold common_entries. repeat split; by simplify_map_eq.
Qed.

(** C9 (amended): the [message_id] of a returned dictionary is always one
    string, never a list.  It is the generated id when there is no
    [Message-ID] header or the header holds no bracketed id; otherwise it
    is the first id of the header: what stands between the first ['<'] and
    the next ['>'], without its prefix up to the last ['/'].  (That text
    may be empty.) *)
Theorem parse_message_message_id parsebytes gen data d :
  parse_message parsebytes gen data = Return d →
  ∃ raw s,
    encode_utf8 data = Return raw
    ∧ d !! "message_id" = Some (VStr s)
    ∧ let header := get_header (_headers (parsebytes raw)) "Message-ID" in
      (_parse_message_id header = [] → s = gen)
      ∧ (header = None → s = gen)
      ∧ (∀ first others, _parse_message_id header = first :: others → s = first)
      ∧ (∀ pre inner post,
           header = Some (pre +:+ String "<" (inner +:+ String ">" post)) →
           contains_char "<" pre = false →
           contains_char ">" inner = false →
           s = group1 inner
           ∧ (contains_char "/" inner = false → s = inner)
           ∧ (∀ prefix id, inner = prefix +:+ String "/" id →
                contains_char "/" id = false → s = id)).
Proof.
  intros H. destruct (parse_message_inv _ _ _ _ H) as (raw & Hraw & Hd).
  cbn zeta in Hd.
  set (header := get_header (_headers (parsebytes raw)) "Message-ID") in *.
  exists raw, (chosen_id gen header). split; [exact Hraw|]. split.
  - destruct Hd as [(_ & parts & _ & ->) | (_ & payload & _ & ->)];
      rewrite lookup_insert_ne by done; apply common_entries_lookup.
  - cbn zeta. fold header. unfold chosen_id. clearbody header.
    split; [by intros -> | split; [by intros -> | split]].
    + by intros first others ->.
    + intros pre inner post -> Hpre Hin. cbn [_parse_message_id].
      rewrite finditer_first by done. split; [done | split].
      * intros Hs. by rewrite group1_no_slash.
      * intros prefix id -> Hid. by rewrite group1_after_slash.
Qed.

(** A reply with a Rails-style id, as [BytesParser] reads it. *)
Definition reply_mail : unicode :=
  text "Message-ID: <tickets/42/abc@mail.example.org>" ++ [10; 10]%N
    ++ text "ok" ++ [10%N].
Definition reply_parsed : Message :=
  Msg [("Message-ID", "<tickets/42/abc@mail.example.org>")] "text/plain" None
    (inl ["o"; "k"; "010"]%char).

Lemma parse_message_message_id_witness :
  ∃ d, parse_message (fun _ => reply_parsed) "generated@forge" reply_mail = Return d
       ∧ d !! "message_id" = Some (VStr "abc@mail.example.org").
Proof.
  assert (Hr : returns (parse_message (fun _ => reply_parsed) "generated@forge"
                          reply_mail) = true) by (vm_compute; reflexivity).
  destruct (parse_message (fun _ => reply_parsed) "generated@forge" reply_mail)
    as [d|e] eqn:Hd; [|discriminate Hr].
  exists d. split; [reflexivity|].
  destruct (parse_message_message_id (fun _ => reply_parsed) "generated@forge"
              reply_mail d Hd) as (raw & s & _ & Hs & _ & _ & _ & H).
  rewrite Hs. f_equal. f_equal.
  destruct (H "" "tickets/42/abc@mail.example.org" "" eq_refl eq_refl eq_refl)
    as (_ & _ & H3).
  exact (H3 "tickets/42" "abc@mail.example.org" eq_refl eq_refl).
Defined.

(** *** The shape of the result *)
























End MessageFacts.

(** ** [forgetracker/search.py]: [get_facets] *)

Module SearchFacts.
Import PyStr PyStrFacts Search.

Lemma startswith_length p s : startswith p s = true → String.length p ≤ String.length s.
Proof.
  revert s. induction p as [|a p IH]; intros [|b s]; cbn; try lia; try discriminate.
  destruct (Ascii.eqb a b); [|discriminate]. intros H%IH. lia.
Qed.

Lemma rfind_short sep s :
  String.length s < String.length sep → rfind sep s = None.
Proof.
  induction s as [|a s IH]; intros Hlen.
  - cbn. destruct sep; [cbn in Hlen; lia | reflexivity].
  - cbn [rfind]. cbn [String.length] in Hlen. rewrite IH by lia.
    destruct (startswith sep (String a s)) eqn:Hs; [|reflexivity].
    apply startswith_length in Hs. cbn [String.length] in Hs. lia.
Qed.

Lemma startswith_refl s : startswith s s = true.
Proof. induction s; cbn; [done|]. by rewrite Ascii.eqb_refl. Qed.

(** In [pre + sep] the last occurrence of [sep] is the one at the end. *)
Lemma rfind_suffix sep pre :
  sep ≠ EmptyString → rfind sep (pre +:+ sep) = Some (String.length pre).
Proof.
  intros Hsep. induction pre as [|a pre IH].
  - rewrite append_nil. destruct sep as [|b sep]; [done|].
    cbn [rfind]. rewrite rfind_short by (cbn; lia).
    by rewrite startswith_refl.
  - rewrite append_cons. cbn [rfind]. by rewrite IH.
Qed.

(** Cutting at the last ['_s'] strips a trailing ['_s']. *)
Lemma field_name_of_suffix base : field_name_of (base +:+ "_s") = base.
Proof.
  unfold field_name_of, rsplit1. rewrite rfind_suffix by done.
  apply take_append.
Qed.

(** The consecutive pairs of a flat list. *)
Fixpoint consecutive_pairs (values : list solr_value) : list (solr_value * solr_value) :=
  match values with
  | v :: n :: rest => (v, n) :: consecutive_pairs rest
  | _ => []
  end.

Lemma pair_up_even values :
  Nat.even (length values) = true → pair_up values = Return (consecutive_pairs values).
Proof.
  induction values as [values IH] using (induction_ltof1 _ (@length _)).
  unfold ltof in IH.
  destruct values as [|v [|n rest]]; [done | discriminate |].
  cbn [length Nat.even pair_up consecutive_pairs]. intros He.
  rewrite IH by (cbn; lia || done). reflexivity.
Qed.

Section get_facets.
Context {Ticket : Type}.
Context (index : Ticket → gmap string solr_value).

Lemma elem_of_available_values name tickets v :
  v ∈ available_values index name tickets
  ↔ ∃ ticket, ticket ∈ tickets ∧ index ticket !! name = Some v.
Proof.
  induction tickets as [|t ts IH]; cbn [available_values].
  - split; [by intros ?%elem_of_nil | by intros (? & ?%elem_of_nil & _)].
  - destruct (index t !! name) as [w|] eqn:Hw.
    + rewrite elem_of_cons, IH. split.
      * intros [-> | (t' & Ht' & Hv)]; [exists t | exists t']; split; try done;
          [by left | by right].
      * intros (t' & [-> | Ht']%elem_of_cons & Hv); [left; congruence | right; eauto].
    + rewrite IH. split.
      * intros (t' & Ht' & Hv). exists t'. split; [by right | done].
      * intros (t' & [-> | Ht']%elem_of_cons & Hv); [congruence | eauto].
Qed.

(** What one facet field contributes. *)
Definition item_value (final_result : option (list Ticket))
    (item : string * list solr_value) : list (solr_value * solr_value) :=
  match final_result with
  | Some ((_ :: _) as tickets) =>
      List.filter
        (fun v => bool_decide (v.1 ∈ available_values index item.1 tickets))
        (consecutive_pairs item.2)
  | _ => consecutive_pairs item.2
  end.

Lemma facets_loop_even items final_result res :
  Forall (fun item => Nat.even (length item.2) = true) items →
  facets_loop index items final_result res
  = Return (fold_left
              (fun acc item => <[field_name_of item.1 := item_value final_result item]> acc)
              items res).
Proof.
  intros H. revert res. induction H as [|[name values] items Hv _ IH]; intros res.
  - reflexivity.
  - cbn [facets_loop fold_left]. cbn [snd] in Hv. rewrite (pair_up_even _ Hv).
    cbn [rbind]. rewrite IH. unfold item_value at 2. cbn [fst snd].
    by destruct final_result as [[|? ?]|].
Qed.

Lemma fold_insert_other (f : string * list solr_value → list (solr_value * solr_value))
    items (res : gmap string (list (solr_value * solr_value))) k :
  k ∉ map (fun item => field_name_of item.1) items →
  fold_left (fun acc item => <[field_name_of item.1 := f item]> acc) items res !! k
  = res !! k.
Proof.
  revert res. induction items as [|item items IH]; intros res Hk; [done|].
  cbn [fold_left]. cbn [map] in Hk. apply not_elem_of_cons in Hk as [Hk1 Hk2].
  rewrite IH by done. by rewrite lookup_insert_ne.
Qed.

Lemma fold_insert_lookup (f : string * list solr_value → list (solr_value * solr_value))
    items (res : gmap string (list (solr_value * solr_value))) item :
  NoDup (map (fun item => field_name_of item.1) items) →
  item ∈ items →
  fold_left (fun acc item => <[field_name_of item.1 := f item]> acc) items res
    !! field_name_of item.1
  = Some (f item).
Proof.
  revert res. induction items as [|item' items IH]; intros res Hnd Hin.
  - by apply elem_of_nil in Hin.
  - cbn [map] in Hnd. apply NoDup_cons in Hnd as [Hni Hnd]. cbn [fold_left].
    apply elem_of_cons in Hin as [-> | Hin].
    + rewrite fold_insert_other by done. by rewrite lookup_insert_eq.
    + by apply IH.
Qed.

Lemma fold_insert_dom (f : string * list solr_value → list (solr_value * solr_value))
    items (res : gmap string (list (solr_value * solr_value))) k :
  is_Some (fold_left (fun acc item => <[field_name_of item.1 := f item]> acc) items res !! k) →
  is_Some (res !! k) ∨ k ∈ map (fun item => field_name_of item.1) items.
Proof.
  revert res. induction items as [|item items IH]; intros res; [by left|].
  cbn [fold_left map]. intros [H | H]%IH.
  - destruct (decide (field_name_of item.1 = k)) as [<- | Hne].
    + right. by left.
    + rewrite lookup_insert_ne in H by done. by left.
  - right. by right.
Qed.
End get_facets.

(** C6, as the specification words it: whenever [final_result] is
    given, every pair that is kept has its value among the values that the
    tickets of [final_result] hold in that facet field. *)
Definition filters_whenever_given : Prop :=
  ∀ (index : nat → gmap string solr_value) items tickets d,
    get_facets index (Some items) (Some tickets) = Return d →
    ∀ name values kept pair,
      (name, values) ∈ items →
      d !! field_name_of name = Some kept →
      pair ∈ kept →
      ∃ ticket, ticket ∈ tickets ∧ index ticket !! name = Some pair.1.

(** C6 (counterexample): with the empty list as [final_result] the test
    [if final_result:] fails like it does for [None], and the facets come
    back unfiltered although no ticket holds any value. *)
Lemma get_facets_empty_final_result :
  get_facets (fun _ : nat => ∅) (Some [("status_s", [SStr "open"; SInt 3])]) (Some [])
  = Return {["status" := [(SStr "open", SInt 3)]]}
  ∧ ¬ filters_whenever_given.
Proof.
  assert (H : get_facets (fun _ : nat => ∅)
                (Some [("status_s", [SStr "open"; SInt 3])]) (Some [])
              = Return {["status" := [(SStr "open", SInt 3)]]}) by reflexivity.
  split; [exact H|]. intros Hclaim.
  destruct (Hclaim (fun _ => ∅) _ [] _ H "status_s" [SStr "open"; SInt 3]
              [(SStr "open", SInt 3)] (SStr "open", SInt 3))
    as (ticket & Hin & _).
  - by left.
  - reflexivity.
  - by left.
  - by apply elem_of_nil in Hin.
Qed.

(** C6 (amended): for [None] the result is the empty dictionary.  For a
    search result whose facet field names end in ['_s'] and whose flat
    facet lists have even length, the result has exactly the field names
    without their ['_s'] as keys, and each maps to the consecutive pairs of
    its flat list; when [final_result] is given and is not empty, to those
    of the pairs whose value some ticket of [final_result] holds in that
    facet field, in their order; when [final_result] is [None] or empty, to
    all of them. *)
Theorem get_facets_pairs {Ticket : Type} (index : Ticket → gmap string solr_value)
    (final_result : option (list Ticket)) :
  get_facets index None final_result = Return ∅
  ∧ ∀ items,
      NoDup (map fst items) →
      Forall (fun item => ∃ base, item.1 = base +:+ "_s") items →
      Forall (fun item => Nat.even (length item.2) = true) items →
      ∃ d, get_facets index (Some items) final_result = Return d
           ∧ (∀ k, is_Some (d !! k) ↔ ∃ values, (k +:+ "_s", values) ∈ items)
           ∧ ∀ base values,
               (base +:+ "_s", values) ∈ items →
               match final_result with
               | Some (t :: ts) =>
                   ∃ keep : solr_value * solr_value → bool,
                     (∀ pair, keep pair = true
                              ↔ ∃ ticket, ticket ∈ t :: ts
                                  ∧ index ticket !! (base +:+ "_s") = Some pair.1)
                     ∧ d !! base = Some (List.filter keep (consecutive_pairs values))
               | _ => d !! base = Some (consecutive_pairs values)
               end.
Proof.
  split; [reflexivity|]. intros items Hnd Hs He.
  cbn [get_facets]. rewrite (facets_loop_even index _ _ _ He).
  eexists. split; [reflexivity|].
  assert (Hnd' : NoDup (map (fun item : string * list solr_value => field_name_of item.1) items)).
  { clear He. induction items as [|[name values] items IH]; [constructor|].
    cbn [map fst] in *. apply NoDup_cons in Hnd as [Hni Hnd].
    apply Forall_cons in Hs as [[base Hb] Hs]. cbn [fst] in Hb. subst name.
    constructor; [|by apply IH].
    rewrite field_name_of_suffix. intros Hin. apply Hni.
    apply list_elem_of_fmap in Hin as ([name' values'] & Hk & Hin).
    apply list_elem_of_fmap. exists (name', values'). split; [|done].
    rewrite Forall_forall in Hs. destruct (Hs _ Hin) as [base' Hb'].
    cbn [fst] in *. subst name'. rewrite field_name_of_suffix in Hk. by subst. }
  split.
  - intros k. split.
    + intros [H | H]%fold_insert_dom.
      * rewrite lookup_empty in H. by destruct H.
      * apply list_elem_of_fmap in H as ([name values] & -> & Hin).
        rewrite Forall_forall in Hs. destruct (Hs _ Hin) as [base Hb].
        cbn [fst] in *. subst name. rewrite field_name_of_suffix. eauto.
    + intros [values Hin]. rewrite <- (field_name_of_suffix k) at 1.
      change (k +:+ "_s") with (k +:+ "_s", values).1 at 1.
      by rewrite fold_insert_lookup.
  - intros base values Hin.
    pose proof (fold_insert_lookup (item_value index final_result) items ∅
                  (base +:+ "_s", values) Hnd' Hin) as Hl.
    cbn [fst] in Hl. rewrite field_name_of_suffix in Hl.
    destruct final_result as [[|t ts]|]; try exact Hl.
    exists (fun v => bool_decide (v.1 ∈ available_values index (base +:+ "_s") (t :: ts))).
    split; [|exact Hl].
    intros pair. by rewrite bool_decide_eq_true, elem_of_available_values.
Qed.

(** Two open tickets and a closed one in the index; the page shows one
    of the open ones. *)
Definition demo_index (ticket : nat) : gmap string solr_value :=
  {["status_s" := SStr (if ticket =? 1 then "closed" else "open")]}.

Lemma get_facets_pairs_witness :
  ∃ d, get_facets demo_index
         (Some [("status_s", [SStr "closed"; SInt 1; SStr "open"; SInt 2])]) (Some [0])
       = Return d
       ∧ d !! "status" = Some [(SStr "open", SInt 2)].
Proof.
  destruct (get_facets_pairs demo_index (Some [0])) as [_ H].
  destruct (H [("status_s", [SStr "closed"; SInt 1; SStr "open"; SInt 2])])
    as (d & Hd & _ & Hl).
  - repeat constructor. by intros ?%elem_of_nil.
  - repeat constructor. by exists "status".
  - by repeat constructor.
  - exists d. split; [exact Hd|].
    destruct (Hl "status" [SStr "closed"; SInt 1; SStr "open"; SInt 2])
      as (keep & Hkeep & ->); [by left|].
    cbn [consecutive_pairs List.filter].
    assert (keep (SStr "closed", SInt 1) = false) as ->.
    { apply not_true_is_false. rewrite Hkeep.
      intros (t & Ht & Hi). apply list_elem_of_singleton in Ht as ->. discriminate Hi. }
    assert (keep (SStr "open", SInt 2) = true) as ->.
    { apply Hkeep. exists 0. split; [by left | reflexivity]. }
    reflexivity.
Defined.

End SearchFacts.

(** ** [app.py]: [DefaultAdminController.update] *)

Module AdminFacts.
Import Admin.

Section update.
Context {oid : Type}.
Context (ObjectId : string → option oid).
Context (str : oid → string).
Context (role_name : oid → option string).

Lemma map_result_returns {A B} (f : A → result B) l ys :
  map_result f l = Return ys ↔ Forall2 (fun x y => f x = Return y) l ys.
Proof.
  revert ys. induction l as [|x l IH]; intros ys; cbn [map_result].
  - split; [intros [= <-]; constructor | by inversion 1].
  - destruct (f x) as [y|e] eqn:Hx; cbn [rbind].
    + destruct (map_result f l) as [ys'|e] eqn:Hl; cbn [rbind].
      * split.
        -- intros [= <-]. constructor; [done | by apply IH].
        -- inversion 1 as [|? y' ? ys'' Hy Hys]; subst.
           apply IH in Hys. congruence.
      * split; [discriminate|]. inversion 1 as [|? ? ? ys'' _ Hys]; subst.
        by apply IH in Hys.
    + split; [discriminate|]. inversion 1; congruence.
Qed.

(** What a submitted card asks for: ALLOW entries for its kept role
    ids ([value]) followed by its newly added ones ([new]). *)
Definition card_entries (args : card_args) (entries : list (@ACE oid)) : Prop :=
  ∃ perm role_ids,
    id args = Some perm
    ∧ Forall2 (fun s r => ObjectId s = Some r)
        (id_list (value args) ++ id_list (new args)) role_ids
    ∧ entries = map (fun r => ACE_allow r perm) role_ids.

Lemma parse_oid_returns s r : parse_oid ObjectId s = Return r ↔ ObjectId s = Some r.
Proof. unfold parse_oid. destruct (ObjectId s); split; congruence. Qed.

Lemma update_card_returns old_acl mount_point args st st' :
  update_card ObjectId str role_name old_acl mount_point args st = (Return tt, st') →
  ∃ entries, card_entries args entries ∧ acl st' = acl st ++ entries.
Proof.
  unfold update_card. destruct (id args) as [perm|] eqn:Hid; [|discriminate].
  match goal with |- context [match ?l with Return _ => _ | Raise _ => _ end] =>
    destruct l as [log|]; [|discriminate] end.
  destruct (map_result _ _) as [role_ids|] eqn:Hr; [|discriminate].
  intros [= <-]. cbn [acl]. eexists. split; [|reflexivity].
  exists perm, role_ids. split; [done|]. split; [|done].
  apply map_result_returns in Hr.
  eapply Forall2_impl; [exact Hr|]. intros s r. apply parse_oid_returns.
Qed.

Lemma update_cards_returns old_acl mount_point cards st st' :
  update_cards ObjectId str role_name old_acl mount_point cards st = (Return tt, st') →
  ∃ entries, Forall2 card_entries cards entries
             ∧ acl st' = acl st ++ concat entries.
Proof.
  revert st. induction cards as [|args cards IH]; intros st; cbn [update_cards].
  - intros [= <-]. exists []. split; [constructor | by rewrite app_nil_r].
  - destruct (update_card _ _ _ _ _ _ _) as [[[]|e] st1] eqn:H1; [|discriminate].
    intros (entries & Hall & Hacl)%IH.
    apply update_card_returns in H1 as (es & Hes & Hacl1).
    exists (es :: entries). split; [by constructor|].
    by rewrite Hacl, Hacl1, <- app_assoc.
Qed.

Lemma map_result_raises {A B} (f : A → result B) l e :
  map_result f l = Raise e → ∃ x, f x = Raise e.
Proof.
  induction l as [|x l IH]; cbn [map_result]; [discriminate|].
  destruct (f x) as [y|e1] eqn:Hx; cbn [rbind].
  - destruct (map_result f l); cbn [rbind]; [discriminate|].
    intros [= ->]. by apply IH.
  - intros [= ->]. eauto.
Qed.

(** The exceptions of the loop body: a missing [id], a malformed role
    id, a role that does not exist.  None of them is the final redirect. *)
Definition form_error (e : exn) : Prop :=
  match e with
  | KeyError | AttributeError | InvalidId _ => True
  | _ => False
  end.

Lemma parse_oid_raises s e : parse_oid ObjectId s = Raise e → form_error e.
Proof. unfold parse_oid. destruct (ObjectId s); [discriminate|]. by intros [= <-]. Qed.

Lemma name_of_raises s e : name_of ObjectId role_name s = Raise e → form_error e.
Proof.
  unfold name_of. destruct (parse_oid ObjectId s) as [r|e1] eqn:Hs; cbn [rbind].
  - destruct (role_name r); [discriminate|]. by intros [= <-].
  - intros [= <-]. by eapply parse_oid_raises.
Qed.

Lemma update_card_raises old_acl mount_point args st e st' :
  update_card ObjectId str role_name old_acl mount_point args st = (Raise e, st') →
  form_error e.
Proof.
  unfold update_card. destruct (id args); [|by intros [= <- _]].
  match goal with |- context [match ?l with Return _ => _ | Raise _ => _ end] =>
    destruct l as [log|e2] eqn:Hlog end.
  - destruct (map_result (parse_oid ObjectId) _) as [|e3] eqn:Hr; [discriminate|].
    intros [= <- _]. apply map_result_raises in Hr as [x Hx].
    by eapply parse_oid_raises.
  - intros [= <- _].
    assert (Hn : ∀ l1 l2 (k : list string → list string → list string),
               (before <- map_result (name_of ObjectId role_name) l1 ;;
                now <- map_result (name_of ObjectId role_name) l2 ;;
                Return (k before now))%py = Raise e2 → form_error e2).
    { intros l1 l2 k.
      destruct (map_result _ l1) eqn:H1; cbn [rbind].
      - destruct (map_result _ l2) eqn:H2; cbn [rbind]; [discriminate|].
        intros [= ->]. apply map_result_raises in H2 as [x Hx].
        by eapply name_of_raises.
      - intros [= ->]. apply map_result_raises in H1 as [x Hx].
        by eapply name_of_raises. }
    revert Hlog.
    destruct (id_list (new args)), (del_group_ids_of _ _ _ _);
      [discriminate | apply Hn | apply Hn | apply Hn].
Qed.

Lemma update_cards_raises old_acl mount_point cards st e st' :
  update_cards ObjectId str role_name old_acl mount_point cards st = (Raise e, st') →
  form_error e.
Proof.
  revert st. induction cards as [|args cards IH]; intros st; cbn [update_cards];
    [discriminate|].
  destruct (update_card _ _ _ _ _ _ _) as [[[]|e1] st1] eqn:H1; [by apply IH|].
  intros [= <- _]. by eapply update_card_raises.
Qed.

Lemma map_result_total {A B} (f : A → result B) l :
  Forall (fun x => ∃ y, f x = Return y) l → ∃ ys, map_result f l = Return ys.
Proof.
  induction 1 as [|x l [y Hy] _ [ys IH]]; cbn [map_result]; [by eexists|].
  rewrite Hy, IH. by eexists.
Qed.

(** A role id that parses and names an existing role. *)
Definition known_role (s : string) : Prop :=
  ∃ r name, ObjectId s = Some r ∧ role_name r = Some name.

Definition submitted_ids (args : card_args) : list string :=
  id_list (value args) ++ id_list (new args).

Lemma update_card_total old_acl mount_point args st :
  is_Some (id args) →
  Forall known_role (submitted_ids args) →
  Forall (fun ace => known_role (str (role_id ace))) old_acl →
  ∃ st', update_card ObjectId str role_name old_acl mount_point args st
         = (Return tt, st').
Proof.
  intros [perm Hid] Hids Hold. unfold update_card. rewrite Hid.
  unfold submitted_ids in Hids. apply Forall_app in Hids as [Hval Hnew].
  assert (Hname : ∀ l, Forall known_role l →
                    ∃ ys, map_result (name_of ObjectId role_name) l = Return ys).
  { intros l Hl. apply map_result_total. eapply Forall_impl; [exact Hl|].
    intros s (r & name & Hr & Hn). exists name.
    unfold name_of, parse_oid. rewrite Hr. cbn [rbind]. by rewrite Hn. }
  assert (Hdel : Forall known_role
                   (del_group_ids_of str old_acl perm (id_list (value args)))).
  { unfold del_group_ids_of. apply Forall_forall.
    intros s (ace & -> & Hin)%list_elem_of_fmap.
    apply list_elem_of_In, List.filter_In in Hin as [Hin _].
    rewrite Forall_forall in Hold. by apply Hold, list_elem_of_In. }
  destruct (Hname (id_list (value args) ++ del_group_ids_of str old_acl perm
                     (id_list (value args)))) as [before Hb];
    [by apply Forall_app|].
  destruct (Hname (id_list (value args) ++ id_list (new args))) as [now Hn];
    [by apply Forall_app|].
  destruct (map_result_total (parse_oid ObjectId)
              (id_list (value args) ++ id_list (new args))) as [role_ids Hr].
  { apply Forall_app. split; (eapply Forall_impl; [eassumption|]);
      intros s (r & _ & Hs & _); exists r; by apply parse_oid_returns. }
  rewrite Hb, Hn, Hr. cbn [rbind].
  destruct (id_list (new args)), (del_group_ids_of _ _ _ _); by eexists.
Qed.

(** C7: when [update] has run through (it ends in the redirect), the
    ACL is the concatenation, in card order, of the ALLOW entries of
    each submitted card: its kept role ids followed by its newly added
    ones.  So an entry of the old ACL is still there only if it is an
    ALLOW entry whose role id was submitted again, kept or new, on a card
    for its permission.  [update] does run through when every card has
    its [id] and every role id, submitted or in the old ACL, names an
    existing role. *)
Theorem update_replaces_acl mount_point referer cards st :
  (∀ st', update ObjectId str role_name mount_point referer (Some cards) st
          = (Raise (HTTPFound referer), st') →
     ∃ entries,
       Forall2 card_entries cards entries
       ∧ acl st' = concat entries
       ∧ ∀ ace, ace ∈ acl st → ace ∈ acl st' →
           access ace = ALLOW
           ∧ ∃ args s, args ∈ cards ∧ id args = Some (permission ace)
                       ∧ s ∈ submitted_ids args
                       ∧ ObjectId s = Some (role_id ace))
  ∧ (Forall (fun args => is_Some (id args) ∧ Forall known_role (submitted_ids args))
       cards →
     Forall (fun ace => known_role (str (role_id ace))) (acl st) →
     ∃ st', update ObjectId str role_name mount_point referer (Some cards) st
            = (Raise (HTTPFound referer), st')).
Proof.
  unfold update. split.
  - intros st'.
    destruct (update_cards _ _ _ _ _ _ _) as [[[]|e] st1] eqn:Hc.
    + intros [= <-]. apply update_cards_returns in Hc as (entries & Hall & Hacl).
      cbn [acl app] in Hacl. exists entries. split; [done|]. split; [done|].
      intros ace _ Hin. rewrite Hacl in Hin. clear Hacl.
      induction Hall as [|args es cards' entries' Hes _ IH]; cbn [concat] in Hin.
      * by apply elem_of_nil in Hin.
      * apply elem_of_app in Hin as [Hin | Hin].
        -- destruct Hes as (perm & role_ids & Hid & Hids & ->).
           apply list_elem_of_fmap in Hin as (r & -> & Hr).
           split; [reflexivity|]. cbn [permission role_id].
           apply list_elem_of_lookup in Hr as [i Hi].
           destruct (Forall2_lookup_r _ _ _ _ _ Hids Hi) as (s & Hs & Hsr).
           exists args, s. split; [by left|]. split; [done|].
           split; [|done]. by eapply list_elem_of_lookup_2.
        -- destruct (IH Hin) as (Ha & args' & s & Hin' & ?).
           split; [done|]. exists args', s. split; [by right | done].
    + intros [= Heq _]. apply update_cards_raises in Hc. by subst e.
  - intros Hcards Hold.
    assert (∀ st0, ∃ st1, update_cards ObjectId str role_name (acl st) mount_point
                            cards st0 = (Return tt, st1)) as Hrun.
    { induction Hcards as [|args cards' [Hid Hids] _ IH]; intros st0;
        cbn [update_cards]; [by eexists|].
      destruct (update_card_total (acl st) mount_point args st0 Hid Hids Hold)
        as [st1 ->].
      apply IH. }
    destruct (Hrun {| acl := []; audit_log := audit_log st |}) as [st1 ->].
    by eexists.
Qed.

End update.

(** A tool whose [read] permission is held by two roles and whose [post]
    permission is denied to a third; the form keeps one reader, adds the
    members and submits nothing for [post]. *)
Definition demo_ObjectId (s : string) : option string :=
  if String.eqb s "" then None else Some s.
Definition demo_role_name (r : string) : option string := Some ("role " +:+ r).
Definition demo_state : @state string :=
  {| acl := [ {| access := ALLOW; role_id := "5f01"; permission := "read" |};
              {| access := ALLOW; role_id := "5f02"; permission := "read" |};
              {| access := DENY; role_id := "5f03"; permission := "post" |} ];
     audit_log := [] |}.
Definition demo_cards : list card_args :=
  [ {| id := Some "read"; new := Some (inl "5f04"); value := Some (inr ["5f01"]) |};
    {| id := Some "post"; new := None; value := None |} ].

Lemma update_replaces_acl_witness :
  ∃ st', update demo_ObjectId (fun r => r) demo_role_name "wiki" "/p/test/admin"
           (Some demo_cards) demo_state
         = (Raise (HTTPFound "/p/test/admin"), st')
         ∧ acl st' = [ ACE_allow "5f01" "read"; ACE_allow "5f04" "read" ].
Proof.
  destruct (update_replaces_acl demo_ObjectId (fun r => r) demo_role_name "wiki"
              "/p/test/admin" demo_cards demo_state) as [H1 H2].
  destruct H2 as [st' Hst'].
  - repeat constructor; try (by eexists); by eexists _, _.
  - repeat constructor; by eexists _, _.
  - exists st'. split; [exact Hst'|].
    destruct (H1 st' Hst') as (entries & _ & _ & _).
    vm_compute in Hst'. by injection Hst' as <-.
Defined.

End AdminFacts.

(** ** [app.py]: [SitemapEntry.extend] *)

Module SitemapFacts.
Import Sitemap.

(** *** Trees in the store *)

(** A tree of entries: the address of the root object, its label and url,
    and the trees of its children. *)
Inductive tree :=
| Node (root : loc) (tlabel : string) (turl : option string) (kids : list tree).

Definition root (t : tree) : loc := match t with Node l _ _ _ => l end.
Definition tlabel (t : tree) : string := match t with Node _ lb _ _ => lb end.
Definition turl (t : tree) : option string := match t with Node _ _ u _ => u end.
Definition kids (t : tree) : list tree := match t with Node _ _ _ ks => ks end.

Fixpoint tsize (t : tree) : nat :=
  match t with
  | Node _ _ _ ks =>
      S ((fix fsize (l : list tree) : nat :=
            match l with
            | [] => 0
            | k :: l' => tsize k + fsize l'
            end) ks)
  end.

Fixpoint fsize (l : list tree) : nat :=
  match l with
  | [] => 0
  | k :: l' => tsize k + fsize l'
  end.

Lemma tsize_unfold t : tsize t = S (fsize (kids t)).
Proof. by destruct t. Qed.

(** All addresses of a tree, of a forest. *)
Fixpoint locs (t : tree) : list loc :=
  match t with
  | Node l _ _ ks =>
      l :: (fix flocs (l : list tree) : list loc :=
              match l with
              | [] => []
              | k :: l' => locs k ++ flocs l'
              end) ks
  end.

Fixpoint flocs (l : list tree) : list loc :=
  match l with
  | [] => []
  | k :: l' => locs k ++ flocs l'
  end.

Lemma locs_unfold t : locs t = root t :: flocs (kids t).
Proof. by destruct t. Qed.

Lemma root_in_locs t : root t ∈ locs t.
Proof. rewrite locs_unfold. by left. Qed.

Lemma flocs_app ts1 ts2 : flocs (ts1 ++ ts2) = flocs ts1 ++ flocs ts2.
Proof. induction ts1; cbn; [done|]. by rewrite IHts1, app_assoc. Qed.

Lemma elem_of_flocs l ts : l ∈ flocs ts ↔ ∃ t, t ∈ ts ∧ l ∈ locs t.
Proof.
  induction ts as [|t ts IH]; cbn [flocs].
  - split; [by intros ?%elem_of_nil | by intros (? & ?%elem_of_nil & _)].
  - rewrite elem_of_app, IH. split.
    + intros [H | (t' & Ht' & H)]; [exists t | exists t']; split; try done;
        [by left | by right].
    + intros (t' & [-> | Ht']%elem_of_cons & H); [by left | right; eauto].
Qed.

Lemma kid_locs t k : k ∈ kids t → ∀ l, l ∈ locs k → l ∈ locs t.
Proof.
  intros Hk l Hl. rewrite locs_unfold. right. apply elem_of_flocs. eauto.
Qed.

(** The store holds the tree [t]: at every node the object has the label,
    the url and the children of the node. *)
Inductive repr (h : gmap loc SitemapEntry) : tree → Prop :=
| repr_node l lb u ks :
    h !! l = Some {| label := lb; url := u; children := map root ks |} →
    Forall (repr h) ks →
    repr h (Node l lb u ks).

Lemma repr_root h t :
  repr h t →
  h !! root t = Some {| label := tlabel t; url := turl t; children := map root (kids t) |}.
Proof. by destruct 1. Qed.

Lemma repr_kids h t : repr h t → Forall (repr h) (kids t).
Proof. by destruct 1. Qed.

Lemma tree_size_ind (P : tree → Prop) :
  (∀ t, Forall P (kids t) → P t) → ∀ t, P t.
Proof.
  intros H t. induction t as [t IH] using (induction_ltof1 _ tsize). unfold ltof in IH.
  apply H. apply Forall_forall. intros k Hk. apply IH.
  rewrite (tsize_unfold t). clear -Hk.
  induction (kids t) as [|k' ks IHks]; [by apply elem_of_nil in Hk|].
  cbn [fsize]. apply elem_of_cons in Hk as [-> | Hk]; [lia|].
  specialize (IHks Hk). lia.
Qed.

(** Changing the store outside a tree leaves the tree in place. *)
Lemma repr_frame h h' t :
  repr h t → (∀ l, l ∈ locs t → h' !! l = h !! l) → repr h' t.
Proof.
  induction t as [t IH] using tree_size_ind. intros Hr Hagree.
  destruct t as [l lb u ks]. inversion Hr as [? ? ? ? Hl Hks]; subst.
  constructor.
  - rewrite Hagree; [done | apply (root_in_locs (Node l lb u ks))].
  - cbn [kids] in IH. rewrite Forall_forall in IH, Hks. apply Forall_forall.
    intros k Hk. apply IH; [done | by apply Hks|].
    intros l' Hl'. apply Hagree. by apply (kid_locs (Node l lb u ks) k).
Qed.

(** Pairwise-distinct labels at each level. *)
Inductive distinct : tree → Prop :=
| distinct_node l lb u ks :
    NoDup (map tlabel ks) → Forall distinct ks → distinct (Node l lb u ks).

Definition distinct_forest (ts : list tree) : Prop :=
  NoDup (map tlabel ts) ∧ Forall distinct ts.

Lemma distinct_kids t : distinct t → distinct_forest (kids t).
Proof. by destruct 1. Qed.

(** *** The label index *)

(** The index of the children [ts], by their trees. *)
Definition tree_index (ts : list tree) : gmap string loc :=
  fold_left (fun index t => <[tlabel t := root t]> index) ts ∅.

Lemma child_index_of_trees h ts :
  Forall (fun t => ∃ e, h !! root t = Some e ∧ label e = tlabel t) ts →
  child_index_of h (map root ts) = tree_index ts.
Proof.
  unfold child_index_of, tree_index. intros H. generalize (∅ : gmap string loc).
  induction H as [|t ts (e & He & Hl) _ IH]; intros index; [done|].
  cbn [map fold_left]. rewrite He, Hl. apply IH.
Qed.

Lemma tree_index_snoc ts t :
  tree_index (ts ++ [t]) = <[tlabel t := root t]> (tree_index ts).
Proof. unfold tree_index. by rewrite fold_left_app. Qed.

Lemma tree_index_lookup ts lb l :
  tree_index ts !! lb = Some l → ∃ t, t ∈ ts ∧ tlabel t = lb ∧ root t = l.
Proof.
  induction ts as [|t ts IH] using rev_ind; [by unfold tree_index; cbn; rewrite lookup_empty|].
  rewrite tree_index_snoc. destruct (decide (tlabel t = lb)) as [<- | Hne].
  - rewrite lookup_insert_eq. intros [= <-]. exists t. split; [|done].
    apply elem_of_app. right. by left.
  - rewrite lookup_insert_ne by done. intros (t' & Ht' & H)%IH.
    exists t'. split; [|done]. apply elem_of_app. by left.
Qed.

Lemma tree_index_lookup_distinct ts t :
  NoDup (map tlabel ts) → t ∈ ts → tree_index ts !! tlabel t = Some (root t).
Proof.
  induction ts as [|t' ts IH] using rev_ind; [by intros _ ?%elem_of_nil|].
  rewrite map_app, tree_index_snoc. cbn [map].
  intros [Hnd [Hdisj _]]%NoDup_app [Hin | ->%list_elem_of_singleton]%elem_of_app.
  - rewrite lookup_insert_ne; [by apply IH|].
    intros Heq. apply (Hdisj (tlabel t)).
    + apply list_elem_of_fmap. by exists t.
    + rewrite Heq. by left.
  - by rewrite lookup_insert_eq.
Qed.


(** *** Entries that a tree has taken in *)

(** [absorbed D h m xs]: in the store [h], every tree [x] of [xs] finds,
    under its label in the index of [m]'s children, a child with its url
    which in turn has absorbed the children of [x].  These are the entries
    for which [extend] takes the merging branch all the way down.  [D]
    covers the objects that this depends on. *)
Inductive absorbed (D : gset loc) (h : gmap loc SitemapEntry) : loc → list tree → Prop :=
| absorbed_intro m me xs :
    h !! m = Some me →
    m ∈ D →
    Forall (fun c => c ∈ D) (children me) →
    Forall (fun x => ∃ mx ex,
              child_index_of h (children me) !! tlabel x = Some mx
              ∧ h !! mx = Some ex ∧ url ex = turl x
              ∧ absorbed D h mx (kids x)) xs →
    absorbed D h m xs.

Lemma child_index_of_frame h h' cs :
  Forall (fun c => h' !! c = h !! c) cs → child_index_of h' cs = child_index_of h cs.
Proof.
  unfold child_index_of. intros H. generalize (∅ : gmap string loc).
  induction H as [|c cs Hc _ IH]; intros index; [done|].
  cbn [fold_left]. rewrite Hc. apply IH.
Qed.

Lemma forest_size_ind (P : list tree → Prop) :
  (∀ ts, (∀ ts', fsize ts' < fsize ts → P ts') → P ts) → ∀ ts, P ts.
Proof. intros H ts. induction ts as [ts IH] using (induction_ltof1 _ fsize). by apply H. Qed.

Lemma fsize_elem x ts : x ∈ ts → fsize (kids x) < fsize ts.
Proof.
  induction ts as [|t ts IH]; [by intros ?%elem_of_nil|].
  cbn [fsize]. intros [-> | Hx]%elem_of_cons.
  - rewrite (tsize_unfold t). lia.
  - specialize (IH Hx). lia.
Qed.

Lemma absorbed_frame D h h' m xs :
  absorbed D h m xs → (∀ l, l ∈ D → h' !! l = h !! l) → absorbed D h' m xs.
Proof.
  revert m. induction xs as [xs IH] using forest_size_ind.
  intros m Ha Hagree. destruct Ha as [m me xs Hm HmD Hcs Hxs].
  apply (absorbed_intro D h' m me); [by rewrite Hagree | done | done |].
  rewrite (child_index_of_frame h h').
  2:{ eapply Forall_impl; [exact Hcs|]. intros c Hc. by apply Hagree. }
  apply Forall_forall. intros x Hx. rewrite Forall_forall in Hxs.
  destruct (Hxs x Hx) as (mx & ex & Hi & Hmx & Hu & Hax).
  exists mx, ex. split; [done|].
  assert (mx ∈ D) by (by destruct Hax).
  split; [by rewrite Hagree|]. split; [done|].
  apply IH; [by apply fsize_elem | done | done].
Qed.

Lemma absorbed_mono D D' h m xs :
  absorbed D h m xs → D ⊆ D' → absorbed D' h m xs.
Proof.
  revert m. induction xs as [xs IH] using forest_size_ind.
  intros m Ha Hsub. destruct Ha as [m me xs Hm HmD Hcs Hxs].
  apply (absorbed_intro D' h m me); [done | set_solver | |].
  - eapply Forall_impl; [exact Hcs|]. set_solver.
  - apply Forall_forall. intros x Hx. rewrite Forall_forall in Hxs.
    destruct (Hxs x Hx) as (mx & ex & Hi & Hmx & Hu & Hax).
    exists mx, ex. repeat (split; [done|]). apply IH; [by apply fsize_elem | done | done].
Qed.

(** A tree with distinct labels at each level has absorbed its own
    children. *)
Lemma absorbed_self h x :
  repr h x → distinct x → absorbed (list_to_set (locs x)) h (root x) (kids x).
Proof.
  induction x as [x IH] using tree_size_ind. intros Hr Hd.
  pose proof (repr_root _ _ Hr) as Hroot. pose proof (repr_kids _ _ Hr) as Hkids.
  destruct (distinct_kids _ Hd) as [Hnd Hdk].
  eapply absorbed_intro; [exact Hroot | | |].
  - apply elem_of_list_to_set, root_in_locs.
  - cbn [children]. apply Forall_forall. intros c (k & -> & Hk)%list_elem_of_fmap.
    apply elem_of_list_to_set. apply (kid_locs x k Hk), root_in_locs.
  - cbn [children]. rewrite (child_index_of_trees h (kids x)).
    2:{ eapply Forall_impl; [exact Hkids|]. intros k Hk%repr_root. eauto. }
    apply Forall_forall. intros k Hk.
    rewrite Forall_forall in IH, Hkids, Hdk.
    eexists (root k), _. split; [by apply tree_index_lookup_distinct|].
    split; [apply repr_root; by apply Hkids|]. split; [done|].
    eapply absorbed_mono; [apply IH; [done | by apply Hkids | by apply Hdk]|].
    intros l Hl%elem_of_list_to_set. apply elem_of_list_to_set.
    by apply (kid_locs x k Hk).
Qed.
(** *** Extending with absorbed entries changes nothing *)

Lemma lookup_map_root_middle (done todo : list tree) x :
  map root (done ++ x :: todo) !! length done = Some (root x).
Proof.
  rewrite map_app. cbn [map].
  rewrite lookup_app_r by (by rewrite length_map).
  by rewrite length_map, Nat.sub_diag.
Qed.

Lemma lookup_map_root_end (done : list tree) :
  map root done !! length done = None.
Proof. apply lookup_ge_None. by rewrite length_map. Qed.

Lemma extend_loop_absorbed D h todo :
  ∀ m me src index done,
    h !! m = Some me →
    read h src = map root (done ++ todo) →
    Forall (repr h) todo →
    Forall (fun x => ∃ mx ex,
              index !! tlabel x = Some mx ∧ h !! mx = Some ex ∧ url ex = turl x
              ∧ absorbed D h mx (kids x)) todo →
    ∃ f0, ∀ f, f0 ≤ f → extend_loop f h m src index (length done) = Done h.
Proof.
  induction todo as [todo IH] using forest_size_ind.
  intros m me src index done Hm Hread Hrepr Habs.
  destruct todo as [|x todo].
  - exists 1. intros [|f] Hf; [lia|]. cbn [extend_loop].
    by rewrite Hread, app_nil_r, lookup_map_root_end.
  - apply Forall_cons in Hrepr as [Hx Hrepr].
    apply Forall_cons in Habs as [(mx & ex & Hi & Hmx & Hu & Hax) Habs].
    pose proof (repr_root _ _ Hx) as Hroot.
    (* the call match.extend(e.children) *)
    inversion Hax as [? ex' ? Hmx' _ _ Hkxs]; subst.
    assert (ex' = ex) as -> by congruence.
    destruct (IH (kids x)) with (m := mx) (me := ex) (src := ChildrenOf (root x))
      (index := child_index_of h (children ex)) (done := @nil tree) as [f1 Hf1];
      [cbn [fsize]; rewrite (tsize_unfold x); lia | done | | by apply repr_kids | done |].
    { cbn [read app]. by rewrite Hroot. }
    (* the rest of the loop *)
    destruct (IH todo) with (m := m) (me := me) (src := src) (index := index)
      (done := done ++ [x]) as [f2 Hf2];
      [cbn [fsize]; rewrite (tsize_unfold x); lia | done | | done | done |].
    { by rewrite <- app_assoc. }
    exists (S (f1 `max` f2)). intros [|f] Hf; [lia|]. cbn [extend_loop].
    rewrite Hread, lookup_map_root_middle, Hroot, Hm. cbn [label url].
    rewrite Hi, Hmx. rewrite decide_True by done.
    cbn [length] in Hf1. rewrite Hf1 by lia.
    rewrite length_app in Hf2. cbn [length] in Hf2.
    replace (S (length done)) with (length done + 1) by lia.
    apply Hf2. lia.
Qed.

Lemma extend_absorbed D h m xs src :
  absorbed D h m xs →
  Forall (repr h) xs →
  read h src = map root xs →
  ∃ f0, ∀ f, f0 ≤ f → extend f h m src = Done h.
Proof.
  intros Ha Hrepr Hread. destruct Ha as [m me xs Hm _ _ Hxs].
  destruct (extend_loop_absorbed D h xs m me src (child_index_of h (children me)) [])
    as [f0 Hf0]; try done.
  exists f0. intros f Hf. unfold extend. rewrite Hm. by apply Hf0.
Qed.
(** *** The first call *)

Lemma forest_disjoint ts c t :
  NoDup (flocs ts) → c ∈ ts → t ∈ ts → c = t ∨ ∀ l, l ∈ locs c → l ∉ locs t.
Proof.
  induction ts as [|a ts IH]; [by intros _ ?%elem_of_nil|].
  cbn [flocs]. intros (Ha & Hdisj & Hts)%NoDup_app.
  intros [-> | Hc]%elem_of_cons [-> | Ht]%elem_of_cons.
  - by left.
  - right. intros l Hl Hl'. apply (Hdisj l Hl). apply elem_of_flocs. eauto.
  - right. intros l Hl Hl'. apply (Hdisj l Hl'). apply elem_of_flocs. eauto.
  - by apply IH.
Qed.

Lemma root_not_in_kids T : NoDup (locs T) → root T ∉ flocs (kids T).
Proof. rewrite locs_unfold. by intros [? _]%NoDup_cons. Qed.

Lemma kids_nodup T : NoDup (locs T) → NoDup (flocs (kids T)).
Proof. rewrite locs_unfold. by intros [_ ?]%NoDup_cons. Qed.

Lemma kid_nodup T t : NoDup (locs T) → t ∈ kids T → NoDup (locs t).
Proof.
  intros H%kids_nodup Ht. induction (kids T) as [|a ts IH]; [by apply elem_of_nil in Ht|].
  cbn [flocs] in H. apply NoDup_app in H as (Ha & _ & Hts).
  apply elem_of_cons in Ht as [-> | Ht]; [done | by apply IH].
Qed.

Lemma kid_root_ne T t l : NoDup (locs T) → t ∈ kids T → l ∈ locs t → l ≠ root T.
Proof.
  intros HT Ht Hl ->. apply (root_not_in_kids T HT). apply elem_of_flocs. eauto.
Qed.

Section first_call.
Context (T : tree) (txs : list tree) (h0 : gmap loc SitemapEntry).
Context (HT : NoDup (locs T)).
Context (Hfrozen : Forall (repr h0) txs).
Context (Hfresh : ∀ l, l ∈ locs T → l ∉ flocs txs).
Context (Hdistinct : distinct_forest txs).

Let D : gset loc := list_to_set (locs T) ∪ list_to_set (flocs txs).

(** The state of the loop of [self.extend(txs)] when the entries [done]
    have been handled, [app] of which were appended. *)
Definition inv (h : gmap loc SitemapEntry) (index : gmap string loc)
    (app done : list tree) : Prop :=
  (∀ l, l ∉ locs T → h !! l = h0 !! l)
  ∧ h !! root T = Some {| label := tlabel T; url := turl T;
                          children := map root (kids T ++ app) |}
  ∧ index = tree_index (kids T ++ app)
  ∧ Forall (fun c => (tlabel c ∉ map tlabel done) → repr h c) (kids T)
  ∧ Forall (fun c => ∃ ec, h !! root c = Some ec ∧ label ec = tlabel c) (kids T)
  ∧ Forall (fun a => a ∈ done) app
  ∧ Forall (fun x => ∃ (Dx : gset loc) mx ex,
              index !! tlabel x = Some mx ∧ h !! mx = Some ex ∧ url ex = turl x
              ∧ absorbed Dx h mx (kids x)
              ∧ (root T ∉ Dx) ∧ Dx ⊆ D
              ∧ Forall (fun c => (tlabel c ∉ map tlabel done) →
                                 ∀ l, l ∈ locs c → l ∉ Dx) (kids T)) done.

Lemma frozen_locs x l : x ∈ txs → l ∈ locs x → l ∉ locs T.
Proof. intros Hx Hl HlT. apply (Hfresh l HlT). apply elem_of_flocs. eauto. Qed.

Lemma frozen_repr h x :
  (∀ l, l ∉ locs T → h !! l = h0 !! l) → x ∈ txs → repr h x.
Proof.
  intros Hagree Hx. rewrite Forall_forall in Hfrozen.
  apply (repr_frame h0); [by apply Hfrozen|].
  intros l Hl. apply Hagree. by eapply frozen_locs.
Qed.

Lemma not_elem_of_labels_snoc (c x : tree) (done : list tree) :
  (tlabel c ∉ map tlabel (done ++ [x])) →
  (tlabel c ∉ map tlabel done) ∧ tlabel c ≠ tlabel x.
Proof.
  rewrite map_app. cbn [map]. intros H. split.
  - intros Hin. apply H, elem_of_app. by left.
  - intros Heq. apply H, elem_of_app. right. rewrite Heq. by left.
Qed.

Lemma inv_append h index app done x :
  inv h index app done →
  x ∈ txs → tlabel x ∉ map tlabel done →
  inv (<[root T := {| label := tlabel T; url := turl T;
                      children := map root (kids T ++ app) ++ [root x] |}]> h)
      (<[tlabel x := root x]> index) (app ++ [x]) (done ++ [x]).
Proof.
  intros (H1 & H2 & H3 & H4 & H5 & H6 & H7) Hx Hfreshlabel.
  set (h' := <[root T := _]> h).
  assert (Hother : ∀ l, l ≠ root T → h' !! l = h !! l)
    by (intros l Hl; unfold h'; by rewrite lookup_insert_ne).
  assert (H1' : ∀ l, l ∉ locs T → h' !! l = h0 !! l).
  { intros l Hl. rewrite Hother; [by apply H1|]. intros ->. apply Hl, root_in_locs. }
  assert (Hkid : ∀ c l, c ∈ kids T → l ∈ locs c → h' !! l = h !! l).
  { intros c l Hc Hl. apply Hother. by eapply kid_root_ne. }
  pose proof (frozen_repr h' x H1' Hx) as Hxr.
  split; [exact H1'|]. split.
  { unfold h'. rewrite lookup_insert_eq. do 2 f_equal.
    by rewrite app_assoc, (map_app _ (kids T ++ app)). }
  split; [by rewrite H3, app_assoc, tree_index_snoc|]. split.
  { apply Forall_forall. intros c Hc [Hl _]%not_elem_of_labels_snoc.
    rewrite Forall_forall in H4. apply (repr_frame h); [by apply H4|].
    intros l Hl'. by eapply Hkid. }
  split.
  { apply Forall_forall. intros c Hc. rewrite Forall_forall in H5.
    destruct (H5 c Hc) as (ec & Hec & Hlab). exists ec. split; [|done].
    rewrite (Hkid c); [done | done | apply root_in_locs]. }
  split.
  { apply Forall_app. split; [|by repeat constructor; apply elem_of_app; right; left].
    eapply Forall_impl; [exact H6|]. intros a Ha. apply elem_of_app. by left. }
  apply Forall_app. split.
  - apply Forall_forall. intros x' Hx'. rewrite Forall_forall in H7.
    destruct (H7 x' Hx') as (Dx & mx & ex & Hi & Hmx & Hu & Ha & HT' & HD & Hc).
    assert (HagreeD : ∀ l, l ∈ Dx → h' !! l = h !! l).
    { intros l Hl. apply Hother. by intros ->. }
    exists Dx, mx, ex. split.
    { rewrite lookup_insert_ne; [done|]. intros Heq. apply Hfreshlabel.
      rewrite Heq. apply list_elem_of_fmap. by exists x'. }
    split; [rewrite HagreeD; [done | by destruct Ha]|].
    split; [done|]. split; [by apply (absorbed_frame Dx h)|].
    split; [done|]. split; [done|].
    eapply Forall_impl; [exact Hc|]. intros c Hcl [Hl _]%not_elem_of_labels_snoc.
    by apply Hcl.
  - repeat constructor. eexists (list_to_set (locs x)), (root x), _.
    split; [by rewrite lookup_insert_eq|].
    split; [by apply repr_root|]. split; [done|].
    split; [apply absorbed_self; [done|] |].
    { destruct Hdistinct as [_ Hd]. rewrite Forall_forall in Hd. by apply Hd. }
    split.
    { intros Hin%elem_of_list_to_set. by apply (frozen_locs x (root T) Hx Hin), root_in_locs. }
    split.
    { intros l Hl%elem_of_list_to_set. apply elem_of_union. right.
      apply elem_of_list_to_set, elem_of_flocs. eauto. }
    apply Forall_forall. intros c Hc _ l Hl Hlx%elem_of_list_to_set.
    apply (frozen_locs x l Hx Hlx). by apply (kid_locs T c).
Qed.

Lemma inv_merge h h' index app done x t cs :
  inv h index app done →
  x ∈ txs → tlabel x ∉ map tlabel done →
  t ∈ kids T → tlabel t = tlabel x → turl t = turl x →
  index !! tlabel x = Some (root t) →
  (∀ l, l ∉ locs t → h' !! l = h !! l) →
  h' !! root t = Some {| label := tlabel t; url := turl t; children := cs |} →
  absorbed (list_to_set (locs t) ∪ list_to_set (flocs (kids x))) h' (root t) (kids x) →
  inv h' index app (done ++ [x]).
Proof.
  intros (H1 & H2 & H3 & H4 & H5 & H6 & H7) Hx Hfreshlabel Ht Hlabel Hurl Hi Hagree
    Hroot Habs.
  assert (HtT : ∀ l, l ∈ locs t → l ∈ locs T) by (by apply kid_locs).
  assert (Hother : ∀ c, c ∈ kids T → tlabel c ≠ tlabel x →
                        ∀ l, l ∈ locs c → l ∉ locs t).
  { intros c Hc Hne.
    destruct (forest_disjoint (kids T) c t (kids_nodup T HT) Hc Ht) as [-> | Hd];
      [by rewrite Hlabel in Hne | done]. }
  split.
  { intros l Hl. rewrite Hagree; [by apply H1|]. intros Hlt. apply Hl. by apply HtT. }
  split.
  { rewrite Hagree; [done|]. intros Hin. by apply (kid_root_ne T t _ HT Ht Hin). }
  split; [done|]. split.
  { apply Forall_forall. intros c Hc [Hl Hne]%not_elem_of_labels_snoc.
    rewrite Forall_forall in H4. apply (repr_frame h); [by apply H4|].
    intros l Hl'. apply Hagree. by apply (Hother c). }
  split.
  { apply Forall_forall. intros c Hc. rewrite Forall_forall in H5.
    destruct (forest_disjoint (kids T) c t (kids_nodup T HT) Hc Ht) as [-> | Hd].
    - eexists. split; [exact Hroot | done].
    - destruct (H5 c Hc) as (ec & Hec & Hlab). exists ec. split; [|done].
      rewrite Hagree; [done|]. apply Hd, root_in_locs. }
  split.
  { eapply Forall_impl; [exact H6|]. intros a Ha. apply elem_of_app. by left. }
  apply Forall_app. split.
  - apply Forall_forall. intros x' Hx'. rewrite Forall_forall in H7.
    destruct (H7 x' Hx') as (Dx & mx & ex & Hi' & Hmx & Hu & Ha & HT' & HD & Hc).
    assert (HagreeD : ∀ l, l ∈ Dx → h' !! l = h !! l).
    { intros l Hl. apply Hagree. intros Hlt. rewrite Forall_forall in Hc.
      assert (Hnl : tlabel t ∉ map tlabel done) by (by rewrite Hlabel).
      exact (Hc t Ht Hnl l Hlt Hl). }
    exists Dx, mx, ex. split; [done|].
    split; [rewrite HagreeD; [done | by destruct Ha]|].
    split; [done|]. split; [by apply (absorbed_frame Dx h)|].
    split; [done|]. split; [done|].
    eapply Forall_impl; [exact Hc|]. intros c Hcl [Hl _]%not_elem_of_labels_snoc.
    by apply Hcl.
  - repeat constructor.
    eexists (list_to_set (locs t) ∪ list_to_set (flocs (kids x))), (root t), _.
    split; [done|]. split; [exact Hroot|]. split; [done|]. split; [done|].
    assert (Hkx : ∀ l, l ∈ flocs (kids x) → l ∈ flocs txs).
    { intros l (k & Hk & Hl)%elem_of_flocs. apply elem_of_flocs. exists x.
      split; [done|]. by apply (kid_locs x k). }
    split.
    { intros [Hin%elem_of_list_to_set | Hin%elem_of_list_to_set]%elem_of_union.
      - by apply (kid_root_ne T t _ HT Ht Hin).
      - apply (Hfresh (root T)); [apply root_in_locs | by apply Hkx]. }
    split.
    { intros l [Hl%elem_of_list_to_set | Hl%elem_of_list_to_set]%elem_of_union;
        apply elem_of_union; [left | right]; apply elem_of_list_to_set; auto. }
    apply Forall_forall. intros c Hc [_ Hne]%not_elem_of_labels_snoc l Hl.
    intros [Hin%elem_of_list_to_set | Hin%elem_of_list_to_set]%elem_of_union.
    + by apply (Hother c Hc Hne l).
    + apply (Hfresh l); [by apply (kid_locs T c) | by apply Hkx].
Qed.

End first_call.
(** What one call [T.extend(txs)] achieves when the trees [txs] are not
    part of [T] and have distinct labels at each level: it ends, touches
    only objects of [T], and leaves [T] having absorbed [txs]. *)
Definition first_call_spec (txs : list tree) : Prop :=
  ∀ T h0 src,
    repr h0 T → Forall (repr h0) txs → NoDup (locs T) →
    (∀ l, l ∈ locs T → l ∉ flocs txs) →
    distinct_forest txs →
    (∀ h, (∀ l, l ∉ locs T → h !! l = h0 !! l) → read h src = map root txs) →
    ∃ h1 f0,
      (∀ f, f0 ≤ f → extend f h0 (root T) src = Done h1)
      ∧ (∀ l, l ∉ locs T → h1 !! l = h0 !! l)
      ∧ (∃ cs, h1 !! root T
               = Some {| label := tlabel T; url := turl T; children := cs |})
      ∧ absorbed (list_to_set (locs T) ∪ list_to_set (flocs txs)) h1 (root T) txs.

Lemma first_loop T txs h0 src :
  NoDup (locs T) → Forall (repr h0) txs →
  (∀ l, l ∈ locs T → l ∉ flocs txs) →
  distinct_forest txs →
  (∀ h, (∀ l, l ∉ locs T → h !! l = h0 !! l) → read h src = map root txs) →
  (∀ x, x ∈ txs → first_call_spec (kids x)) →
  ∀ todo done app h index,
    txs = done ++ todo →
    inv T txs h0 h index app done →
    ∃ h1 index1 app1 f0,
      (∀ f, f0 ≤ f → extend_loop f h (root T) src index (length done) = Done h1)
      ∧ inv T txs h0 h1 index1 app1 txs.
Proof.
  intros HT Hfrozen Hfresh Hdistinct Hsrc IHC.
  induction todo as [|x todo IH]; intros done app h index Htxs Hinv.
  - rewrite app_nil_r in Htxs. subst done.
    exists h, index, app, 1. split; [|done].
    intros [|f] Hf; [lia|]. cbn [extend_loop].
    destruct Hinv as (H1 & _). by rewrite (Hsrc h H1), lookup_map_root_end.
  - assert (Hx : x ∈ txs) by (rewrite Htxs; apply elem_of_app; right; by left).
    assert (Hlx : tlabel x ∉ map tlabel done).
    { destruct Hdistinct as [Hnd _]. rewrite Htxs, map_app in Hnd. cbn [map] in Hnd.
      apply NoDup_app in Hnd as (_ & Hd & _). intros Hin. apply (Hd _ Hin). by left. }
    pose proof Hinv as (H1 & H2 & H3 & H4 & H5 & H6 & H7).
    pose proof (frozen_repr T txs h0 Hfrozen Hfresh h x H1 Hx) as Hxr.
    pose proof (repr_root _ _ Hxr) as Hxroot.
    assert (Hstep : ∀ f, extend_loop (S f) h (root T) src index (length done)
      = match index !! tlabel x with
        | Some m =>
            match h !! m with
            | Some found =>
                if decide (url found = turl x) then
                  match extend_loop f h m (ChildrenOf (root x))
                          (child_index_of h (children found)) 0 with
                  | Done h' => extend_loop f h' (root T) src index (S (length done))
                  | failed => failed
                  end
                else
                  extend_loop f
                    (<[root T := {| label := tlabel T; url := turl T;
                                    children := map root (kids T ++ app) ++ [root x] |}]> h)
                    (root T) src (<[tlabel x := root x]> index) (S (length done))
            | None => Dangling
            end
        | None =>
            extend_loop f
              (<[root T := {| label := tlabel T; url := turl T;
                              children := map root (kids T ++ app) ++ [root x] |}]> h)
              (root T) src (<[tlabel x := root x]> index) (S (length done))
        end).
    { intros f. cbn [extend_loop].
      by rewrite (Hsrc h H1), Htxs, lookup_map_root_middle, Hxroot, H2. }
    (* the run after the entry has been appended *)
    assert (Happ : ∃ h1 index1 app1 f0,
               (∀ f, f0 ≤ f →
                  extend_loop f
                    (<[root T := {| label := tlabel T; url := turl T;
                                    children := map root (kids T ++ app) ++ [root x] |}]> h)
                    (root T) src (<[tlabel x := root x]> index) (S (length done))
                  = Done h1)
               ∧ inv T txs h0 h1 index1 app1 txs).
    { edestruct (IH (done ++ [x]) (app ++ [x])) as (h1 & index1 & app1 & f0 & Hf0 & Hinv1);
        [by rewrite <- app_assoc | by apply inv_append |].
      exists h1, index1, app1, f0. split; [|done].
      intros f Hf. rewrite length_app in Hf0. cbn [length] in Hf0.
      replace (S (length done)) with (length done + 1) by lia. by apply Hf0. }
    destruct (index !! tlabel x) as [m|] eqn:Hi.
    + (* a child with this label *)
      assert (∃ t, t ∈ kids T ∧ tlabel t = tlabel x ∧ root t = m) as (t & Ht & Hlt & <-).
      { rewrite H3 in Hi. apply tree_index_lookup in Hi as (t & Hin & Hlt & Hrt).
        apply elem_of_app in Hin as [Hin | Hin]; [by exists t|].
        exfalso. apply Hlx. rewrite <- Hlt. rewrite Forall_forall in H6.
        apply list_elem_of_fmap. exists t. split; [done | by apply H6]. }
      assert (Htr : repr h t).
      { rewrite Forall_forall in H4. apply H4; [done | by rewrite Hlt]. }
      pose proof (repr_root _ _ Htr) as Htroot.
      destruct (decide (turl t = turl x)) as [Hu | Hu].
      * (* same url: match.extend(e.children) *)
        destruct (IHC x Hx t h (ChildrenOf (root x))) as (h' & f1 & Hf1 & Hagree & [cs Hroot] & Habs).
        -- done.
        -- by apply repr_kids.
        -- by apply (kid_nodup T).
        -- intros l Hl (k & Hk & Hlk)%elem_of_flocs.
           apply (Hfresh l); [by apply (kid_locs T t) |].
           apply elem_of_flocs. exists x. split; [done | by apply (kid_locs x k)].
        -- destruct Hdistinct as [_ Hd].
           rewrite Forall_forall in Hd. by apply distinct_kids, Hd.
        -- intros h'' Hh''. cbn [read]. rewrite Hh'', Hxroot; [done|].
           intros Hin. apply (frozen_locs T txs Hfresh x (root x) Hx (root_in_locs x)).
           by apply (kid_locs T t).
        -- destruct (IH (done ++ [x]) app h' index)
             as (h1 & index1 & app1 & f2 & Hf2 & Hinv1);
             [by rewrite <- app_assoc | by eapply inv_merge |].
           exists h1, index1, app1, (S (f1 `max` f2)). split; [|done].
           intros [|f] Hf; [lia|]. rewrite Hstep, Htroot. cbn [url children].
           rewrite decide_True by done.
           specialize (Hf1 f). unfold extend in Hf1. rewrite Htroot in Hf1.
           cbn [children] in Hf1. rewrite Hf1 by lia.
           rewrite length_app in Hf2. cbn [length] in Hf2.
           replace (S (length done)) with (length done + 1) by lia. apply Hf2. lia.
      * (* another url: append *)
        destruct Happ as (h1 & index1 & app1 & f0 & Hf0 & Hinv1).
        exists h1, index1, app1, (S f0). split; [|done].
        intros [|f] Hf; [lia|]. rewrite Hstep, Htroot. cbn [url].
        rewrite decide_False by done. apply Hf0. lia.
    + (* no child with this label: append *)
      destruct Happ as (h1 & index1 & app1 & f0 & Hf0 & Hinv1).
      exists h1, index1, app1, (S f0). split; [|done].
      intros [|f] Hf; [lia|]. rewrite Hstep. apply Hf0. lia.
Qed.
Lemma first_call txs : first_call_spec txs.
Proof.
  induction txs as [txs IHC] using forest_size_ind.
  intros T h0 src Hr Hfrozen HT Hfresh Hdistinct Hsrc.
  pose proof (repr_root _ _ Hr) as Hroot. pose proof (repr_kids _ _ Hr) as Hkids.
  assert (Hlabels : Forall (fun c => ∃ ec, h0 !! root c = Some ec ∧ label ec = tlabel c)
                      (kids T)).
  { eapply Forall_impl; [exact Hkids|]. intros c Hc%repr_root. eauto. }
  destruct (first_loop T txs h0 src HT Hfrozen Hfresh Hdistinct Hsrc) with
    (todo := txs) (done := @nil tree) (app := @nil tree) (h := h0)
    (index := tree_index (kids T))
    as (h1 & index1 & app1 & f0 & Hf0 & Hinv).
  { intros x Hx. apply IHC. by apply fsize_elem. }
  { done. }
  { split; [done|]. split; [by rewrite app_nil_r|]. split; [by rewrite app_nil_r|].
    split; [by eapply Forall_impl; [exact Hkids|]|]. split; [done|].
    split; constructor. }
  destruct Hinv as (H1 & H2 & H3 & H4 & H5 & H6 & H7).
  exists h1, f0. split.
  { intros f Hf. unfold extend. rewrite Hroot. cbn [children].
    rewrite (child_index_of_trees h0 (kids T) Hlabels). by apply Hf0. }
  split; [done|]. split; [by eexists|].
  eapply absorbed_intro; [exact H2 | | |].
  - apply elem_of_union. left. apply elem_of_list_to_set, root_in_locs.
  - cbn [children]. apply Forall_forall. intros c (k & -> & Hk)%list_elem_of_fmap.
    apply elem_of_union. apply elem_of_app in Hk as [Hk | Hk]; [left | right];
      apply elem_of_list_to_set.
    + apply (kid_locs T k Hk), root_in_locs.
    + rewrite Forall_forall in H6. apply elem_of_flocs. exists k.
      split; [by apply H6 | apply root_in_locs].
  - cbn [children]. rewrite (child_index_of_trees h1 (kids T ++ app1)).
    2:{ apply Forall_app. split; [done|]. apply Forall_forall. intros a Ha.
        rewrite Forall_forall in H6.
        pose proof (frozen_repr T txs h0 Hfrozen Hfresh h1 a H1 (H6 a Ha)) as Hra.
        apply repr_root in Hra. eauto. }
    rewrite <- H3. eapply Forall_impl; [exact H7|].
    intros x (Dx & mx & ex & Hi & Hmx & Hu & Ha & _ & HD & _).
    exists mx, ex. repeat (split; [done|]). by eapply absorbed_mono.
Qed.

(** C10 (amended): let the store hold a tree [T] of entries, no object
    occurring twice in it, and trees [txs] of further objects, none of them
    part of [T], with pairwise-distinct labels at each level.  Then
    [T.extend(txs)] ends, and calling it a second time with the same list
    ends and leaves the whole store, and so the children tree, as the first
    call left it: every incoming entry now finds a child with its label and
    url and is merged into it, recursively, instead of being appended. *)
Theorem extend_twice T txs h :
  repr h T →
  Forall (repr h) txs →
  NoDup (locs T) →
  (∀ l, l ∈ locs T → l ∉ flocs txs) →
  distinct_forest txs →
  ∃ h1 f0,
    (∀ f, f0 ≤ f → extend f h (root T) (Given (map root txs)) = Done h1)
    ∧ (∀ f, f0 ≤ f → extend f h1 (root T) (Given (map root txs)) = Done h1).
Proof.
  intros Hr Hfrozen HT Hfresh Hdistinct.
  destruct (first_call txs T h (Given (map root txs)))
    as (h1 & f1 & Hf1 & Hagree & _ & Habs); try done.
  destruct (extend_absorbed _ h1 (root T) txs (Given (map root txs)) Habs)
    as [f2 Hf2]; [|done|].
  { apply Forall_forall. intros x Hx.
    by apply (frozen_repr T txs h Hfrozen Hfresh). }
  exists h1, (f1 `max` f2). split; intros f Hf; [apply Hf1 | apply Hf2]; lia.
Qed.
(** *** Where a second call does change the tree *)

Definition entry (lb : string) (u : option string) (cs : list loc) : SitemapEntry :=
  {| label := lb; url := u; children := cs |}.

(** An empty menu, and two incoming entries that share their label but not
    their url. *)
Definition two_tabs : gmap loc SitemapEntry :=
  list_to_map [ (0, entry "Menu" None []);
                (1, entry "Docs" (Some "/docs/") []);
                (2, entry "Docs" (Some "/wiki/") []) ].

(** A menu with the entries [Admin], holding [Tools], and [Help].  The
    incoming list holds an [Admin] entry and two [Help] entries; the
    incoming [Admin] and the first [Help] share their child, the object 13. *)
Definition shared_child : gmap loc SitemapEntry :=
  list_to_map [ (0, entry "Menu" None [1; 2]);
                (1, entry "Admin" (Some "/admin/") [3]);
                (2, entry "Help" (Some "/help/") []);
                (3, entry "Tools" (Some "/tools/") []);
                (10, entry "Admin" (Some "/admin/") [13]);
                (11, entry "Help" (Some "/help/") [13]);
                (12, entry "Help" (Some "/help/") [14]);
                (13, entry "Tools" (Some "/tools/") []);
                (14, entry "Tools" (Some "/tools/") [15]);
                (15, entry "Import" None []) ].
Definition shared_before : tree :=
  Node 0 "Menu" None
    [ Node 1 "Admin" (Some "/admin/") [Node 3 "Tools" (Some "/tools/") []];
      Node 2 "Help" (Some "/help/") [] ].
Definition shared_after_one : tree :=
  Node 0 "Menu" None
    [ Node 1 "Admin" (Some "/admin/") [Node 3 "Tools" (Some "/tools/") []];
      Node 2 "Help" (Some "/help/")
        [Node 13 "Tools" (Some "/tools/") [Node 15 "Import" None []]] ].
Definition shared_after_two : tree :=
  Node 0 "Menu" None
    [ Node 1 "Admin" (Some "/admin/")
        [Node 3 "Tools" (Some "/tools/") [Node 15 "Import" None []]];
      Node 2 "Help" (Some "/help/")
        [Node 13 "Tools" (Some "/tools/") [Node 15 "Import" None []]] ].

(** C10, as the specification words it, in the reading most favourable to
    it: the tree has distinct labels at each level (and shares no object)
    before the first call and still has them before the second, and then the
    second call with the same list leaves the tree as it is. *)
Definition extend_idempotent : Prop :=
  ∀ h T es f1 h1 T1 f2 h2,
    repr h T → distinct T → NoDup (locs T) →
    extend f1 h (root T) (Given es) = Done h1 →
    repr h1 T1 → root T1 = root T → distinct T1 → NoDup (locs T1) →
    extend f2 h1 (root T) (Given es) = Done h2 →
    repr h2 T1.

Ltac distinct_tree :=
  repeat match goal with
         | |- NoDup _ => apply (bool_decide_unpack _); vm_compute; exact I
         | |- _ => constructor
         end.

(** C10 (counterexample): extending the empty menu twice with the two
    [Docs] entries appends them twice, [Menu.children] going from [1; 2] to
    [1; 2; 1; 2].  And in the second store the tree has distinct labels at
    each level before the first call and after it, yet the second call gives
    [Tools] under [Admin] the child [Import]: the first call merged the
    second [Help] entry into the appended object 13, which the incoming
    [Admin] entry holds as well. *)
Lemma extend_not_idempotent :
  (∃ h1 h2,
     extend 10 two_tabs 0 (Given [1; 2]) = Done h1
     ∧ children <$> h1 !! 0 = Some [1; 2]
     ∧ extend 10 h1 0 (Given [1; 2]) = Done h2
     ∧ children <$> h2 !! 0 = Some [1; 2; 1; 2])
  ∧ ¬ extend_idempotent.
Proof.
  split.
  - eexists _, _. split; [vm_compute; reflexivity|]. split; [vm_compute; reflexivity|].
    split; vm_compute; reflexivity.
  - intros Hclaim.
    assert (∃ h1 h2,
              extend 20 shared_child 0 (Given [10; 11; 12]) = Done h1
              ∧ extend 20 h1 0 (Given [10; 11; 12]) = Done h2
              ∧ repr h1 shared_after_one
              ∧ children <$> h2 !! 3 = Some [15]) as (h1 & h2 & Hh1 & Hh2 & Hr1 & H3).
    { eexists _, _. split; [vm_compute; reflexivity|]. split; [vm_compute; reflexivity|].
      split; [|vm_compute; reflexivity].
      unfold shared_after_one. repeat (constructor; [vm_compute; reflexivity|]).
      repeat constructor; vm_compute; reflexivity. }
    assert (Hr2 : repr h2 shared_after_one).
    { apply (Hclaim shared_child shared_before [10; 11; 12] 20 h1 shared_after_one 20 h2);
        try done.
      - unfold shared_before. repeat (constructor; [vm_compute; reflexivity|]).
        repeat constructor; vm_compute; reflexivity.
      - unfold shared_before. distinct_tree.
      - vm_compute. distinct_tree.
      - unfold shared_after_one. distinct_tree.
      - vm_compute. distinct_tree. }
    apply repr_kids in Hr2. cbn [kids shared_after_one] in Hr2.
    apply Forall_cons in Hr2 as [Hr2 _]. apply repr_kids in Hr2. cbn [kids] in Hr2.
    apply Forall_cons in Hr2 as [Hr2 _]. apply repr_root in Hr2.
    cbn [root tlabel turl kids map] in Hr2. rewrite Hr2 in H3. discriminate H3.
Qed.

(** A menu with a [Wiki] entry, extended by a [Wiki] entry that brings a
    new page and by a new [Tickets] entry. *)
Definition demo_store : gmap loc SitemapEntry :=
  list_to_map [ (0, entry "Menu" None [1]);
                (1, entry "Wiki" (Some "/wiki/") [2]);
                (2, entry "Home" (Some "/wiki/Home") []);
                (10, entry "Wiki" (Some "/wiki/") [11]);
                (11, entry "Pages" (Some "/wiki/pages") []);
                (12, entry "Tickets" (Some "/tickets/") []) ].
Definition demo_menu : tree :=
  Node 0 "Menu" None
    [Node 1 "Wiki" (Some "/wiki/") [Node 2 "Home" (Some "/wiki/Home") []]].
Definition demo_incoming : list tree :=
  [ Node 10 "Wiki" (Some "/wiki/") [Node 11 "Pages" (Some "/wiki/pages") []];
    Node 12 "Tickets" (Some "/tickets/") [] ].

Lemma extend_twice_witness :
  ∃ h1 f0,
    (∀ f, f0 ≤ f → extend f demo_store 0 (Given [10; 12]) = Done h1)
    ∧ (∀ f, f0 ≤ f → extend f h1 0 (Given [10; 12]) = Done h1).
Proof.
  apply (extend_twice demo_menu demo_incoming demo_store).
  - unfold demo_menu. repeat (constructor; [vm_compute; reflexivity|]).
    repeat constructor.
  - unfold demo_incoming.
    repeat (constructor; [repeat (constructor; [vm_compute; reflexivity|]);
                          repeat constructor|]).
    constructor.
  - vm_compute. distinct_tree.
  - apply (proj1 (Forall_forall (fun l => l ∉ flocs demo_incoming) (locs demo_menu))).
    apply (bool_decide_unpack _). vm_compute. exact I.
  - split; unfold demo_incoming; distinct_tree.
Defined.

End SitemapFacts.

(** ** [mail_util.py]: more on the outbound path *)

Module OutboundFacts.
Import PyStr PyStrFacts MailUtil SMTP SMTPFacts SendmailFacts.

(** X1: when [send_raw] returns normally the message has been handed over:
    the last thing on the wire is the delivery of exactly the given sender,
    recipients and content, the server accepted it, and the client holds a
    connection. *)
Theorem send_raw_returns_delivered srv f a c self s' :
  send_raw srv f a c self = (Return tt, s') →
  (∃ w, wire s' = w ++ [Sendmail f a c])
  ∧ srv (wire s') = None
  ∧ is_Some (_client s').
Proof.
  destruct (ensure_client srv self) as [[[]|e0] s1] eqn:H1.
  - rewrite (send_raw_from _ _ _ _ _ _ H1). cbn zeta.
    destruct (ensure_client_connected _ _ _ H1) as [k Hk].
    destruct (srv (wire s1 ++ [Sendmail f a c])) as [e|] eqn:Hs.
    + destruct (retries e); [|discriminate].
      rewrite reconnect_resend. cbn [wire _client].
      destruct (srv ((wire s1 ++ [Sendmail f a c]) ++ [Connect])); [discriminate|].
      destruct (srv (((wire s1 ++ [Sendmail f a c]) ++ [Connect]) ++ [Sendmail f a c]))
        eqn:Hs2; [discriminate|].
      intros [= <-]. cbn [wire _client]. split; [by eexists|]. split; [done | by eexists].
    + intros [= <-]. cbn [wire _client]. split; [by eexists|]. split; [done|].
      rewrite Hk. by eexists.
  - unfold send_raw, bind. rewrite H1. discriminate.
Qed.



Lemma send_raw_returns_delivered_witness :
  let out := send_raw server_hiccup "noreply@forge" ["dev@example.com"] "hello"
               {| _client := None; wire := [] |} in
  server_hiccup (wire out.2) = None ∧ is_Some (_client out.2).
Proof.
  intros out.
  destruct (send_raw_returns_delivered server_hiccup "noreply@forge" ["dev@example.com"]
              "hello" {| _client := None; wire := [] |} out.2 eq_refl) as (_ & H1 & H2).
  by split.
Defined.

(** *** What [sendmail] hands to the server *)


Lemma longest_header_len_bound message :
  Forall (fun h => (Z.of_nat (String.length h.1) ≤ longest_header_len message)%Z)
    (msg_headers message).
Proof.
  unfold longest_header_len. induction (msg_headers message) as [|h hs IH]; [constructor|].
  cbn [map fold_right]. constructor; [lia|].
  eapply Forall_impl; [exact IH|]. cbn beta. intros; lia.
Qed.

Lemma longest_header_len_attained message :
  msg_headers message ≠ [] →
  Exists (fun h => Z.of_nat (String.length h.1) = longest_header_len message)
    (msg_headers message).
Proof.
  unfold longest_header_len. induction (msg_headers message) as [|h hs IH]; [done|].
  intros _. cbn [map fold_right].
  destruct (Z.max_spec (Z.of_nat (String.length h.1))
              (fold_right Z.max 0%Z (map (fun h => Z.of_nat (String.length h.1)) hs)))
    as [[Hlt ->] | [Hle ->]].
  - apply Exists_cons_tl. apply IH. intros ->. cbn in Hlt. lia.
  - by apply Exists_cons_hd.
Qed.

Section sendmail.
Context (noreply return_path : string).
Context (isvalid : string → bool).
Context (really_unicode : string → string).
Context (formatdate : string).
Context (as_string : Z → EmailMessage → string).
Context (header_max_count : string → option nat).
Context (header_store_parse : string → string → result string).
Context (srv : server).

Let send := sendmail noreply return_path isvalid really_unicode formatdate
              as_string header_max_count header_store_parse srv.

(** The line length given to [as_string] leaves room for the longest
    header name, its colon and a space within [MAX_MAIL_LINE_OCTETS], and
    for no more than that. *)
Definition within_budget (n : Z) (message : EmailMessage) : Prop :=
  Forall (fun h => (Z.of_nat (String.length h.1) + 2 + n ≤ 990)%Z) (msg_headers message)
  ∧ Exists (fun h => (Z.of_nat (String.length h.1) + 2 + n = 990)%Z) (msg_headers message).

(** X2: every delivery [sendmail] puts on the wire goes from the
    configured return path to exactly the valid SMTP addresses of the
    recipients (the given ones in their order, then [cc]), and carries the
    message with its new headers, the old ones kept in front, serialised
    with a header line length that fits the longest header name, colon and
    space into 990 octets. *)
Theorem sendmail_delivery addrs fromaddr reply_to subject message_id
    in_reply_to message sender references cc to self :
  let out := send addrs fromaddr reply_to subject message_id in_reply_to
               message sender references cc to self in
  ∃ evs, wire out.2 = wire self ++ evs
    ∧ Forall (fun ev =>
                ev = Connect
                ∨ ∃ m' n,
                    add_headers really_unicode formatdate header_max_count
                      header_store_parse addrs fromaddr reply_to subject message_id
                      in_reply_to message sender references cc to
                    = Return (m', recipients addrs cc)
                    ∧ msg_headers message `prefix_of` msg_headers m'
                    ∧ within_budget n m'
                    ∧ ev = Sendmail return_path (valid_smtp_addrs noreply isvalid addrs cc)
                             (as_string n m')) evs.
Proof.
  intros out. subst out send. unfold sendmail.
  destruct addrs as [|a0 addrs0] eqn:Ha.
  { exists []. by rewrite app_nil_r. }
  rewrite <- Ha. clear Ha.
  destruct (add_headers _ _ _ _ _ _ _ _ _ _ _ _ _ _ _) as [[m' addrs']|e] eqn:Hh;
    [|exists []; by rewrite app_nil_r].
  destruct (add_headers_returns _ _ _ _ _ _ _ _ _ _ _ _ _ _ _ _ _ Hh)
    as (-> & tv & more & Hm).
  fold (valid_smtp_addrs noreply isvalid addrs cc).
  destruct (valid_smtp_addrs noreply isvalid addrs cc) as [|v vs] eqn:Hf;
    [exists []; by rewrite app_nil_r|].
  unfold SMTP.bind.
  set (n := (Z.of_nat MAX_MAIL_LINE_OCTETS - (2 + longest_header_len m'))%Z).
  destruct (send_raw_wire srv return_path (v :: vs) (as_string n m') self)
    as (evs & Hw & Hevs).
  exists evs. split.
  - revert Hw. by destruct (send_raw _ _ _ _ _) as [[[]|?] ?].
  - eapply Forall_impl; [exact Hevs|]. intros ev [-> | ->]; [by left|]. right.
    exists m', n. split; [done|].
    split; [rewrite Hm; by eexists|]. split; [|done].
    unfold within_budget, n, MAX_MAIL_LINE_OCTETS. split.
    + eapply Forall_impl; [apply longest_header_len_bound|]. cbn beta. intros; lia.
    + eapply Exists_impl; [apply longest_header_len_attained|].
      * rewrite Hm. by destruct (msg_headers message).
      * cbn beta. intros; lia.
Qed.


End sendmail.


End OutboundFacts.

(** ** [mail_util.py]: message ids and address headers *)

Module HeaderFacts.
Import PyStr PyStrFacts MailUtil SendmailFacts MessageFacts SearchFacts.

Lemma contains_char_append c a b :
  contains_char c (a +:+ b) = contains_char c a || contains_char c b.
Proof.
  induction a as [|x a IH]; rewrite ?append_nil, ?append_cons; [done|].
  cbn [contains_char]. by rewrite IH, orb_assoc.
Qed.

(** The pieces of [s.split(c)] hold no [c], and no character that [s]
    does not hold. *)
Lemma split_pieces c d s :
  Forall (fun w => contains_char c w = false
                   ∧ (contains_char d s = false → contains_char d w = false))
    (split c s).
Proof.
  induction s as [|a s IH]; cbn [split].
  - by repeat constructor.
  - destruct (Ascii.eqb a c) eqn:Hac.
    + constructor; [done|]. eapply Forall_impl; [exact IH|]. cbn beta.
      intros w [H1 H2]. split; [done|]. cbn [contains_char].
      intros [_ H]%orb_false_elim. auto.
    + destruct (split c s) as [|w ws].
      { constructor; [|constructor]. cbn [contains_char]. rewrite Hac.
        split; [done|]. by intros [-> _]%orb_false_elim. }
      apply Forall_cons in IH as [[H1 H2] IH]. constructor.
      * cbn [contains_char]. rewrite Hac, H1. split; [done|].
        intros [-> H]%orb_false_elim. cbn. auto.
      * eapply Forall_impl; [exact IH|]. cbn beta.
        intros w' [H1' H2']. split; [done|]. cbn [contains_char].
        intros [_ H]%orb_false_elim. auto.
Qed.

Lemma group1_clean inner :
  contains_char ">" inner = false →
  contains_char ">" (group1 inner) = false ∧ contains_char "/" (group1 inner) = false.
Proof.
  intros Hin. unfold group1.
  pose proof (split_pieces "/" ">" inner) as H.
  destruct (split "/" inner) as [|w ws] eqn:Hs using rev_ind; [done|].
  rewrite last_last. apply Forall_app in H as [_ H].
  apply Forall_cons in H as [[H1 H2] _]. auto.
Qed.

Lemma finditer_clean inside s :
  (∀ inner, inside = Some inner → contains_char ">" inner = false) →
  Forall (fun id => contains_char ">" id = false ∧ contains_char "/" id = false)
    (finditer_group1 inside s).
Proof.
  revert inside. induction s as [|a s IH]; intros inside Hin; [constructor|].
  cbn [finditer_group1]. destruct inside as [inner|].
  - destruct (Ascii.eqb a ">") eqn:Ha.
    + constructor; [apply group1_clean; auto | apply IH; discriminate].
    + apply IH. intros ? [= <-]. rewrite contains_char_append, (Hin inner eq_refl).
      cbn. by rewrite Ha.
  - destruct (Ascii.eqb a "<"); apply IH; [by intros ? [= <-] | discriminate].
Qed.

(** X4: no id that [_parse_message_id] extracts holds a ['>'] or a ['/']:
    a match ends at the first ['>'], and group 1 starts after the last
    ['/'] before it. *)
Theorem parse_message_id_clean msgid id :
  id ∈ _parse_message_id msgid →
  contains_char ">" id = false ∧ contains_char "/" id = false.
Proof.
  destruct msgid as [s|]; cbn [_parse_message_id]; [|by intros ?%elem_of_nil].
  intros Hin.
  pose proof (finditer_clean None s) as H. rewrite Forall_forall in H.
  apply H; [discriminate | done].
Qed.

Lemma parse_message_id_clean_witness :
  contains_char ">" "c@forge" = false ∧ contains_char "/" "c@forge" = false.
Proof.
  apply (parse_message_id_clean (Some "<a@forge> <b/c@forge>") "c@forge").
  apply (bool_decide_unpack _). vm_compute. exact I.
Defined.

(** *** Writing ids with [sendmail], reading them with [_parse_message_id] *)

Lemma Header_join text more_text :
  Header text more_text = join " " (text :: more_text).
Proof.
  unfold Header. revert text.
  induction more_text as [|m ms IH]; intros text; [done|].
  cbn [fold_left]. rewrite IH. cbn [join].
  destruct ms; [done|]. by rewrite !append_assoc.
Qed.

Definition bracket (r : string) : string := "<" +:+ r +:+ ">".

Lemma join_cons sep w w' ws :
  join sep (w :: w' :: ws) = w +:+ sep +:+ join sep (w' :: ws).
Proof. reflexivity. Qed.

Lemma bracket_app r s :
  bracket r +:+ s = EmptyString +:+ String "<" (r +:+ String ">" s).
Proof.
  unfold bracket. by rewrite !append_assoc, !append_cons, !append_nil.
Qed.

Lemma finditer_join_brackets refs :
  Forall (fun r => contains_char ">" r = false) refs →
  finditer_group1 None (join " " (map bracket refs)) = map group1 refs.
Proof.
  induction 1 as [|r refs Hr Hrefs IH]; [done|].
  destruct refs as [|r' refs]; cbn [map] in *.
  - cbn [join]. assert (bracket r = bracket r +:+ EmptyString) as ->.
    { clear. induction (bracket r); rewrite ?append_nil, ?append_cons; congruence. }
    by rewrite bracket_app, finditer_first.
  - rewrite join_cons, bracket_app, finditer_first by done.
    by rewrite finditer_skip, IH.
Qed.

Lemma get_header_app hs1 hs2 name :
  get_header hs1 name = None → get_header (hs1 ++ hs2) name = get_header hs2 name.
Proof.
  induction hs1 as [|[k v] hs1 IH]; [done|]. cbn [get_header app].
  by destruct (String.eqb (lower k) (lower name)).
Qed.

(** An id that the pattern gives back as it is. *)
Definition clean_id (id : string) : Prop :=
  contains_char ">" id = false ∧ contains_char "/" id = false.

(** The id of the message replied to, as far as [sendmail] writes it. *)
Definition reply_ids (in_reply_to : option (string + list string)) : list string :=
  match in_reply_to with
  | Some (inl irt) => if truthy irt then [irt] else []
  | _ => []
  end.

Ltac find_header :=
  repeat match goal with
         | |- context [get_header ((?k, ?v) :: ?hs) ?name] =>
             let b := eval vm_compute in (String.eqb (lower k) (lower name)) in
             change (get_header ((k, v) :: hs) name)
               with (if String.eqb (lower k) (lower name) then Some v
                     else get_header hs name);
             change (String.eqb (lower k) (lower name)) with b; cbv iota
         end.

(** The policy stores the value of a header as it is written: what
    [header_store_parse] gives for it, if anything, is the value. *)
Definition stored_as_written (header_store_parse : string → string → result string)
    (name value : string) : Prop :=
  ∀ stored, header_store_parse name value = Return stored → stored = value.

Ltac bind_step H m E :=
  match type of H with
  | rbind ?r _ = Return _ =>
      destruct r as [m|] eqn:E; cbn [rbind] in H; [|discriminate H]
  end.

Lemma get_header_other hs k name :
  Forall (fun h : string * string => h.1 = k) hs →
  String.eqb (lower k) (lower name) = false →
  get_header hs name = None.
Proof.
  intros Hhs Hk.
  induction Hhs as [|[k' v'] hs Hk' _ IH]; [done|]. cbn [get_header fst] in *.
  subst k'. by rewrite Hk.
Qed.

(** X5: the ids that [sendmail] writes into the headers are the ids that
    [parse_message] reads back, as long as the policy of the message
    stores what [sendmail] writes into [Message-ID], [In-Reply-To] and
    [References] as it is written (it does not for every text: an id with
    a blank in it is cut short in [Message-ID]).  Then, for a message that
    comes without these three headers, and ids holding no ['>'] and no
    ['/']: [Message-ID] gives back [message_id], [In-Reply-To] the id
    replied to, and [References] the given references or, when none are
    given, the id replied to. *)
Theorem sendmail_ids_round_trip really_unicode formatdate header_max_count
    header_store_parse addrs fromaddr reply_to subject message_id in_reply_to message
    sender references cc to m' addrs' :
  add_headers really_unicode formatdate header_max_count header_store_parse addrs
    fromaddr reply_to subject message_id in_reply_to message sender references cc to
  = Return (m', addrs') →
  get_header (msg_headers message) "Message-ID" = None →
  get_header (msg_headers message) "In-Reply-To" = None →
  get_header (msg_headers message) "References" = None →
  Forall clean_id (message_id :: reply_ids in_reply_to ++ references) →
  stored_as_written header_store_parse "Message-ID" ("<" +:+ message_id +:+ ">") →
  Forall (fun irt =>
            stored_as_written header_store_parse "In-Reply-To" ("<" +:+ irt +:+ ">")
            ∧ (references = [] →
               stored_as_written header_store_parse "References" ("<" +:+ irt +:+ ">")))
    (reply_ids in_reply_to) →
  (references ≠ [] →
   stored_as_written header_store_parse "References"
     (join " " (map (fun r => "<" +:+ r +:+ ">") references))) →
  let ids name := _parse_message_id (get_header (msg_headers m') name) in
  ids "Message-ID" = [message_id]
  ∧ ids "In-Reply-To" = reply_ids in_reply_to
  ∧ ids "References" = match references with
                       | [] => reply_ids in_reply_to
                       | _ :: _ => references
                       end.
Proof.
  intros Hh Hmid Hirt Href Hclean Kmid Kirt Krefs ids. subst ids.
  apply Forall_cons in Hclean as [[Hm1 Hm2] Hclean].
  apply Forall_app in Hclean as [Hri Hrefs].
  assert (Hread : ∀ rs, Forall clean_id rs →
            finditer_group1 None (join " " (map bracket rs)) = rs).
  { intros rs Hrs. rewrite finditer_join_brackets.
    - induction Hrs as [|r rs [_ Hr] _ IH]; [done|]. cbn [map].
      by rewrite group1_no_slash, IH.
    - eapply Forall_impl; [exact Hrs|]. by intros r [? _]. }
  assert (Hone : ∀ id, clean_id id → finditer_group1 None ("<" +:+ id +:+ ">") = [id]).
  { intros id Hid. apply (Hread [id]). by constructor. }
  revert Hh. unfold add_headers. intros H.
  bind_step H m1 E1. bind_step H m2 E2. bind_step H m3 E3. bind_step H m4 E4.
  bind_step H m5 E5. bind_step H m6 E6. bind_step H m7 E7. bind_step H p8 E8.
  destruct p8 as [m8 addrs8]. bind_step H m9 E9. bind_step H m10 E10.
  injection H as <- <-.
  assert (∃ v1, msg_headers m1 = msg_headers message ++ [("To", v1)]) as [v1 H1].
  { destruct to as [t|]; [destruct (truthy t)|];
      apply set_header_returns in E1 as (v & _ & ->); by exists v. }
  apply set_header_returns in E2 as (v2 & _ & ->).
  apply set_header_returns in E3 as (v3 & _ & ->).
  apply set_header_returns in E4 as (v4 & _ & ->).
  apply set_header_returns in E5 as (v5 & K5 & ->). apply Kmid in K5 as ->.
  apply set_header_returns in E6 as (v6 & _ & ->).
  cbn [msg_headers] in *.
  assert (∃ hs1, Forall (fun h => h.1 = "Sender") hs1
                 ∧ msg_headers m7
                   = (((((msg_headers m1 ++ [("From", v2)]) ++ [("Reply-To", v3)])
                         ++ [("Subject", v4)])
                        ++ [("Message-ID", "<" +:+ message_id +:+ ">")])
                       ++ [("Date", v6)]) ++ hs1) as (hs1 & Hhs1 & H7).
  { destruct sender as [sd|]; [destruct (truthy sd)|].
    - apply set_header_returns in E7 as (v & _ & ->). exists [("Sender", v)].
      split; [by repeat constructor | done].
    - injection E7 as <-. exists []. split; [constructor | by rewrite app_nil_r].
    - injection E7 as <-. exists []. split; [constructor | by rewrite app_nil_r]. }
  assert (∃ hs2, Forall (fun h => h.1 = "CC") hs2
                 ∧ msg_headers m8 = msg_headers m7 ++ hs2) as (hs2 & Hhs2 & H8).
  { destruct cc as [c|]; [destruct (truthy c)|].
    - destruct (set_header _ _ "CC" _ _) as [m|] eqn:Ec; cbn [rbind] in E8;
        [|discriminate]. injection E8 as <- <-.
      apply set_header_returns in Ec as (v & _ & ->). exists [("CC", v)].
      split; [by repeat constructor | done].
    - injection E8 as <- <-. exists []. split; [constructor | by rewrite app_nil_r].
    - injection E8 as <- <-. exists []. split; [constructor | by rewrite app_nil_r]. }
  pose proof (get_header_other hs1 "Sender" "Message-ID" Hhs1 eq_refl) as Hs1.
  pose proof (get_header_other hs1 "Sender" "In-Reply-To" Hhs1 eq_refl) as Hs2.
  pose proof (get_header_other hs1 "Sender" "References" Hhs1 eq_refl) as Hs3.
  pose proof (get_header_other hs2 "CC" "Message-ID" Hhs2 eq_refl) as Hc1.
  pose proof (get_header_other hs2 "CC" "In-Reply-To" Hhs2 eq_refl) as Hc2.
  pose proof (get_header_other hs2 "CC" "References" Hhs2 eq_refl) as Hc3.
  (* the headers up to [CC] *)
  remember [("To", v1); ("From", v2); ("Reply-To", v3); ("Subject", v4);
            ("Message-ID", "<" +:+ message_id +:+ ">"); ("Date", v6)] as front
    eqn:Hfr.
  assert (Hm8 : msg_headers m8 = msg_headers message ++ front ++ hs1 ++ hs2).
  { rewrite H8, H7, H1. subst front. by rewrite <- !app_assoc. }
  clear H1 H7 H8 E1.
  assert (Hfront : ∀ rest,
            get_header (msg_headers message ++ front ++ hs1 ++ hs2 ++ rest) "Message-ID"
            = Some ("<" +:+ message_id +:+ ">")
            ∧ get_header (msg_headers message ++ front ++ hs1 ++ hs2 ++ rest)
                "In-Reply-To" = get_header rest "In-Reply-To"
            ∧ get_header (msg_headers message ++ front ++ hs1 ++ hs2 ++ rest)
                "References" = get_header rest "References").
  { intros rest. subst front. rewrite !(get_header_app (msg_headers message)) by done.
    cbn [app]. find_header.
    by rewrite !(get_header_app hs1), !(get_header_app hs2) by done. }
  assert (Hsplit : ∀ m rest, msg_headers m = msg_headers m8 ++ rest →
            msg_headers m = msg_headers message ++ front ++ hs1 ++ hs2 ++ rest).
  { intros m rest ->. by rewrite Hm8, <- !app_assoc. }
  assert (Hno : match map (fun r => "<" +:+ r +:+ ">") references with
                | [] => Return m8
                | r :: rs =>
                    set_header header_max_count header_store_parse "References"
                      (Header r rs) m8
                end = Return m10 →
                _parse_message_id (get_header (msg_headers m10) "Message-ID")
                = [message_id]
                ∧ _parse_message_id (get_header (msg_headers m10) "In-Reply-To") = []
                ∧ _parse_message_id (get_header (msg_headers m10) "References")
                  = match references with [] => [] | _ :: _ => references end).
  { destruct references as [|r rs]; cbn [map].
    - intros [= <-]. rewrite Hm8. destruct (Hfront []) as (F1 & F2 & F3).
      rewrite !app_nil_r in F1, F2, F3. rewrite F1, F2, F3.
      cbn [get_header _parse_message_id]. by rewrite Hone.
    - intros (vr & Kvr & ->)%set_header_returns.
      rewrite Header_join in Kvr. apply (Krefs ltac:(discriminate)) in Kvr as ->.
      cbn [msg_headers]. rewrite Hm8, <- !app_assoc.
      destruct (Hfront [("References",
                         join " " (map (fun r => "<" +:+ r +:+ ">") (r :: rs)))])
        as (-> & -> & ->).
      find_header. cbn [get_header _parse_message_id]. rewrite Hone by done.
      split; [done|]. split; [done|]. by apply (Hread (r :: rs)). }
  destruct in_reply_to as [[irt|[|? ?]]|]; cbn [reply_ids] in Hri, Kirt |- *;
    [destruct (truthy irt) eqn:Hirt_t | | |]; try discriminate.
  - (* a reply *)
    apply Forall_cons in Kirt as [[Ki Kr] _]. apply Forall_cons in Hri as [Hci _].
    destruct (set_header _ _ "In-Reply-To" _ _) as [mi|] eqn:Ei; cbn [rbind] in E9;
      [|discriminate].
    apply set_header_returns in Ei as (vi & Kvi & ->). apply Ki in Kvi as ->.
    cbn [msg_headers] in E9.
    destruct references as [|r rs].
    + rewrite Hm8, <- !app_assoc in E9.
      destruct (Hfront [("In-Reply-To", "<" +:+ irt +:+ ">")]) as (_ & Hf & _).
      rewrite Hf in E9. clear Hf. cbn [get_header] in E9.
      change (String.eqb (lower "In-Reply-To") (lower "In-Reply-To")) with true in E9.
      cbv iota in E9.
      apply set_header_returns in E9 as (vr & Kvr & ->). apply (Kr eq_refl) in Kvr as ->.
      cbn [map] in E10. injection E10 as <-. cbn [msg_headers].
      rewrite <- !app_assoc. cbn [app].
      destruct (Hfront [("In-Reply-To", "<" +:+ irt +:+ ">");
                        ("References", "<" +:+ irt +:+ ">")]) as (-> & -> & ->).
      find_header. cbn [_parse_message_id]. by rewrite !Hone.
    + injection E9 as <-. cbn [map] in E10.
      apply set_header_returns in E10 as (vr & Kvr & ->).
      rewrite Header_join in Kvr. apply (Krefs ltac:(discriminate)) in Kvr as ->.
      cbn [msg_headers]. rewrite Hm8, <- !app_assoc. cbn [app].
      destruct (Hfront [("In-Reply-To", "<" +:+ irt +:+ ">");
                        ("References",
                         join " " (map (fun r => "<" +:+ r +:+ ">") (r :: rs)))])
        as (-> & -> & ->).
      find_header. cbn [_parse_message_id]. rewrite !Hone by done.
      split; [done|]. split; [done|]. by apply (Hread (r :: rs)).
  - (* an empty [in_reply_to] *)
    injection E9 as <-. by apply Hno.
  - injection E9 as <-. by apply Hno.
  - injection E9 as <-. by apply Hno.
Qed.

Lemma sendmail_ids_round_trip_witness :
  ∃ m' addrs',
    add_headers (fun s => s) "Thu, 01 Jan 2026" demo_max_count demo_store_parse
      ["dev@example.com"] "a@forge" "r@forge" "subject" "2@forge" (Some (inl "1@forge"))
      {| msg_headers := [("Content-Type", "text/plain")]; msg_body := "hi" |}
      None ["0@forge"; "1@forge"] None None
    = Return (m', addrs')
    ∧ _parse_message_id (get_header (msg_headers m') "Message-ID") = ["2@forge"]
    ∧ _parse_message_id (get_header (msg_headers m') "In-Reply-To") = ["1@forge"]
    ∧ _parse_message_id (get_header (msg_headers m') "References")
      = ["0@forge"; "1@forge"].
Proof.
  assert (Hr : returns
                 (add_headers (fun s => s) "Thu, 01 Jan 2026" demo_max_count
                    demo_store_parse ["dev@example.com"] "a@forge" "r@forge" "subject"
                    "2@forge" (Some (inl "1@forge"))
                    {| msg_headers := [("Content-Type", "text/plain")];
                       msg_body := "hi" |}
                    None ["0@forge"; "1@forge"] None None) = true)
    by (vm_compute; reflexivity).
  destruct (add_headers (fun s => s) "Thu, 01 Jan 2026" demo_max_count demo_store_parse
              ["dev@example.com"] "a@forge" "r@forge" "subject" "2@forge"
              (Some (inl "1@forge"))
              {| msg_headers := [("Content-Type", "text/plain")]; msg_body := "hi" |}
              None ["0@forge"; "1@forge"] None None) as [[m' addrs']|e] eqn:Hd;
    [|discriminate Hr].
  exists m', addrs'. split; [reflexivity|].
  apply (sendmail_ids_round_trip (fun s => s) "Thu, 01 Jan 2026" demo_max_count
           demo_store_parse ["dev@example.com"] "a@forge" "r@forge" "subject" "2@forge"
           (Some (inl "1@forge"))
           {| msg_headers := [("Content-Type", "text/plain")]; msg_body := "hi" |}
           None ["0@forge"; "1@forge"] None None m' addrs' Hd eq_refl eq_refl eq_refl).
  - repeat constructor.
  - intros stored H. vm_compute in H. by injection H as <-.
  - constructor; [|constructor]. split; [|discriminate].
    intros stored H. vm_compute in H. by injection H as <-.
  - intros _ stored H. vm_compute in H. by injection H as <-.
Defined.

(** *** [_parse_smtp_addr] *)

(** X6: [_parse_smtp_addr] takes the address out of the first pair of
    angle brackets; an address without brackets is kept when it holds an
    ['@'] and is replaced by [g.noreply] when it does not.  So the result is
    never the empty string (the configured [noreply] address not being
    empty). *)
Theorem parse_smtp_addr_cases noreply addr :
  (∀ name inner rest,
     addr = name +:+ String "<" (inner +:+ String ">" rest) →
     contains_char "<" name = false →
     contains_char ">" inner = false →
     contains_char "/" inner = false →
     inner ≠ EmptyString →
     _parse_smtp_addr noreply addr = inner)
  ∧ (contains_char "<" addr = false →
     _parse_smtp_addr noreply addr = if contains_char "@" addr then addr else noreply)
  ∧ (noreply ≠ EmptyString → _parse_smtp_addr noreply addr ≠ EmptyString).
Proof.
  unfold _parse_smtp_addr. cbn [_parse_message_id]. split; [|split].
  - intros name inner rest -> Hname Hinner Hslash Hne.
    rewrite finditer_first by done. rewrite group1_no_slash by done.
    by destruct inner.
  - intros Hno.
    assert (addr = addr +:+ EmptyString) as Ha.
    { clear. induction addr; rewrite ?append_nil, ?append_cons; congruence. }
    rewrite Ha at 1. by rewrite finditer_skip.
  - intros Hne.
    assert (Hat : (if contains_char "@" addr then addr else noreply) ≠ EmptyString).
    { destruct (contains_char "@" addr) eqn:Hat; [|done]. by destruct addr. }
    destruct (finditer_group1 None addr) as [|addrs_0 ?]; [done|].
    by destruct addrs_0.
Qed.

Lemma parse_smtp_addr_cases_witness :
  _parse_smtp_addr "noreply@forge" "Dev <dev@example.com>" = "dev@example.com"
  ∧ _parse_smtp_addr "noreply@forge" "nobody" = "noreply@forge"
  ∧ _parse_smtp_addr "noreply@forge" "<>" ≠ EmptyString.
Proof.
  destruct (parse_smtp_addr_cases "noreply@forge" "Dev <dev@example.com>") as (H1 & _ & _).
  destruct (parse_smtp_addr_cases "noreply@forge" "nobody") as (_ & H2 & _).
  destruct (parse_smtp_addr_cases "noreply@forge" "<>") as (_ & _ & H3).
  split; [|split].
  - by apply (H1 "Dev " "dev@example.com" "").
  - by apply H2.
  - by apply H3.
Defined.

(** *** [AddrHeader] *)

Lemma startswith_drop p s :
  startswith p s = true → s = p +:+ drop (String.length p) s.
Proof.
  revert s. induction p as [|a p IH]; intros s; [by rewrite append_nil|].
  destruct s as [|b s]; [done|]. cbn [startswith String.length drop].
  destruct (Ascii.eqb_spec a b) as [<- |]; [|done].
  intros H%IH. by rewrite append_cons, <- H.
Qed.

(** [rfind] finds an occurrence: the string falls into what stands before
    it, the separator, and what stands after it. *)
Lemma rfind_sound sep s i :
  rfind sep s = Some i →
  s = take i s +:+ sep +:+ drop (i + String.length sep) s.
Proof.
  revert i. induction s as [|a s IH]; intros i; cbn [rfind].
  - destruct sep; [|done]. by intros [= <-].
  - destruct (rfind sep s) as [j|].
    + intros [= <-]. cbn [take drop Nat.add]. rewrite append_cons. f_equal. by apply IH.
    + destruct (startswith sep (String a s)) eqn:Hs; [|done].
      intros [= <-]. cbn [take Nat.add]. rewrite append_nil. by apply startswith_drop.
Qed.

(** X7: [AddrHeader] returns the address it is given, with or without a
    display name, unless the text starts with the encoded-word marker
    ['=?']. *)
Theorem AddrHeader_plain fromaddr :
  startswith "=?" fromaddr = false → AddrHeader fromaddr = fromaddr.
Proof.
  intros Hs. unfold AddrHeader, rsplit1.
  destruct (rfind " <" fromaddr) as [i|] eqn:Hi; [|reflexivity].
  apply rfind_sound in Hi.
  assert (Header (take i fromaddr) ["<" +:+ drop (i + String.length " <") fromaddr]
          = fromaddr) as ->.
  { unfold Header. cbn [fold_left]. rewrite Hi at 3.
    by rewrite !append_cons, !append_nil. }
  by rewrite Hs.
Qed.

Lemma AddrHeader_plain_witness :
  AddrHeader "Foo Bar <foo@bar.com>" = "Foo Bar <foo@bar.com>".
Proof. by apply (AddrHeader_plain "Foo Bar <foo@bar.com>"). Defined.

End HeaderFacts.

(** ** [mail_util.py]: reading what came in *)

Module InboundFacts.
Import PyStr PyStrFacts MailUtil MessageFacts HeaderFacts Autoreply.

(** *** [parse_address]: the unpacking of [addr.split('@')] *)

Lemma split_nonempty c s : split c s ≠ [].
Proof.
  destruct s as [|a s]; cbn [split]; [done|].
  destruct (Ascii.eqb a c); [done|]. by destruct (split c s).
Qed.

Lemma join_split c s : join (String c EmptyString) (split c s) = s.
Proof.
  induction s as [|a s IH]; [done|]. cbn [split].
  pose proof (split_nonempty c s) as Hne.
  destruct (Ascii.eqb_spec a c) as [-> | Hac].
  - destruct (split c s) as [|w ws]; [done|].
    rewrite join_cons, IH. by rewrite append_nil, append_cons, append_nil.
  - destruct (split c s) as [|w ws]; [done|].
    destruct ws as [|w' ws].
    + cbn [join] in *. by rewrite IH.
    + rewrite join_cons in *. by rewrite append_cons, IH.
Qed.

(** An address with exactly one ['@']. *)
Definition one_at (addr : string) : Prop :=
  ∃ userpart domain,
    addr = userpart +:+ "@" +:+ domain
    ∧ contains_char "@" userpart = false ∧ contains_char "@" domain = false.

Lemma split_two_inv addr userpart domain :
  split "@" addr = [userpart; domain] → one_at addr.
Proof.
  intros Hs. exists userpart, domain.
  pose proof (join_split "@" addr) as Hj. rewrite Hs in Hj. cbn [join] in Hj.
  pose proof (split_pieces "@" "@" addr) as Hp. rewrite Hs in Hp.
  apply Forall_cons in Hp as [[Hu _] Hp]. apply Forall_cons in Hp as [[Hd _] _].
  by rewrite Hj.
Qed.

(** X8: [parse_address] fails with the [ValueError] of the tuple
    unpacking exactly for the addresses that do not hold exactly one ['@'],
    whatever domains are configured. *)
Theorem parse_address_unpack {Project App : Type}
    (common_suffix : string) (common_suffix_alt : list string)
    (find_project : string → option Project * list string)
    (app_instance : Project → string → option App) (addr : string) :
  parse_address common_suffix common_suffix_alt find_project app_instance addr
  = Raise (ValueError "unpack")
  ↔ ¬ one_at addr.
Proof.
  unfold parse_address. split.
  - intros H (userpart & domain & -> & Hu & Hd). revert H.
    rewrite append_cons, append_nil, split_two by done.
    destruct (remove_common_suffix _ _); [|discriminate].
    destruct (find_project _) as [[project|] mount_point]; [|discriminate].
    destruct mount_point as [|mp [|? ?]]; try discriminate.
    by destruct (app_instance project mp).
  - intros Hno.
    destruct (split "@" addr) as [|userpart [|domain [|? ?]]] eqn:Hs; try reflexivity.
    destruct Hno. by eapply split_two_inv.
Qed.

Lemma parse_address_unpack_witness :
  parse_address "forge.example.org" [] (fun _ => (@None nat, [])) (fun _ _ => @None nat)
    "wiki.test.p.forge.example.org"
  = Raise (ValueError "unpack").
Proof.
  apply (parse_address_unpack "forge.example.org" [] (fun _ => (@None nat, []))
           (fun _ _ => @None nat) "wiki.test.p.forge.example.org").
  intros (userpart & domain & H & _). revert H.
  rewrite append_cons, append_nil. intros H.
  assert (Hc : contains_char "@" "wiki.test.p.forge.example.org" = true).
  { rewrite H, contains_char_append. cbn [contains_char].
    rewrite Ascii.eqb_refl. by rewrite orb_true_r. }
  discriminate Hc.
Defined.

(** *** [dict(msg)] *)

Lemma get_header_is_Some hs k : k ∈ map fst hs → is_Some (get_header hs k).
Proof.
  induction hs as [|[k' v'] hs IH]; cbn [map fst get_header].
  - by intros ?%elem_of_nil.
  - destruct (String.eqb (lower k') (lower k)) eqn:He; [by eexists|].
    intros [-> | Hin]%elem_of_cons; [|by apply IH].
    by rewrite String.eqb_refl in He.
Qed.

Lemma dict_of_headers_lookup hs keys (d : gmap string value) k :
  fold_left
    (fun d k =>
       match get_header hs k with
       | Some v => <[k := VStr v]> d
       | None => <[k := VNone]> d
       end) keys d !! k
  = if bool_decide (k ∈ keys)
    then Some (match get_header hs k with Some v => VStr v | None => VNone end)
    else d !! k.
Proof.
  revert d. induction keys as [|k' keys IH]; intros d; [done|].
  cbn [fold_left]. rewrite IH.
  destruct (decide (k = k')) as [<- | Hne].
  - rewrite (bool_decide_eq_true_2 (k ∈ k :: keys)) by (by left).
    case_bool_decide; [done|].
    destruct (get_header hs k); by rewrite lookup_insert_eq.
  - assert (Hiff : k ∈ k' :: keys ↔ k ∈ keys).
    { rewrite elem_of_cons. split; [by intros [? | ?] | by right]. }
    rewrite (bool_decide_ext _ _ Hiff). case_bool_decide; [done|].
    destruct (get_header hs k'); by rewrite lookup_insert_ne.
Qed.

Lemma dict_of_message_spec m k :
  dict_of_message m !! k
  = if bool_decide (k ∈ map fst (_headers m))
    then VStr <$> get_header (_headers m) k
    else None.
Proof.
  unfold dict_of_message. rewrite dict_of_headers_lookup.
  case_bool_decide as Hk; [|done].
  by destruct (get_header_is_Some _ _ Hk) as [v ->].
Qed.

(** X9: the dictionary [dict(msg)] has the header names of the message,
    as they are spelled, as its keys.  Under each of them stands the value
    of the first header of the message whose name is the same up to case: of
    two headers of one name the first wins, also under the spelling of the
    second. *)
Theorem dict_of_message_lookup m k :
  (k ∈ map fst (_headers m) ↔ is_Some (dict_of_message m !! k))
  ∧ ∀ before name v after,
      _headers m = before ++ (name, v) :: after →
      Forall (fun h => lower h.1 ≠ lower k) before →
      lower name = lower k →
      k ∈ map fst (_headers m) →
      dict_of_message m !! k = Some (VStr v).
Proof.
  rewrite dict_of_message_spec. split.
  - case_bool_decide as Hk.
    + destruct (get_header_is_Some _ _ Hk) as [v ->]. split; [by eexists | done].
    + split; [done | by intros []].
  - intros before name v after -> Hb Hn Hk.
    rewrite bool_decide_eq_true_2 by done.
    assert (get_header (before ++ (name, v) :: after) k = Some v) as ->; [|done].
    clear Hk. induction Hb as [|[k' v'] before Hk' _ IH]; cbn [app get_header].
    + by rewrite Hn, String.eqb_refl.
    + cbn [fst] in Hk'. apply String.eqb_neq in Hk'. by rewrite Hk'.
Qed.

Lemma dict_of_message_lookup_witness :
  dict_of_message
    (Msg [("Received", "by mx2"); ("subject", "first"); ("Subject", "second")]
       "text/plain" None (inl []))
    !! "Subject"
  = Some (VStr "first").
Proof.
  apply (dict_of_message_lookup
           (Msg [("Received", "by mx2"); ("subject", "first"); ("Subject", "second")]
              "text/plain" None (inl []))
           "Subject")
    with (before := [("Received", "by mx2")]) (name := "subject") (after := [("Subject", "second")]).
  - reflexivity.
  - repeat constructor. cbn. discriminate.
  - reflexivity.
  - apply (bool_decide_unpack _). vm_compute. exact I.
Defined.

(** *** [is_autoreply] on a parsed message *)

(** The header names [is_autoreply] asks for. *)
Definition autoreply_headers : list string :=
  ["Auto-Submitted"; "X-POST-MessageClass"; "Delivered-To"; "X-FC-MachineGenerated";
   "X-AutoReply-From"; "X-Autogenerated"; "X-Precedence"; "Return-Path"].

Lemma parse_message_headers parsebytes gen data d :
  parse_message parsebytes gen data = Return d →
  ∃ raw, Codec.encode_utf8 data = Return raw
         ∧ d !! "headers" = Some (VDict (dict_of_message (parsebytes raw))).
Proof.
  intros H. destruct (parse_message_inv _ _ _ _ H) as (raw & Hraw & Hd).
  exists raw. split; [done|]. cbn zeta in Hd.
  destruct Hd as [(_ & parts & _ & ->) | (_ & payload & _ & ->)];
    rewrite lookup_insert_ne by done; apply common_entries_lookup.
Qed.

(** X10: [is_autoreply] never raises on what [parse_message] returns.
    It looks the headers up under fixed spellings, in a dictionary whose
    keys are spelled as in the message: it answers [False] for every
    message that spells none of its headers exactly like one of the eight
    names, whatever the values, and [True] for every message with a header
    spelled [X-AutoReply-From]. *)
Theorem is_autoreply_parsed parsebytes gen data d :
  parse_message parsebytes gen data = Return d →
  ∃ raw b,
    Codec.encode_utf8 data = Return raw
    ∧ is_autoreply d = Return b
    ∧ let names := map fst (_headers (parsebytes raw)) in
      (Forall (fun name => name ∉ autoreply_headers) names → b = false)
      ∧ ("X-AutoReply-From" ∈ names → b = true).
Proof.
  intros (raw & Hraw & Hh)%parse_message_headers.
  exists raw. unfold is_autoreply. rewrite Hh. eexists. split; [done|].
  split; [reflexivity|]. cbn zeta. split.
  - intros Hnone.
    assert (Hl : ∀ name, name ∈ autoreply_headers →
                   dict_of_message (parsebytes raw) !! name = None).
    { intros name Hin. rewrite dict_of_message_spec.
      case_bool_decide as Hk; [|done].
      rewrite Forall_forall in Hnone. by destruct (Hnone name Hk). }
    rewrite !Hl by (apply (bool_decide_unpack _); vm_compute; exact I).
    reflexivity.
  - intros Hin.
    assert (is_not_None (dict_of_message (parsebytes raw) !! "X-AutoReply-From") = true)
      as ->.
    { rewrite dict_of_message_spec, bool_decide_eq_true_2 by done.
      by destruct (get_header_is_Some _ _ Hin) as [v ->]. }
    by rewrite !orb_true_r.
Qed.

(** A vacation notice that spells its header names in lower case, as
    [BytesParser] reads it. *)
Definition vacation_mail : unicode :=
  Codec.text "auto-submitted: auto-replied" ++ [10; 10]%N
    ++ Codec.text "away" ++ [10%N].
Definition vacation_parsed : Message :=
  Msg [("auto-submitted", "auto-replied")] "text/plain" None
    (inl ["a"; "w"; "a"; "y"; "010"]%char).

Lemma is_autoreply_parsed_witness :
  (d <- parse_message (fun _ => vacation_parsed) "generated@forge" vacation_mail ;;
   is_autoreply d)%py
  = Return false.
Proof.
  assert (Hr : returns (parse_message (fun _ => vacation_parsed) "generated@forge"
                          vacation_mail) = true) by (vm_compute; reflexivity).
  destruct (parse_message (fun _ => vacation_parsed) "generated@forge" vacation_mail)
    as [d|e] eqn:Hd; [|discriminate Hr].
  destruct (is_autoreply_parsed _ _ _ _ Hd) as (raw & b & _ & Hb & Hfalse & _).
  cbn [rbind]. rewrite Hb. f_equal. apply Hfalse.
  repeat constructor. apply (bool_decide_unpack _). vm_compute. exact I.
Defined.

End InboundFacts.

(** ** [forgetracker/search.py]: more on [get_facets] *)

Module FacetFacts.
Import PyStr PyStrFacts Search SearchFacts.

Lemma pair_up_cases values :
  pair_up values
  = if Nat.even (length values) then Return (consecutive_pairs values)
    else Raise IndexError.
Proof.
  induction values as [values IH] using (induction_ltof1 _ (@length _)).
  unfold ltof in IH.
  destruct values as [|v [|n rest]]; [done | done |].
  cbn [length Nat.even pair_up consecutive_pairs].
  rewrite IH by (cbn; lia). by destruct (Nat.even (length rest)).
Qed.

Section get_facets.
Context {Ticket : Type}.
Context (index : Ticket → gmap string solr_value).

Lemma facets_loop_odd items final_result res :
  Exists (fun item => Nat.even (length item.2) = false) items →
  facets_loop index items final_result res = Raise IndexError.
Proof.
  intros H. revert res. induction items as [|[name values] items IH]; intros res.
  - by apply Exists_nil in H.
  - cbn [facets_loop]. rewrite pair_up_cases.
    destruct (Nat.even (length values)) eqn:He; [|done]. cbn [rbind].
    apply IH. apply Exists_cons in H as [H | H]; [|done].
    cbn [snd] in H. congruence.
Qed.

(** X11: [get_facets] returns a dictionary when every flat facet list
    has an even length, and fails with the [IndexError] of [values[i+1]]
    as soon as one of them has an odd length; it has no other outcome. *)
Theorem get_facets_index_error items final_result :
  (Forall (fun item => Nat.even (length item.2) = true) items →
     ∃ d, get_facets index (Some items) final_result = Return d)
  ∧ (Exists (fun item => Nat.even (length item.2) = false) items →
     get_facets index (Some items) final_result = Raise IndexError).
Proof.
  cbn [get_facets]. split.
  - intros H. rewrite (facets_loop_even index _ _ _ H). by eexists.
  - apply facets_loop_odd.
Qed.

(** The last item of the facet fields whose name is cut to [k]. *)
Definition last_named (k : string) (items : list (string * list solr_value))
  : option (string * list solr_value) :=
  last (List.filter (fun item => String.eqb (field_name_of item.1) k) items).

Lemma facets_loop_lookup items final_result res d k :
  facets_loop index items final_result res = Return d →
  d !! k = match last_named k items with
           | Some item => Some (item_value index final_result item)
           | None => res !! k
           end.
Proof.
  revert res. induction items as [|[name values] items IH]; intros res.
  - by intros [= <-].
  - cbn [facets_loop]. rewrite pair_up_cases.
    destruct (Nat.even (length values)); [|done]. cbn [rbind].
    intros H%IH. rewrite H. unfold last_named. cbn [List.filter fst].
    destruct (String.eqb_spec (field_name_of name) k) as [Hk | Hk].
    + destruct (List.filter _ items) as [|item' rest] eqn:Hf.
      * cbn [last]. rewrite Hk, lookup_insert_eq. unfold item_value. cbn [fst snd].
        by destruct final_result as [[|? ?]|].
      * rewrite last_cons_cons.
        destruct (last (item' :: rest)) eqn:Hl; [done|]. by apply last_None in Hl.
    + destruct (last (List.filter _ items)); [done|]. by rewrite lookup_insert_ne.
Qed.

(** X12: whatever the facet field names are, the dictionary that
    [get_facets] returns holds, under a key [k], what the last facet field
    whose name is cut to [k] contributes (its consecutive pairs, filtered
    when a non-empty [final_result] is given): fields whose names are cut to
    the same key overwrite one another.  A key that no field name is cut to
    is not in the dictionary. *)
Theorem get_facets_last_wins items final_result d k :
  get_facets index (Some items) final_result = Return d →
  d !! k = item_value index final_result <$> last_named k items.
Proof.
  cbn [get_facets]. intros H%(facets_loop_lookup _ _ _ _ k). rewrite H.
  by destruct (last_named k items).
Qed.

Lemma filter_sublist {A} (f : A → bool) (l : list A) : List.filter f l `sublist_of` l.
Proof.
  induction l as [|x l IH]; [constructor|]. cbn [List.filter].
  destruct (f x); by constructor.
Qed.

(** X23: giving [final_result] never adds anything: the dictionary has
    the keys it has without [final_result], and the pairs under each key are
    some of the pairs found there without it, in the same order. *)
Theorem get_facets_filter_sublist items final_result d0 d k :
  get_facets index (Some items) None = Return d0 →
  get_facets index (Some items) final_result = Return d →
  match d !! k, d0 !! k with
  | Some pairs, Some pairs0 => pairs `sublist_of` pairs0
  | None, None => True
  | _, _ => False
  end.
Proof.
  cbn [get_facets].
  intros H0%(facets_loop_lookup _ _ _ _ k) H%(facets_loop_lookup _ _ _ _ k).
  rewrite H0, H. destruct (last_named k items) as [[name values]|]; [|done].
  unfold item_value. cbn [fst snd].
  destruct final_result as [[|t ts]|]; try reflexivity. apply filter_sublist.
Qed.

End get_facets.

Lemma get_facets_filter_sublist_witness :
  match get_facets demo_index
          (Some [("status_s", [SStr "closed"; SInt 1; SStr "open"; SInt 2])]) (Some [0])
  with
  | Return d =>
      match d !! "status" with
      | Some pairs => pairs `sublist_of` [(SStr "closed", SInt 1); (SStr "open", SInt 2)]
      | None => False
      end
  | Raise _ => False
  end.
Proof.
  pose proof (get_facets_filter_sublist demo_index
                [("status_s", [SStr "closed"; SInt 1; SStr "open"; SInt 2])] (Some [0])
                {["status" := [(SStr "closed", SInt 1); (SStr "open", SInt 2)]]}) as H.
  destruct (get_facets demo_index _ (Some [0])) as [d|e] eqn:Hd; [|discriminate Hd].
  specialize (H d "status" eq_refl eq_refl).
  destruct (d !! "status") as [pairs|]; exact H.
Defined.

Lemma get_facets_index_error_witness :
  get_facets demo_index (Some [("status_s", [SStr "open"; SInt 2; SStr "closed"])]) None
  = Raise IndexError.
Proof.
  apply (get_facets_index_error demo_index
           [("status_s", [SStr "open"; SInt 2; SStr "closed"])] None).
  by constructor.
Defined.

Lemma get_facets_last_wins_witness :
  ∃ d, get_facets demo_index
         (Some [("status_s", [SStr "open"; SInt 2]); ("status_sort", [SStr "b"; SInt 1])])
         None = Return d
       ∧ d !! "status" = Some [(SStr "b", SInt 1)].
Proof.
  eexists. split; [reflexivity|].
  etrans.
  - by apply (get_facets_last_wins demo_index
                [("status_s", [SStr "open"; SInt 2]); ("status_sort", [SStr "b"; SInt 1])]
                None).
  - reflexivity.
Defined.

(** *** The key of a facet field *)

Lemma rfind_last_sep a b :
  rfind "_s" b = None → rfind "_s" (a +:+ "_s" +:+ b) = Some (String.length a).
Proof.
  intros Hb. induction a as [|x a IH].
  - rewrite append_nil, !append_cons, append_nil. cbn [rfind]. by rewrite Hb.
  - rewrite append_cons. cbn [rfind String.length]. by rewrite IH.
Qed.

(** X13: the key of a facet field is its name cut at the last ['_s'],
    wherever that stands, and the name itself when it holds no ['_s']. *)
Theorem field_name_of_cut a b :
  rfind "_s" b = None →
  field_name_of (a +:+ "_s" +:+ b) = a ∧ field_name_of b = b.
Proof.
  intros Hb. unfold field_name_of, rsplit1. rewrite rfind_last_sep, Hb by done.
  split; [apply take_append | done].
Qed.

Lemma field_name_of_cut_witness :
  field_name_of "_milestone_s" = "_milestone"
  ∧ field_name_of "status_sort_key" = "status"
  ∧ field_name_of "labels_t" = "labels_t".
Proof.
  split; [|split].
  - by apply (field_name_of_cut "_milestone" "").
  - by apply (field_name_of_cut "status" "ort_key").
  - by apply (field_name_of_cut "" "labels_t").
Defined.

End FacetFacts.

(** ** [app.py]: what [SitemapEntry.extend] does to the store *)

Module ExtendFacts.
Import Sitemap SitemapFacts.

(** [grown h h']: the store [h'] holds the objects of [h] and no others,
    each with its label and url, and with a children list that starts with
    the one it had. *)
Definition grown (h h' : gmap loc SitemapEntry) : Prop :=
  ∀ l,
    match h !! l with
    | Some e =>
        ∃ e', h' !! l = Some e' ∧ label e' = label e ∧ url e' = url e
              ∧ children e `prefix_of` children e'
    | None => h' !! l = None
    end.

Lemma grown_refl h : grown h h.
Proof. intros l. destruct (h !! l) as [e|] eqn:He; [|done]. by exists e. Qed.

Lemma grown_trans h1 h2 h3 : grown h1 h2 → grown h2 h3 → grown h1 h3.
Proof.
  intros H12 H23 l. specialize (H12 l). specialize (H23 l).
  destruct (h1 !! l) as [e1|].
  - destruct H12 as (e2 & He2 & Hl2 & Hu2 & Hc2). rewrite He2 in H23.
    destruct H23 as (e3 & He3 & Hl3 & Hu3 & Hc3).
    exists e3. split; [done|]. split; [congruence|]. split; [congruence|].
    by etrans.
  - by rewrite H12 in H23.
Qed.

Lemma grown_append h self me e :
  h !! self = Some me →
  grown h (<[self := {| label := label me; url := url me;
                        children := children me ++ [e] |}]> h).
Proof.
  intros Hme l. destruct (decide (l = self)) as [-> | Hne].
  - rewrite Hme, lookup_insert_eq. eexists. split; [done|]. cbn.
    split; [done|]. split; [done|]. by apply prefix_app_r.
  - rewrite lookup_insert_ne by done.
    destruct (h !! l) as [e0|] eqn:He0; [|done]. by exists e0.
Qed.

Lemma extend_loop_grown fuel :
  ∀ h self src index i h',
    extend_loop fuel h self src index i = Done h' → grown h h'.
Proof.
  induction fuel as [|fuel IH]; intros h self src index i h'; [done|].
  cbn [extend_loop].
  destruct (read h src !! i) as [e|]; [|intros [= <-]; apply grown_refl].
  destruct (h !! e) as [entry|]; [|done].
  destruct (h !! self) as [me|] eqn:Hme; [|done].
  assert (Happ : extend_loop fuel
                   (<[self := {| label := label me; url := url me;
                                 children := children me ++ [e] |}]> h)
                   self src (<[label entry := e]> index) (S i) = Done h' →
                 grown h h').
  { intros H%IH. eapply grown_trans; [by apply grown_append | done]. }
  destruct (index !! label entry) as [m|]; [|done].
  destruct (h !! m) as [found|]; [|done].
  destruct (decide (url found = url entry)); [|done].
  destruct (extend_loop fuel h m (ChildrenOf e) _ 0) as [h1| |] eqn:H1; try done.
  intros H2%IH. apply IH in H1. by eapply grown_trans.
Qed.

(** X14: whatever the store holds and however its objects are shared,
    a call of [extend] that ends has only appended: the store holds the same
    objects, each has its label and its url, and the children list of each
    starts with the children it had before the call.  Nothing is removed,
    reordered or renamed. *)
Theorem extend_only_appends fuel h self sitemap_entries h' :
  extend fuel h self sitemap_entries = Done h' → grown h h'.
Proof.
  unfold extend. destruct (h !! self); [|done]. apply extend_loop_grown.
Qed.

Definition ended (o : outcome) : bool :=
  match o with Done _ => true | _ => false end.

Lemma extend_only_appends_witness :
  match extend 20 shared_child 0 (Given [10; 11; 12]) with
  | Done h' => grown shared_child h'
  | _ => False
  end.
Proof.
  assert (Hr : ended (extend 20 shared_child 0 (Given [10; 11; 12])) = true)
    by (vm_compute; reflexivity).
  destruct (extend 20 shared_child 0 (Given [10; 11; 12])) as [h'| |] eqn:He;
    [|discriminate Hr..].
  exact (extend_only_appends _ _ _ _ _ He).
Defined.

(** *** Entries under new labels *)





End ExtendFacts.

(** ** [app.py]: the ACL after [update], and what the permissions page shows *)

Module AclFacts.
Import Admin AdminFacts Permissions.

Section update.
Context {oid : Type}.
Context (ObjectId : string → option oid).
Context (str : oid → string).
Context (role_name : oid → option string).

Lemma update_card_acl old_acl mount_point args st r st' :
  update_card ObjectId str role_name old_acl mount_point args st = (r, st') →
  match r with
  | Return _ => ∃ entries, card_entries ObjectId args entries ∧ acl st' = acl st ++ entries
  | Raise _ => acl st' = acl st
  end.
Proof.
  destruct r as [[]|e]; [apply update_card_returns|].
  unfold update_card. destruct (id args) as [perm|]; [|by intros [= _ <-]].
  match goal with |- context [match ?l with Return _ => _ | Raise _ => _ end] =>
    destruct l as [log|]; [|by intros [= _ <-]] end.
  destruct (map_result _ _); [done|]. by intros [= _ <-].
Qed.

Lemma update_cards_acl old_acl mount_point cards st r st' :
  update_cards ObjectId str role_name old_acl mount_point cards st = (r, st') →
  ∃ done entries,
    done `prefix_of` cards
    ∧ Forall2 (card_entries ObjectId) done entries
    ∧ acl st' = acl st ++ concat entries
    ∧ (r = Return tt → done = cards)
    ∧ (done = cards → r = Return tt).
Proof.
  revert st. induction cards as [|args cards IH]; intros st; cbn [update_cards].
  - intros [= <- <-]. exists [], []. rewrite app_nil_r. by repeat split; try constructor.
  - destruct (update_card _ _ _ _ _ _ _) as [[[]|e] st1] eqn:H1;
      apply update_card_acl in H1.
    + destruct H1 as (es & Hes & Hacl1).
      intros (done & entries & Hpre & Hall & Hacl & Hr1 & Hr2)%IH.
      exists (args :: done), (es :: entries). split; [by apply prefix_cons|].
      split; [by constructor|]. split; [by rewrite Hacl, Hacl1, <- app_assoc|].
      split; [intros ->%Hr1; done | intros [= ->]; by apply Hr2].
    + intros [= <- <-]. exists [], []. split; [apply prefix_nil|].
      split; [constructor|]. split; [by rewrite app_nil_r|]. by split.
Qed.

(** X16: [update] is not atomic and never returns: it ends in the
    redirect or in the exception of a card it could not carry out.  In
    either case the ACL it leaves holds the ALLOW entries of the cards
    carried out so far, in their order, and nothing else: all cards after
    the redirect, and only the cards before the failing one after an
    exception.  Nothing of the old ACL is put back. *)
Theorem update_not_atomic mount_point referer cards st r st' :
  update ObjectId str role_name mount_point referer (Some cards) st = (r, st') →
  ∃ e done entries,
    r = Raise e
    ∧ done `prefix_of` cards
    ∧ Forall2 (card_entries ObjectId) done entries
    ∧ acl st' = concat entries
    ∧ (e = HTTPFound referer ↔ done = cards).
Proof.
  unfold update.
  destruct (update_cards _ _ _ _ _ _ _) as [r1 st1] eqn:Hc.
  assert (Hform : ∀ e, r1 = Raise e → form_error e).
  { intros e ->. by eapply update_cards_raises. }
  apply update_cards_acl in Hc as (done & entries & Hpre & Hall & Hacl & Hr1 & Hr2).
  cbn [acl app] in Hacl. destruct r1 as [[]|e]; intros [= <- <-].
  - exists (HTTPFound referer), done, entries. repeat split; auto.
  - exists e, done, entries. repeat split; auto.
    + intros ->. by destruct (Hform _ eq_refl).
    + intros Hd. by specialize (Hr2 Hd).
Qed.


(** *** The audit log *)

Lemma del_group_ids_nil old_acl perm group_ids :
  Forall (fun ace => permission ace = perm → str (role_id ace) ∈ group_ids) old_acl →
  del_group_ids_of str old_acl perm group_ids = [].
Proof.
  unfold del_group_ids_of. induction 1 as [|ace old_acl Hace _ IH]; [done|].
  cbn [List.filter]. destruct (String.eqb_spec (permission ace) perm) as [Hp | Hp].
  - rewrite bool_decide_eq_true_2 by auto. exact IH.
  - exact IH.
Qed.

(** A card that leaves its permission as it is: no role is added, and
    every role that holds the permission in the old ACL is submitted again. *)
Definition unchanged (old_acl : list (@ACE oid)) (args : card_args) : Prop :=
  id_list (new args) = []
  ∧ ∀ perm, id args = Some perm →
      Forall (fun ace => permission ace = perm
                         → str (role_id ace) ∈ id_list (value args)) old_acl.

Lemma update_card_audit_log old_acl mount_point args st r st' :
  update_card ObjectId str role_name old_acl mount_point args st = (r, st') →
  ∃ msgs, audit_log st' = audit_log st ++ msgs
          ∧ length msgs ≤ 1
          ∧ (unchanged old_acl args → msgs = []).
Proof.
  assert (Hnil : ∃ msgs : list string, audit_log st = audit_log st ++ msgs
                   ∧ length msgs ≤ 1 ∧ (unchanged old_acl args → msgs = [])).
  { exists []. rewrite app_nil_r. repeat split; cbn [length]; lia || done. }
  unfold update_card. destruct (id args) as [perm|] eqn:Hid; [|by intros [= _ <-]].
  match goal with |- context [match ?l with Return _ => _ | Raise _ => _ end] =>
    destruct l as [log|] eqn:Hlog; [|by intros [= _ <-]] end.
  assert (Hl : ∃ msgs : list string, log = audit_log st ++ msgs
                 ∧ length msgs ≤ 1 ∧ (unchanged old_acl args → msgs = [])).
  { destruct (id_list (new args)) as [|n ns] eqn:Hnew.
    - destruct (del_group_ids_of str old_acl perm (id_list (value args)))
        as [|dl dls] eqn:Hdel.
      + injection Hlog as <-. exists []. rewrite app_nil_r.
        repeat split; cbn [length]; lia || done.
      + destruct (map_result _ _) as [before|]; cbn [rbind] in Hlog; [|done].
        destruct (map_result _ _) as [now|]; cbn [rbind] in Hlog; [|done].
        injection Hlog as <-. eexists. split; [done|]. split; [cbn [length]; lia|].
        intros [_ Hu]. specialize (Hu perm Hid).
        by rewrite (del_group_ids_nil _ _ _ Hu) in Hdel.
    - destruct (map_result _ _) as [before|]; cbn [rbind] in Hlog; [|done].
      destruct (map_result _ _) as [now|]; cbn [rbind] in Hlog; [|done].
      injection Hlog as <-. eexists. split; [done|]. split; [cbn [length]; lia|].
      intros [Hn _]. congruence. }
  clear Hlog. destruct (map_result (parse_oid ObjectId) _); by intros [= _ <-].
Qed.

(** X17: [update] only adds to the audit log, at most one line for each
    card, and none at all when every card leaves its permission as it is
    (no role added, every old role of the permission submitted again),
    also when the call fails half way. *)
Theorem update_audit_log mount_point referer cards st r st' :
  update ObjectId str role_name mount_point referer (Some cards) st = (r, st') →
  ∃ msgs, audit_log st' = audit_log st ++ msgs
          ∧ length msgs ≤ length cards
          ∧ (Forall (unchanged (acl st)) cards → msgs = []).
Proof.
  unfold update.
  assert (Hloop : ∀ cards st0 r0 st1,
            update_cards ObjectId str role_name (acl st) mount_point cards st0 = (r0, st1) →
            ∃ msgs, audit_log st1 = audit_log st0 ++ msgs
                    ∧ length msgs ≤ length cards
                    ∧ (Forall (unchanged (acl st)) cards → msgs = [])).
  { clear. induction cards as [|args cards IH]; intros st0 r0 st1; cbn [update_cards].
    - intros [= _ <-]. exists []. rewrite app_nil_r.
      repeat split; cbn [length]; lia || done.
    - destruct (update_card _ _ _ _ _ _ _) as [[[]|e] st2] eqn:H1;
        apply update_card_audit_log in H1 as (m1 & Hm1 & Hlen1 & Hun1).
      + intros (m2 & Hm2 & Hlen2 & Hun2)%IH. exists (m1 ++ m2).
        split; [by rewrite Hm2, Hm1, <- app_assoc|].
        split; [rewrite length_app; cbn [length]; lia|].
        intros [H1 H2]%Forall_cons. by rewrite Hun1, Hun2.
      + intros [= _ <-]. exists m1. split; [done|]. split; [cbn [length]; lia|].
        intros [H1 _]%Forall_cons. by apply Hun1. }
  destruct (update_cards _ _ _ _ _ _ _) as [[[]|e] st1] eqn:Hc;
    intros [= _ <-]; by apply Hloop in Hc.
Qed.
End update.

(** The form of [demo_cards] with a second card whose role id is not an
    [ObjectId]. *)
Definition broken_cards : list card_args :=
  [ {| id := Some "read"; new := None; value := Some (inl "5f01") |};
    {| id := Some "post"; new := Some (inl ""); value := None |} ].

Lemma update_not_atomic_witness :
  let out := update demo_ObjectId (fun r => r) demo_role_name "wiki" "/p/test/admin"
               (Some broken_cards) demo_state in
  out.1 = Raise (InvalidId "")
  ∧ acl out.2 = [ACE_allow "5f01" "read"]
  ∧ ∃ e done entries,
      out.1 = Raise e
      ∧ done `prefix_of` broken_cards
      ∧ Forall2 (card_entries demo_ObjectId) done entries
      ∧ acl out.2 = concat entries
      ∧ (e = HTTPFound "/p/test/admin" ↔ done = broken_cards).
Proof.
  intros out. split; [reflexivity|]. split; [reflexivity|].
  apply (update_not_atomic demo_ObjectId (fun r => r) demo_role_name "wiki"
           "/p/test/admin" broken_cards demo_state out.1 out.2).
  subst out. apply surjective_pairing.
Defined.

(** Submitting the two readers of [demo_state] again. *)
Definition same_cards : list card_args :=
  [ {| id := Some "read"; new := None; value := Some (inr ["5f01"; "5f02"]) |} ].

Lemma update_audit_log_witness :
  audit_log (update demo_ObjectId (fun r => r) demo_role_name "wiki" "/p/test/admin"
               (Some same_cards) demo_state).2
  = [].
Proof.
  destruct (update_audit_log demo_ObjectId (fun r => r) demo_role_name "wiki"
              "/p/test/admin" same_cards demo_state
              (update demo_ObjectId (fun r => r) demo_role_name "wiki" "/p/test/admin"
                 (Some same_cards) demo_state).1
              (update demo_ObjectId (fun r => r) demo_role_name "wiki" "/p/test/admin"
                 (Some same_cards) demo_state).2)
    as (msgs & Hlog & _ & Hun).
  - apply surjective_pairing.
  - rewrite Hlog, Hun; [reflexivity|].
    constructor; [|constructor]. split; [reflexivity|]. intros p [= <-].
    repeat (constructor; [cbn; intros Hp; try discriminate Hp;
                          apply (bool_decide_unpack _); vm_compute; exact I|]).
    constructor.
Defined.

(** *** The permissions page *)

Definition is_allow {oid : Type} (ace : @ACE oid) : bool :=
  match access ace with ALLOW => true | DENY => false end.

(** The roles that the ACL allows the permission [p], in the order of
    the ACL. *)
Definition allowed {oid : Type} (acl : list (@ACE oid)) (p : string) : list oid :=
  map role_id (List.filter (fun ace => is_allow ace && String.eqb (permission ace) p) acl).

Lemma permissions_init {oid : Type} (app_permissions : list string)
    (d : gmap string (list oid)) p :
  fold_left (fun d p => <[p := []]> d) app_permissions d !! p
  = if bool_decide (p ∈ app_permissions) then Some [] else d !! p.
Proof.
  revert d. induction app_permissions as [|q qs IH]; intros d; [done|].
  cbn [fold_left]. rewrite IH.
  destruct (decide (p = q)) as [-> | Hne].
  - rewrite (bool_decide_eq_true_2 (q ∈ q :: qs)) by (by left).
    case_bool_decide; [done|]. by rewrite lookup_insert_eq.
  - assert (Hiff : p ∈ q :: qs ↔ p ∈ qs).
    { rewrite elem_of_cons. split; [by intros [? | ?] | by right]. }
    rewrite (bool_decide_ext _ _ Hiff). case_bool_decide; [done|].
    by rewrite lookup_insert_ne.
Qed.

Lemma permissions_fold {oid : Type} (acl : list (@ACE oid))
    (d : gmap string (list oid)) p :
  fold_left
    (fun permissions ace =>
       match access ace with
       | ALLOW =>
           match permissions !! permission ace with
           | Some roles => <[permission ace := roles ++ [role_id ace]]> permissions
           | None => permissions
           end
       | DENY => permissions
       end) acl d !! p
  = (fun roles => roles ++ allowed acl p) <$> d !! p.
Proof.
  revert d. induction acl as [|ace acl IH]; intros d.
  - cbn. destruct (d !! p); cbn; by rewrite ?app_nil_r.
  - cbn [fold_left]. rewrite IH. unfold allowed, is_allow. cbn [List.filter].
    destruct (access ace); cbn [andb]; [|done].
    destruct (String.eqb_spec (permission ace) p) as [Hp | Hp].
    + rewrite Hp. destruct (d !! p) as [roles|] eqn:Hd.
      * rewrite lookup_insert_eq. cbn. by rewrite <- app_assoc.
      * by rewrite Hd.
    + destruct (d !! permission ace); [|done]. by rewrite lookup_insert_ne.
Qed.

(** X18: the permissions page lists exactly the permissions the
    application names, and under each of them the roles of the ALLOW
    entries of the ACL for that permission, in the order of the ACL.  DENY
    entries and entries for permissions the application does not name are
    not shown. *)
Theorem permissions_lookup {oid : Type} (app_permissions : list string)
    (acl : list (@ACE oid)) (p : string) :
  permissions app_permissions acl !! p
  = if bool_decide (p ∈ app_permissions) then Some (allowed acl p) else None.
Proof.
  unfold permissions. rewrite permissions_fold, permissions_init.
  by case_bool_decide.
Qed.

Section round_trip.
Context {oid : Type}.
Context (ObjectId : string → option oid).
Context (str : oid → string).
Context (role_name : oid → option string).

Lemma allowed_app (acl1 acl2 : list (@ACE oid)) p :
  allowed (acl1 ++ acl2) p = allowed acl1 p ++ allowed acl2 p.
Proof. unfold allowed. by rewrite List.filter_app, map_app. Qed.

Lemma allowed_card_entries args entries p :
  card_entries ObjectId args entries →
  Forall2 (fun s r => ObjectId s = Some r)
    (if bool_decide (id args = Some p) then submitted_ids args else [])
    (allowed entries p).
Proof.
  intros (perm & role_ids & Hid & Hids & ->). unfold allowed. rewrite Hid.
  assert (Hf : List.filter (fun ace : @ACE oid => is_allow ace && String.eqb (permission ace) p)
                 (map (fun r => ACE_allow r perm) role_ids)
               = if String.eqb perm p then map (fun r => ACE_allow r perm) role_ids else []).
  { clear. induction role_ids as [|r rs IH]; [by destruct (String.eqb perm p)|].
    cbn [map List.filter]. rewrite IH. unfold is_allow. cbn.
    by destruct (String.eqb perm p). }
  rewrite Hf. destruct (String.eqb_spec perm p) as [-> | Hne].
  - rewrite bool_decide_eq_true_2 by done. rewrite map_map. cbn [role_id ACE_allow].
    by rewrite map_id.
  - rewrite bool_decide_eq_false_2 by congruence. constructor.
Qed.

(** X19: after an [update] that ran through, the permissions page shows
    under each permission of the application the role ids that the form
    submitted for it: for each card of that permission, in the order of the
    cards, its kept ids followed by its new ones. *)
Theorem update_then_permissions mount_point referer cards st st' app_permissions p :
  update ObjectId str role_name mount_point referer (Some cards) st
  = (Raise (HTTPFound referer), st') →
  p ∈ app_permissions →
  ∃ roles,
    permissions app_permissions (acl st') !! p = Some roles
    ∧ Forall2 (fun s r => ObjectId s = Some r)
        (concat (map submitted_ids
                   (List.filter (fun args => bool_decide (id args = Some p)) cards)))
        roles.
Proof.
  intros Hu Hp. rewrite permissions_lookup, bool_decide_eq_true_2 by done.
  eexists. split; [reflexivity|]. revert Hu. unfold update.
  destruct (update_cards _ _ _ _ _ _ _) as [[[]|e] st1] eqn:Hc.
  - intros [= <-]. apply update_cards_returns in Hc as (entries & Hall & ->).
    cbn [acl app]. clear -Hall.
    induction Hall as [|args es cards entries Hes _ IH]; [constructor|].
    cbn [concat List.filter]. rewrite allowed_app.
    pose proof (allowed_card_entries _ _ p Hes) as H1.
    case_bool_decide; cbn [map concat].
    + by apply Forall2_app.
    + inversion H1 as [Hnil|]. exact IH.
  - intros [= -> _]. by apply update_cards_raises in Hc.
Qed.
End round_trip.

Lemma update_then_permissions_witness :
  ∃ st', update demo_ObjectId (fun r => r) demo_role_name "wiki" "/p/test/admin"
           (Some demo_cards) demo_state
         = (Raise (HTTPFound "/p/test/admin"), st')
         ∧ permissions ["read"; "post"] (acl st') !! "read" = Some ["5f01"; "5f04"].
Proof.
  eexists. split; [reflexivity|].
  destruct (update_then_permissions demo_ObjectId (fun r => r) demo_role_name "wiki"
              "/p/test/admin" demo_cards demo_state _ ["read"; "post"] "read" eq_refl)
    as (roles & -> & Hroles).
  - by left.
  - f_equal. cbn in Hroles.
    repeat match goal with
           | H : Forall2 _ _ _ |- _ => inversion H; subst; clear H
           end.
    unfold demo_ObjectId in *. cbn in *. congruence.
Defined.

(** *** [Application.describe_permission] *)

Section describe_permission.
Context {class : Type}.
Context (__mro__ : class → list class).
Context (own_permissions_desc : class → option (gmap string string)).

Let getattr := getattr_permissions_desc __mro__ own_permissions_desc.

(** The description of [permission] in the first class of [mro] whose
    [permissions_desc] holds one. *)
Fixpoint first_described (mro : list class) (permission : string) : option string :=
  match mro with
  | [] => None
  | t :: mro' =>
      match getattr t !! permission with
      | Some s => Some s
      | None => first_described mro' permission
      end
  end.

Lemma merged_lookup mro (d0 : gmap string string) permission :
  fold_left (fun d t => getattr t ∪ d) (rev mro) d0 !! permission
  = match first_described mro permission with
    | Some s => Some s
    | None => d0 !! permission
    end.
Proof.
  induction mro as [|t mro IH]; [done|].
  cbn [rev first_described]. rewrite fold_left_app. cbn [fold_left].
  rewrite lookup_union, IH.
  destruct (getattr t !! permission), (first_described mro permission),
    (d0 !! permission); reflexivity.
Qed.

(** X20: [describe_permission] answers with the description that the
    first class along [cls.__mro__] gives the permission, where each class
    is asked for its [permissions_desc] as [getattr] finds it, and with the
    empty string when no class of the MRO gives one.  In particular the
    description in the [permissions_desc] which [cls] defines itself wins
    over every inherited one. *)
Theorem describe_permission_first cls permission :
  describe_permission __mro__ own_permissions_desc cls permission
  = default EmptyString (first_described (__mro__ cls) permission)
  ∧ ∀ bases desc s,
      __mro__ cls = cls :: bases →
      own_permissions_desc cls = Some desc →
      desc !! permission = Some s →
      describe_permission __mro__ own_permissions_desc cls permission = s.
Proof.
  assert (H : describe_permission __mro__ own_permissions_desc cls permission
              = default EmptyString (first_described (__mro__ cls) permission)).
  { unfold describe_permission. fold getattr. rewrite merged_lookup.
    by destruct (first_described _ _). }
  split; [exact H|]. intros bases desc s Hmro Hown Hs. rewrite H, Hmro.
  cbn [first_described]. unfold getattr, getattr_permissions_desc.
  rewrite Hmro. cbn [lookup_permissions_desc]. by rewrite Hown, Hs.
Qed.
End describe_permission.

(** A wiki that describes [read] itself and inherits the descriptions of
    [Application]. *)
Definition demo_mro (cls : string) : list string :=
  if String.eqb cls "Wiki" then ["Wiki"; "Application"; "object"]
  else if String.eqb cls "Application" then ["Application"; "object"]
  else ["object"].
Definition demo_permissions_desc (cls : string) : option (gmap string string) :=
  if String.eqb cls "Wiki" then Some {["read" := "Read pages."]}
  else if String.eqb cls "Application"
       then Some {["admin" := "Set permissions."; "read" := "Read."]}
       else None.

Lemma describe_permission_first_witness :
  describe_permission demo_mro demo_permissions_desc "Wiki" "read" = "Read pages.".
Proof.
  apply (describe_permission_first demo_mro demo_permissions_desc "Wiki" "read")
    with (bases := ["Application"; "object"]) (desc := {["read" := "Read pages."]}).
  - reflexivity.
  - reflexivity.
  - reflexivity.
Defined.

End AclFacts.

(** ** [mail_util.py]: the octets of [encode_email_part] *)

Module CodecFacts.
Import MailUtil Codec EncodeFacts.

(** *** When no part is built *)



(** *** Decoding what was encoded *)

(** A property of the numbers below [n], checked one by one. *)
Definition below (n : nat) (f : N → bool) : bool :=
  forallb f (map N.of_nat (seq 0 n)).

Lemma below_spec n f x : below n f = true → (x < N.of_nat n)%N → f x = true.
Proof.
  unfold below. rewrite forallb_forall. intros H Hx. apply H.
  apply in_map_iff. exists (N.to_nat x). split; [apply N2Nat.id|]. apply in_seq. lia.
Qed.

(** The continuation octet of six bits, read back. *)
Lemma continuation_octet x :
  (x < 64)%N → continuation (octet (N.lor 0x80 x)) = Some x.
Proof.
  intros Hx.
  assert (H : below 64 (fun x => match continuation (octet (N.lor 0x80 x)) with
                                 | Some y => N.eqb y x
                                 | None => false
                                 end) = true) by (vm_compute; reflexivity).
  apply (below_spec _ _ x) in H; [|exact Hx]. cbv beta in H.
  destruct (continuation _) as [y|]; [|done]. by apply N.eqb_eq in H as ->.
Qed.

(** The leading octets, read back. *)
Lemma lead_1 c : (c < 0x80)%N → N_of_ascii (octet c) = c.
Proof. intros Hc. apply N_ascii_embedding. lia. Qed.

Lemma lead_2 h :
  (h < 32)%N →
  let n0 := N_of_ascii (octet (N.lor 0xC0 h)) in
  (n0 <? 0x80)%N = false
  ∧ (0xC0 <=? n0)%N && (n0 <? 0xE0)%N = true
  ∧ N.land n0 0x1F = h.
Proof.
  intros Hh n0. subst n0.
  assert (H : below 32 (fun h =>
                let n0 := N_of_ascii (octet (N.lor 0xC0 h)) in
                negb (n0 <? 0x80)%N && ((0xC0 <=? n0)%N && (n0 <? 0xE0)%N)
                && N.eqb (N.land n0 0x1F) h) = true) by (vm_compute; reflexivity).
  apply (below_spec _ _ h) in H; [|exact Hh]. cbv beta zeta in H.
  apply andb_prop in H as [[H1%negb_true_iff H2]%andb_prop H3%N.eqb_eq]. done.
Qed.

Lemma lead_3 h :
  (h < 16)%N →
  let n0 := N_of_ascii (octet (N.lor 0xE0 h)) in
  (n0 <? 0x80)%N = false
  ∧ (0xC0 <=? n0)%N && (n0 <? 0xE0)%N = false
  ∧ (0xE0 <=? n0)%N && (n0 <? 0xF0)%N = true
  ∧ N.land n0 0x0F = h.
Proof.
  intros Hh n0. subst n0.
  assert (H : below 16 (fun h =>
                let n0 := N_of_ascii (octet (N.lor 0xE0 h)) in
                negb (n0 <? 0x80)%N && negb ((0xC0 <=? n0)%N && (n0 <? 0xE0)%N)
                && ((0xE0 <=? n0)%N && (n0 <? 0xF0)%N)
                && N.eqb (N.land n0 0x0F) h) = true) by (vm_compute; reflexivity).
  apply (below_spec _ _ h) in H; [|exact Hh]. cbv beta zeta in H.
  apply andb_prop in H as [[[H1%negb_true_iff H2%negb_true_iff]%andb_prop H3]%andb_prop
                           H4%N.eqb_eq].
  done.
Qed.

Lemma lead_4 h :
  (h < 8)%N →
  let n0 := N_of_ascii (octet (N.lor 0xF0 h)) in
  (n0 <? 0x80)%N = false
  ∧ (0xC0 <=? n0)%N && (n0 <? 0xE0)%N = false
  ∧ (0xE0 <=? n0)%N && (n0 <? 0xF0)%N = false
  ∧ (0xF0 <=? n0)%N && (n0 <? 0xF8)%N = true
  ∧ N.land n0 0x07 = h.
Proof.
  intros Hh n0. subst n0.
  assert (H : below 8 (fun h =>
                let n0 := N_of_ascii (octet (N.lor 0xF0 h)) in
                negb (n0 <? 0x80)%N && negb ((0xC0 <=? n0)%N && (n0 <? 0xE0)%N)
                && negb ((0xE0 <=? n0)%N && (n0 <? 0xF0)%N)
                && ((0xF0 <=? n0)%N && (n0 <? 0xF8)%N)
                && N.eqb (N.land n0 0x07) h) = true) by (vm_compute; reflexivity).
  apply (below_spec _ _ h) in H; [|exact Hh]. cbv beta zeta in H.
  apply andb_prop in H as [[[[H1%negb_true_iff H2%negb_true_iff]%andb_prop
                              H3%negb_true_iff]%andb_prop H4]%andb_prop H5%N.eqb_eq].
  done.
Qed.

(** Six bits at a time. *)
Lemma low_bits c : (N.land c 0x3F < 64)%N.
Proof.
  change 0x3F%N with (N.ones 6). rewrite N.land_ones.
  apply N.mod_lt. discriminate.
Qed.

Lemma high_bits c k bound :
  (c < bound * 2 ^ k)%N → (N.shiftr c k < bound)%N.
Proof.
  intros Hc. rewrite N.shiftr_div_pow2.
  apply N.Div0.div_lt_upper_bound. by rewrite N.mul_comm.
Qed.

Lemma testbit_low c k n :
  N.testbit (N.land c (N.ones k)) n = N.testbit c n && (n <? k)%N.
Proof.
  rewrite N.land_spec. destruct (N.ltb_spec n k).
  - by rewrite N.ones_spec_low.
  - by rewrite N.ones_spec_high.
Qed.

Lemma testbit_shifted x k n :
  N.testbit (N.shiftl x k) n = (k <=? n)%N && N.testbit x (n - k).
Proof.
  destruct (N.leb_spec k n).
  - by rewrite N.shiftl_spec_high'.
  - by rewrite N.shiftl_spec_low.
Qed.

Ltac bits :=
  apply N.bits_inj; intros n;
  rewrite ?N.lor_spec, ?testbit_shifted, ?testbit_low, ?N.shiftr_spec', ?testbit_low;
  repeat match goal with
         | |- context [(?a <=? ?b)%N] => destruct (N.leb_spec a b)
         | |- context [(?a <? ?b)%N] => destruct (N.ltb_spec a b)
         end;
  cbn [andb orb]; rewrite ?andb_true_r, ?andb_false_r, ?orb_false_r;
  try lia; try reflexivity;
  try (f_equal; lia).

Lemma join_2 c :
  N.lor (N.shiftl (N.shiftr c 6) 6) (N.land c 0x3F) = c.
Proof. change 0x3F%N with (N.ones 6). bits. Qed.

Lemma join_3 c :
  N.lor (N.shiftl (N.shiftr c 12) 12)
    (N.lor (N.shiftl (N.land (N.shiftr c 6) 0x3F) 6) (N.land c 0x3F)) = c.
Proof. change 0x3F%N with (N.ones 6). bits. Qed.

Lemma join_4 c :
  N.lor (N.shiftl (N.shiftr c 18) 18)
    (N.lor (N.shiftl (N.land (N.shiftr c 12) 0x3F) 12)
       (N.lor (N.shiftl (N.land (N.shiftr c 6) 0x3F) 6) (N.land c 0x3F))) = c.
Proof. change 0x3F%N with (N.ones 6). bits. Qed.

Lemma decode_utf8_cons a0 b1 :
  decode_utf8 (a0 :: b1)
  = let n0 := N_of_ascii a0 in
    if (n0 <? 0x80)%N then
      (s <- decode_utf8 b1 ;; Return (n0 :: s))%py
    else if (0xC0 <=? n0)%N && (n0 <? 0xE0)%N then
      match b1 with
      | a1 :: b2 =>
          match continuation a1 with
          | Some x1 =>
              let c := N.lor (N.shiftl (N.land n0 0x1F) 6) x1 in
              if scalar_in 0x80 c
              then (s <- decode_utf8 b2 ;; Return (c :: s))%py
              else Raise UnicodeDecodeError
          | None => Raise UnicodeDecodeError
          end
      | [] => Raise UnicodeDecodeError
      end
    else if (0xE0 <=? n0)%N && (n0 <? 0xF0)%N then
      match b1 with
      | a1 :: a2 :: b3 =>
          match continuation a1, continuation a2 with
          | Some x1, Some x2 =>
              let c := N.lor (N.shiftl (N.land n0 0x0F) 12)
                         (N.lor (N.shiftl x1 6) x2) in
              if scalar_in 0x800 c
              then (s <- decode_utf8 b3 ;; Return (c :: s))%py
              else Raise UnicodeDecodeError
          | _, _ => Raise UnicodeDecodeError
          end
      | _ => Raise UnicodeDecodeError
      end
    else if (0xF0 <=? n0)%N && (n0 <? 0xF8)%N then
      match b1 with
      | a1 :: a2 :: a3 :: b4 =>
          match continuation a1, continuation a2, continuation a3 with
          | Some x1, Some x2, Some x3 =>
              let c := N.lor (N.shiftl (N.land n0 0x07) 18)
                         (N.lor (N.shiftl x1 12) (N.lor (N.shiftl x2 6) x3)) in
              if scalar_in 0x10000 c
              then (s <- decode_utf8 b4 ;; Return (c :: s))%py
              else Raise UnicodeDecodeError
          | _, _, _ => Raise UnicodeDecodeError
          end
      | _ => Raise UnicodeDecodeError
      end
    else Raise UnicodeDecodeError.
Proof. reflexivity. Qed.

Lemma scalar_in_true lo c :
  (lo ≤ c)%N → (c < 0x110000)%N → ¬ (0xD800 ≤ c ≤ 0xDFFF)%N → scalar_in lo c = true.
Proof.
  intros H1 H2 H3. unfold scalar_in.
  destruct (N.leb_spec lo c); [|lia].
  destruct (N.leb_spec c 0x10FFFF); [|lia].
  destruct (N.leb_spec 0xD800 c), (N.leb_spec c 0xDFFF); cbn; try done. lia.
Qed.

(** One code point: its octets, with whatever follows, decode to the
    code point and the decoding of what follows. *)
Lemma decode_utf8_char c b rest :
  utf8_char c = Return b →
  decode_utf8 (b ++ rest) = (s <- decode_utf8 rest ;; Return (c :: s))%py.
Proof.
  unfold utf8_char.
  destruct (N.ltb_spec c 0x80) as [H1|H1].
  { intros [= <-]. cbn [app]. rewrite decode_utf8_cons. cbv zeta.
    rewrite lead_1 by done. by destruct (N.ltb_spec c 0x80); [|lia]. }
  destruct (N.ltb_spec c 0x800) as [H2|H2].
  { intros [= <-]. cbn [app]. rewrite decode_utf8_cons. cbv zeta.
    destruct (lead_2 (N.shiftr c 6)) as (-> & -> & ->); [by apply high_bits|].
    rewrite continuation_octet by apply low_bits.
    rewrite join_2, scalar_in_true by lia. reflexivity. }
  destruct (N.ltb_spec c 0x10000) as [H3|H3].
  { destruct (N.leb_spec 0xD800 c), (N.leb_spec c 0xDFFF); cbn [andb]; try discriminate;
      (intros [= <-]; cbn [app]; rewrite decode_utf8_cons; cbv zeta;
       destruct (lead_3 (N.shiftr c 12)) as (-> & -> & -> & ->); [by apply high_bits|];
       rewrite !continuation_octet by apply low_bits;
       rewrite join_3, scalar_in_true by lia; reflexivity). }
  destruct (N.ltb_spec c 0x110000) as [H4|H4]; [|discriminate].
  intros [= <-]. cbn [app]. rewrite decode_utf8_cons. cbv zeta.
  destruct (lead_4 (N.shiftr c 18)) as (-> & -> & -> & -> & ->);
    [apply high_bits; lia|].
  rewrite !continuation_octet by apply low_bits.
  rewrite join_4, scalar_in_true by lia. reflexivity.
Qed.

Lemma decode_encode_utf8 s b :
  encode_utf8 s = Return b → decode_utf8 b = Return s.
Proof.
  revert b. induction s as [|c s IH]; intros b; cbn [encode_utf8].
  - by intros [= <-].
  - destruct (utf8_char c) as [bc|] eqn:Hc; cbn [rbind]; [|discriminate].
    destruct (encode_utf8 s) as [bs|]; cbn [rbind]; [|discriminate].
    intros [= <-]. by rewrite (decode_utf8_char _ _ _ Hc), (IH _ eq_refl).
Qed.

(** X22: the octets of the part that [encode_email_part] builds, decoded
    as UTF-8 (which on ASCII octets is decoding as ASCII), give back the
    content, code point for code point: what [six.ensure_text] makes of the
    payload is the text that was sent. *)
Theorem encode_email_part_decodes content content_type part :
  encode_email_part content content_type = Return part →
  decode_utf8 (_text part) = Return content
  ∧ ensure_text (VBytes (_text part)) = Return (VText content).
Proof.
  unfold encode_email_part, new_MIMEText. intros H.
  assert (Hd : decode_utf8 (_text part) = Return content).
  { destruct (encode_ascii content) as [b|] eqn:Ha.
    - destruct (has_linebreak content_type); [discriminate|].
      injection H as <-. cbn [_text]. by apply decode_encode_utf8, encode_ascii_utf8.
    - destruct (encode_utf8 content) as [b|] eqn:Hu; cbn [rbind] in H; [|discriminate].
      destruct (has_linebreak content_type); [discriminate|].
      injection H as <-. cbn [_text]. by apply decode_encode_utf8. }
  split; [exact Hd|]. cbn [ensure_text]. by rewrite Hd.
Qed.

Lemma encode_email_part_decodes_witness :
  ∃ part, encode_email_part (text "caf" ++ [0xE9; 0x20AC; 0x1F600]%N) "plain" = Return part
          ∧ decode_utf8 (_text part) = Return (text "caf" ++ [0xE9; 0x20AC; 0x1F600]%N).
Proof.
  eexists. split; [reflexivity|].
  by apply (encode_email_part_decodes (text "caf" ++ [0xE9; 0x20AC; 0x1F600]%N) "plain").
Defined.

End CodecFacts.
